(** * LHSPG: scheduled structured sparsification of low-rank adapters

    A shallow embedding of [only_train_once/optimizer/lhspg.py] and the
    properties of its group bookkeeping, selection, schedule and update
    pass.  Integers are [Z] with Python's floor division and modulo,
    Python lists are [list], dictionaries are [gmap] (or association lists
    where the iteration order is observable), floats are idealised as
    rationals [Q], and a raised exception is the [Raise] branch of
    [result]. *)

From Stdlib Require Import ZArith QArith Qminmax Qpower String List Sorted Lia
  Lqa.
From stdpp Require Import gmap strings list.

Open Scope Z_scope.

(** ** Exceptions *)

Inductive exn :=
| ValueError
| ZeroDivisionError
| KeyError (key : string)
| RuntimeError
| IndexError.

Inductive result (A : Type) :=
| Ok (a : A)
| Raise (e : exn).
Arguments Ok {A} a.
Arguments Raise {A} e.

#[global] Instance result_ret : MRet result := λ A a, Ok a.
#[global] Instance result_bind : MBind result := λ A B f r,
  match r with
  | Ok a => f a
  | Raise e => Raise e
  end.

Definition succeeds {A} (r : result A) : Prop := ∃ a, r = Ok a.

(** ** Python and numpy primitives *)

Module Py.

(** [range(n)] *)
Definition range (n : Z) : list Z := seqZ 0 n.

(** [len(l)] *)
Definition len {A} (l : list A) : Z := Z.of_nat (length l).

(** [l[:k]], with Python's reading of a negative bound. *)
Definition slice_to {A} (l : list A) (k : Z) : list A :=
  if 0 <=? k then take (Z.to_nat k) l else take (Z.to_nat (len l + k)) l.

(** [a // b] and [a % b]: floor semantics, which is what [Z.div] and
    [Z.modulo] compute; a zero divisor raises. *)
Definition floordiv (a b : Z) : result Z :=
  if b =? 0 then Raise ZeroDivisionError else Ok (a / b).

Definition mod_ (a b : Z) : result Z :=
  if b =? 0 then Raise ZeroDivisionError else Ok (a mod b).

(** [int(x)] of a float: truncation toward zero. *)
Definition int (x : Q) : Z := Z.quot (Qnum x) (Z.pos (Qden x)).

(** [sub in s] on strings. *)
Fixpoint contains (sub s : string) : bool :=
  String.prefix sub s ||
  match s with
  | EmptyString => false
  | String _ s' => contains sub s'
  end.

(** [s.split(sep)[0]]: the part of [s] before the first [sep]. *)
Fixpoint split_head (sep s : string) : string :=
  if String.prefix sep s then EmptyString
  else match s with
       | EmptyString => EmptyString
       | String c s' => String c (split_head sep s')
       end.

End Py.

Module Np.

Fixpoint insert_unique (x : Z) (l : list Z) : list Z :=
  match l with
  | [] => [x]
  | y :: l' =>
      if x <? y then x :: l
      else if x =? y then l
      else y :: insert_unique x l'
  end.

(** [np.unique]: the sorted distinct values. *)
Definition unique (l : list Z) : list Z := foldr insert_unique [] l.

(** [np.setdiff1d(a, b)]: the sorted distinct values of [a] not in [b]. *)
Definition setdiff1d (a b : list Z) : list Z :=
  unique (filter (λ x, x ∉ b) a).

(** [np.intersect1d(a, b)]: the sorted distinct common values. *)
Definition intersect1d (a b : list Z) : list Z :=
  unique (filter (λ x, x ∈ b) a).

(** [np.arange(lo, hi)] *)
Definition arange (lo hi : Z) : list Z := seqZ lo (hi - lo).

End Np.

Module Torch.

(** Insertion of a scored index into a list kept in ascending score
    order; among equal scores the lower index comes first (the order of
    ties is not fixed by torch, this is one admissible choice). *)
Fixpoint insert_by_score (x : Q * Z) (l : list (Q * Z)) : list (Q * Z) :=
  match l with
  | [] => [x]
  | y :: l' =>
      if Qle_bool x.1 y.1 then x :: l else y :: insert_by_score x l'
  end.

Definition argsort (scores : list Q) : list Z :=
  snd <$> foldr insert_by_score [] (zip scores (seqZ 0 (Py.len scores))).

(** [torch.topk(-scores, k)] read for its indices: the positions of the
    [k] lowest scores, lowest first.  [k] out of range raises. *)
Definition topk_neg (scores : list Q) (k : Z) : result (list Z) :=
  if (k <? 0) || (Py.len scores <? k) then Raise RuntimeError
  else Ok (take (Z.to_nat k) (argsort scores)).

End Torch.

(** ** Data model *)

(** The transform kinds of [only_train_once.transform.TensorTransform]
    that the optimizer dispatches on. *)
Inductive TensorTransform :=
| NO_PRUNE
| BASIC
| TRANSPOSE
| MULTIHEAD_HEADDIM
| MULTIHEAD_NUMHEAD
| REVERSE_MULTIHEAD_HEADDIM
| REVERSE_MULTIHEAD_NUMHEAD.

#[global] Instance TensorTransform_eq_dec : EqDecision TensorTransform.
Proof. solve_decision. Defined.

(** One entry of [param_groups]: the caller's record merged with the
    optimizer defaults. *)
Record param_group := {
  group_id : string;
  p_names : list string;
  p_transform : list TensorTransform;
  num_groups : Z;
  is_prunable : bool;
  is_auxiliary : bool;
  num_heads : Z;
  head_dim : Z;
  lr : Q;
  weight_decay : option Q;
  first_momentum : Q;
  second_momentum : Q;
  dampening : Q;
  variant : string
}.

(** [group['is_prunable'] and not group['is_auxiliary']] *)
Definition eligible (g : param_group) : bool :=
  is_prunable g && negb (is_auxiliary g).

(** Dictionary subscription: a missing key raises [KeyError]. *)
Definition getitem {A} (d : gmap string A) (k : string) : result A :=
  match d !! k with
  | Some v => Ok v
  | None => Raise (KeyError k)
  end.

Definition getitem_Z {A} (d : gmap Z A) (k : Z) : result A :=
  match d !! k with
  | Some v => Ok v
  | None => Raise (KeyError "")
  end.

(** A [for] loop over a list whose body may raise. *)
Fixpoint for_each {A S} (l : list A) (body : A → S → result S) (s : S)
  : result S :=
  match l with
  | [] => Ok s
  | x :: l' => s' ← body x s; for_each l' body s'
  end.

(** The part of the optimizer that is fixed by the constructor. *)
Record schedule := {
  param_groups : list param_group;
  start_pruning_step : Z;
  pruning_steps : Z;
  pruning_periods : Z;
  pruning_period_duration : Z;
  group_divisible : Z;
  target_group_sparsity : list (string * Q);
  prunable_param_group_clusters : list (string * list param_group);
  total_num_groups : Z;
  total_num_groups_by_clusters : gmap string Z;
  target_num_redundant_groups_by_clusters : gmap string Z;
  active_num_redundant_groups_by_clusters : gmap string (gmap Z Z)
}.

(** The part that [step] mutates. *)
Record opt_state := {
  num_steps : Z;
  curr_pruning_period : Z;
  target_num_redundant_groups : Z;
  curr_num_zero_groups : Z;
  pruned_group_idx_by_cluster : gmap string (list Z);
  important_idxes : gmap string (list Z);
  pruned_idxes : gmap string (list Z);
  active_redundant_idxes : gmap string (list Z);
  global_start_idx : gmap string Z;
  cluster_importance_scores : gmap string (list (list Q));
  active_redundant_bool : gmap string (list bool)
}.

Definition set_num_steps (v : Z) (s : opt_state) : opt_state :=
  {| num_steps := v;
     curr_pruning_period := curr_pruning_period s;
     target_num_redundant_groups := target_num_redundant_groups s;
     curr_num_zero_groups := curr_num_zero_groups s;
     pruned_group_idx_by_cluster := pruned_group_idx_by_cluster s;
     important_idxes := important_idxes s;
     pruned_idxes := pruned_idxes s;
     active_redundant_idxes := active_redundant_idxes s;
     global_start_idx := global_start_idx s;
     cluster_importance_scores := cluster_importance_scores s;
     active_redundant_bool := active_redundant_bool s |}.

Definition set_curr_pruning_period (v : Z) (s : opt_state) : opt_state :=
  {| num_steps := num_steps s;
     curr_pruning_period := v;
     target_num_redundant_groups := target_num_redundant_groups s;
     curr_num_zero_groups := curr_num_zero_groups s;
     pruned_group_idx_by_cluster := pruned_group_idx_by_cluster s;
     important_idxes := important_idxes s;
     pruned_idxes := pruned_idxes s;
     active_redundant_idxes := active_redundant_idxes s;
     global_start_idx := global_start_idx s;
     cluster_importance_scores := cluster_importance_scores s;
     active_redundant_bool := active_redundant_bool s |}.

Definition set_target_num_redundant_groups (v : Z) (s : opt_state)
  : opt_state :=
  {| num_steps := num_steps s;
     curr_pruning_period := curr_pruning_period s;
     target_num_redundant_groups := v;
     curr_num_zero_groups := curr_num_zero_groups s;
     pruned_group_idx_by_cluster := pruned_group_idx_by_cluster s;
     important_idxes := important_idxes s;
     pruned_idxes := pruned_idxes s;
     active_redundant_idxes := active_redundant_idxes s;
     global_start_idx := global_start_idx s;
     cluster_importance_scores := cluster_importance_scores s;
     active_redundant_bool := active_redundant_bool s |}.

Definition set_curr_num_zero_groups (v : Z) (s : opt_state) : opt_state :=
  {| num_steps := num_steps s;
     curr_pruning_period := curr_pruning_period s;
     target_num_redundant_groups := target_num_redundant_groups s;
     curr_num_zero_groups := v;
     pruned_group_idx_by_cluster := pruned_group_idx_by_cluster s;
     important_idxes := important_idxes s;
     pruned_idxes := pruned_idxes s;
     active_redundant_idxes := active_redundant_idxes s;
     global_start_idx := global_start_idx s;
     cluster_importance_scores := cluster_importance_scores s;
     active_redundant_bool := active_redundant_bool s |}.

Definition set_pruned_group_idx_by_cluster (v : gmap string (list Z))
  (s : opt_state) : opt_state :=
  {| num_steps := num_steps s;
     curr_pruning_period := curr_pruning_period s;
     target_num_redundant_groups := target_num_redundant_groups s;
     curr_num_zero_groups := curr_num_zero_groups s;
     pruned_group_idx_by_cluster := v;
     important_idxes := important_idxes s;
     pruned_idxes := pruned_idxes s;
     active_redundant_idxes := active_redundant_idxes s;
     global_start_idx := global_start_idx s;
     cluster_importance_scores := cluster_importance_scores s;
     active_redundant_bool := active_redundant_bool s |}.

Definition set_important_idxes (v : gmap string (list Z)) (s : opt_state)
  : opt_state :=
  {| num_steps := num_steps s;
     curr_pruning_period := curr_pruning_period s;
     target_num_redundant_groups := target_num_redundant_groups s;
     curr_num_zero_groups := curr_num_zero_groups s;
     pruned_group_idx_by_cluster := pruned_group_idx_by_cluster s;
     important_idxes := v;
     pruned_idxes := pruned_idxes s;
     active_redundant_idxes := active_redundant_idxes s;
     global_start_idx := global_start_idx s;
     cluster_importance_scores := cluster_importance_scores s;
     active_redundant_bool := active_redundant_bool s |}.

Definition set_pruned_idxes (v : gmap string (list Z)) (s : opt_state)
  : opt_state :=
  {| num_steps := num_steps s;
     curr_pruning_period := curr_pruning_period s;
     target_num_redundant_groups := target_num_redundant_groups s;
     curr_num_zero_groups := curr_num_zero_groups s;
     pruned_group_idx_by_cluster := pruned_group_idx_by_cluster s;
     important_idxes := important_idxes s;
     pruned_idxes := v;
     active_redundant_idxes := active_redundant_idxes s;
     global_start_idx := global_start_idx s;
     cluster_importance_scores := cluster_importance_scores s;
     active_redundant_bool := active_redundant_bool s |}.

Definition set_active_redundant_idxes (v : gmap string (list Z))
  (s : opt_state) : opt_state :=
  {| num_steps := num_steps s;
     curr_pruning_period := curr_pruning_period s;
     target_num_redundant_groups := target_num_redundant_groups s;
     curr_num_zero_groups := curr_num_zero_groups s;
     pruned_group_idx_by_cluster := pruned_group_idx_by_cluster s;
     important_idxes := important_idxes s;
     pruned_idxes := pruned_idxes s;
     active_redundant_idxes := v;
     global_start_idx := global_start_idx s;
     cluster_importance_scores := cluster_importance_scores s;
     active_redundant_bool := active_redundant_bool s |}.

Definition set_global_start_idx (v : gmap string Z) (s : opt_state)
  : opt_state :=
  {| num_steps := num_steps s;
     curr_pruning_period := curr_pruning_period s;
     target_num_redundant_groups := target_num_redundant_groups s;
     curr_num_zero_groups := curr_num_zero_groups s;
     pruned_group_idx_by_cluster := pruned_group_idx_by_cluster s;
     important_idxes := important_idxes s;
     pruned_idxes := pruned_idxes s;
     active_redundant_idxes := active_redundant_idxes s;
     global_start_idx := v;
     cluster_importance_scores := cluster_importance_scores s;
     active_redundant_bool := active_redundant_bool s |}.

Definition set_cluster_importance_scores (v : gmap string (list (list Q)))
  (s : opt_state) : opt_state :=
  {| num_steps := num_steps s;
     curr_pruning_period := curr_pruning_period s;
     target_num_redundant_groups := target_num_redundant_groups s;
     curr_num_zero_groups := curr_num_zero_groups s;
     pruned_group_idx_by_cluster := pruned_group_idx_by_cluster s;
     important_idxes := important_idxes s;
     pruned_idxes := pruned_idxes s;
     active_redundant_idxes := active_redundant_idxes s;
     global_start_idx := global_start_idx s;
     cluster_importance_scores := v;
     active_redundant_bool := active_redundant_bool s |}.

Definition set_active_redundant_bool (v : gmap string (list bool))
  (s : opt_state) : opt_state :=
  {| num_steps := num_steps s;
     curr_pruning_period := curr_pruning_period s;
     target_num_redundant_groups := target_num_redundant_groups s;
     curr_num_zero_groups := curr_num_zero_groups s;
     pruned_group_idx_by_cluster := pruned_group_idx_by_cluster s;
     important_idxes := important_idxes s;
     pruned_idxes := pruned_idxes s;
     active_redundant_idxes := active_redundant_idxes s;
     global_start_idx := global_start_idx s;
     cluster_importance_scores := cluster_importance_scores s;
     active_redundant_bool := v |}.

(** ** Tensors

    A tensor is a vector or a matrix of rationals (the shapes of adapter
    factors, base weights and biases); dimension 0 of a matrix is its list
    of rows.  Parameters are stored by name, which is how
    [named_parameters] aliases them. *)

Inductive tensor :=
| Vec (v : list Q)
| Mat (rows : list (list Q)).

Definition tmap (f : Q → Q) (x : tensor) : tensor :=
  match x with
  | Vec v => Vec (f <$> v)
  | Mat m => Mat ((λ row : list Q, f <$> row) <$> m)
  end.

(** Entrywise combination of two tensors of one shape (a gradient and
    its parameter); other pairings do not occur and leave [x] as it is. *)
Definition tzip (f : Q → Q → Q) (x y : tensor) : tensor :=
  match x, y with
  | Vec u, Vec v => Vec (zip_with f u v)
  | Mat m, Mat n => Mat (zip_with (zip_with f) m n)
  | _, _ => x
  end.

(** [x.add_(y, alpha=a)] *)
Definition add_ (x y : tensor) (a : Q) : tensor :=
  tzip (λ u v, u + a * v)%Q x y.

(** [len(x.shape) > 1] *)
Definition is_matrix (x : tensor) : bool :=
  match x with
  | Vec _ => false
  | Mat _ => true
  end.

Definition scale_where {A} (scale : Q → A → A) (mask : list bool)
  (f : result Q) (l : list A) : result (list A) :=
  if decide (length mask = length l)
  then q ← f; Ok (zip_with (λ (b : bool) a, if b then scale q a else a)
                           mask l)
  else Raise IndexError.

(** [x[mask] *= f] with a boolean mask over dimension 0; the subscript
    is evaluated before the factor [f]. *)
Definition scale_rows (mask : list bool) (f : result Q) (x : tensor)
  : result tensor :=
  match x with
  | Vec v => v' ← scale_where (λ q u, u * q)%Q mask f v; Ok (Vec v')
  | Mat m =>
      m' ← scale_where (λ q (row : list Q), (λ u, u * q)%Q <$> row)
             mask f m;
      Ok (Mat m')
  end.

(** [x[:, mask] *= f] with a boolean mask over dimension 1. *)
Definition scale_cols (mask : list bool) (f : result Q) (x : tensor)
  : result tensor :=
  match x with
  | Vec _ => Raise IndexError
  | Mat m =>
      if decide (Forall (λ row, length mask = length row) m)
      then q ← f;
           Ok (Mat ((λ row, zip_with (λ (b : bool) u,
                                        if b then (u * q)%Q else u)
                              mask row) <$> m))
      else Raise IndexError
  end.

(** Position of a Python index in a dimension of size [n]. *)
Definition py_index (n : nat) (i : Z) : result nat :=
  if (0 <=? i) && (i <? Z.of_nat n) then Ok (Z.to_nat i)
  else if (- Z.of_nat n <=? i) && (i <? 0)
       then Ok (Z.to_nat (Z.of_nat n + i))
       else Raise IndexError.

Definition assign_at {A} (a : A → A) (idxes : list Z) (l : list A)
  : result (list A) :=
  for_each idxes (λ i l, k ← py_index (length l) i; Ok (alter a k l)) l.

(** [x[idxes] = 0.0] with a list of indices over dimension 0. *)
Definition zero_rows (idxes : list Z) (x : tensor) : result tensor :=
  match x with
  | Vec v => v' ← assign_at (λ _, 0%Q) idxes v; Ok (Vec v')
  | Mat m =>
      m' ← assign_at (λ row : list Q, (λ _, 0%Q) <$> row) idxes m;
      Ok (Mat m')
  end.

(** [x[:, idxes] = 0.0] with a list of indices over dimension 1. *)
Definition zero_cols (idxes : list Z) (x : tensor) : result tensor :=
  match x with
  | Vec _ => Raise IndexError
  | Mat m =>
      m' ← for_each m
              (λ row acc, row' ← assign_at (λ _, 0%Q) idxes row;
                          Ok (acc ++ [row'])) [];
      Ok (Mat m')
  end.

(** The numeric side of the optimizer: parameter data and gradients by
    tensor name, the two moment-buffer dictionaries keyed by the (group
    position, tensor position) of the buffer name, and each group's
    [grad_variant] dictionary keyed by the group's position. *)
Record tensors := {
  data : gmap string tensor;
  grad : gmap string tensor;
  first_moment_grads : gmap (nat * nat) tensor;
  second_moment_grads : gmap (nat * nat) tensor;
  grad_variant : gmap nat (gmap string tensor)
}.

Definition set_data (v : gmap string tensor) (T : tensors) : tensors :=
  {| data := v; grad := grad T;
     first_moment_grads := first_moment_grads T;
     second_moment_grads := second_moment_grads T;
     grad_variant := grad_variant T |}.

Definition set_grad (v : gmap string tensor) (T : tensors) : tensors :=
  {| data := data T; grad := v;
     first_moment_grads := first_moment_grads T;
     second_moment_grads := second_moment_grads T;
     grad_variant := grad_variant T |}.

Definition set_first_moment_grads (v : gmap (nat * nat) tensor)
  (T : tensors) : tensors :=
  {| data := data T; grad := grad T;
     first_moment_grads := v;
     second_moment_grads := second_moment_grads T;
     grad_variant := grad_variant T |}.

Definition set_second_moment_grads (v : gmap (nat * nat) tensor)
  (T : tensors) : tensors :=
  {| data := data T; grad := grad T;
     first_moment_grads := first_moment_grads T;
     second_moment_grads := v;
     grad_variant := grad_variant T |}.

Definition set_grad_variant (v : gmap nat (gmap string tensor))
  (T : tensors) : tensors :=
  {| data := data T; grad := grad T;
     first_moment_grads := first_moment_grads T;
     second_moment_grads := second_moment_grads T;
     grad_variant := v |}.

(** [p.data] of the parameter called [name]. *)
Definition param_data (T : tensors) (name : string) : tensor :=
  default (Vec []) (data T !! name).

(** [p.data = x] for the parameter called [name]. *)
Definition store (name : string) (x : tensor) (T : tensors) : tensors :=
  set_data (<[name := x]> (data T)) T.

Definition Qltb (x y : Q) : bool := negb (Qle_bool y x).

Definition safe_guard : Q := 1 # 100000000.

(** ** Constructor *)

(** The record a caller supplies for one parameter group. *)
Record group_record := {
  r_id : string;
  r_p_names : list string;
  r_p_transform : list TensorTransform;
  r_num_groups : Z;
  r_is_prunable : bool;
  r_is_auxiliary : bool;
  r_num_heads : Z;
  r_head_dim : Z
}.

(** [target_group_sparsity]: one fraction, or one per named cluster. *)
Inductive sparsity_arg :=
| Scalar (s : Q)
| PerCluster (d : list (string * Q)).

Record init_args := {
  arg_params : list group_record;
  arg_variant : string;
  arg_lr : Q;
  arg_first_momentum : option Q;
  arg_second_momentum : option Q;
  arg_dampening : option Q;
  arg_weight_decay : option Q;
  arg_target_group_sparsity : sparsity_arg;
  arg_start_pruning_step : Z;
  arg_pruning_steps : Z;
  arg_pruning_periods : Z;
  arg_group_divisible : Z
}.

(** One entry of [hyperparameter.DEFAULT_OPT_PARAMS]. *)
Record opt_defaults := {
  d_first_momentum : Q;
  d_second_momentum : Q;
  d_dampening : Q;
  d_weight_decay : option Q
}.

(** Lines 71-86: membership of a cluster is a substring match of the
    cluster name against the tensor names, for every name in the target
    dictionary, ['overall'] included. *)
Definition in_cluster (cluster_name : string) (g : param_group) : bool :=
  existsb (Py.contains cluster_name) (p_names g).

Definition make_target_group_sparsity (a : sparsity_arg)
  : list (string * Q) :=
  match a with
  | PerCluster d => d
  | Scalar s => [("overall"%string, s)]
  end.

Definition make_clusters (tgs : list (string * Q))
  (groups : list param_group) : list (string * list param_group) :=
  (λ c, (c.1, filter (λ g, is_prunable g && in_cluster c.1 g) groups))
    <$> tgs.

Definition sum_num_groups (gs : list param_group) : Z :=
  foldr (λ g acc, num_groups g + acc) 0 gs.

(** Lines 88-93. *)
Definition make_total_num_groups (cl : list (string * list param_group))
  : Z :=
  foldr (λ c acc, sum_num_groups c.2 + acc) 0 cl.

Definition make_total_num_groups_by_clusters
  (cl : list (string * list param_group)) : gmap string Z :=
  foldl (λ m c, <[c.1 := sum_num_groups c.2]> m) ∅ cl.

(** Lines 101-107: the assignment sits inside the loop over the cluster's
    groups, so an empty cluster keeps the initial 0. *)
Definition make_target_of_cluster (total : Z) (s : Q)
  (gs : list param_group) : Z :=
  foldl (λ _ _, Py.int (inject_Z total * Qmin s (999 # 1000))) 0 gs.

(** Lines 116-124: an even split, the remainder going to the last period. *)
Definition make_quotas (target periods : Z) : gmap Z Z :=
  (foldl (λ '(m, groups_sum) p,
            if p =? periods - 1
            then (<[p := target - groups_sum]> m, groups_sum)
            else (<[p := target / periods]> m,
                  groups_sum + target / periods))
         (∅, 0) (Py.range periods)).1.

Definition merge_defaults (a_variant : string) (a_lr : Q)
  (fm sm dm : Q) (wd : option Q) (r : group_record) : param_group :=
  {| group_id := r_id r;
     p_names := r_p_names r;
     p_transform := r_p_transform r;
     num_groups := r_num_groups r;
     is_prunable := r_is_prunable r;
     is_auxiliary := r_is_auxiliary r;
     num_heads := r_num_heads r;
     head_dim := r_head_dim r;
     lr := a_lr;
     weight_decay := wd;
     first_momentum := fm;
     second_momentum := sm;
     dampening := dm;
     variant := a_variant |}.

Section Optimizer.

(** External collaborators, taken as given: the table of default
    hyper-parameters; the aggregated ['overall'] importance score of a
    group, which the source obtains from the scoring helper of
    [importance_score] (called as [calculate_importance_score_lhspg],
    imported as [calculate_importance_score_lora]) and normalises; the
    zero-group count of [compute_group_sparsity_param_norm]; the reverse
    transform of a group mask; and the square root on entries. *)
Variable DEFAULT_OPT_PARAMS : gmap string opt_defaults.
Variable overall_importance_score : tensors → param_group → list Q.
Variable count_zero_groups : list param_group → tensors → Z.
Variable tensor_transformation :
  list bool → TensorTransform → Z → Z → list bool.
Variable Qsqrt : Q → Q.

Definition default_of {A} (arg : option A) (a_variant : string)
  (field : opt_defaults → A) : result A :=
  match arg with
  | Some v => Ok v
  | None => d ← getitem DEFAULT_OPT_PARAMS a_variant; Ok (field d)
  end.

(** [LHSPG.__init__] *)
Definition init (a : init_args) (T : tensors)
  : result (schedule * opt_state) :=
  if Qltb (arg_lr a) 0 then Raise ValueError else
  let periods := Z.max 1 (arg_pruning_periods a) in
  duration ← Py.floordiv (arg_pruning_steps a) periods;
  fm ← default_of (arg_first_momentum a) (arg_variant a) d_first_momentum;
  sm ← default_of (arg_second_momentum a) (arg_variant a) d_second_momentum;
  dm ← default_of (arg_dampening a) (arg_variant a) d_dampening;
  wd ← match arg_weight_decay a with
       | Some v => Ok (Some v)
       | None => d ← getitem DEFAULT_OPT_PARAMS (arg_variant a);
                 Ok (d_weight_decay d)
       end;
  let groups :=
    merge_defaults (arg_variant a) (arg_lr a) fm sm dm wd
      <$> arg_params a in
  let tgs := make_target_group_sparsity (arg_target_group_sparsity a) in
  let cl := make_clusters tgs groups in
  let totals := make_total_num_groups_by_clusters cl in
  let targets : gmap string Z :=
    foldl (λ m c, <[c.1 := make_target_of_cluster
                             (default 0 (totals !! c.1))
                             (default 0%Q ((list_to_map tgs : gmap string Q) !! c.1))
                             c.2]> m) ∅ cl in
  let target := foldr (λ c acc, default 0 (targets !! c.1) + acc) 0 cl in
  let quotas : gmap string (gmap Z Z) :=
    foldl (λ m c, <[c.1 := make_quotas (default 0 (targets !! c.1))
                             periods]> m) ∅ cl in
  let sch :=
    {| param_groups := groups;
       start_pruning_step := arg_start_pruning_step a;
       pruning_steps := arg_pruning_steps a;
       pruning_periods := periods;
       pruning_period_duration := duration;
       group_divisible := arg_group_divisible a;
       target_group_sparsity := tgs;
       prunable_param_group_clusters := cl;
       total_num_groups := make_total_num_groups cl;
       total_num_groups_by_clusters := totals;
       target_num_redundant_groups_by_clusters := targets;
       active_num_redundant_groups_by_clusters := quotas |} in
  let st :=
    {| num_steps := 0;
       curr_pruning_period := 0;
       target_num_redundant_groups := target;
       curr_num_zero_groups := count_zero_groups groups T;
       pruned_group_idx_by_cluster :=
         foldl (λ m c, <[c.1 := []]> m) ∅ cl;
       important_idxes :=
         foldl (λ m g, <[group_id g := Py.range (num_groups g)]> m)
               ∅ groups;
       pruned_idxes := foldl (λ m g, <[group_id g := []]> m) ∅ groups;
       active_redundant_idxes :=
         foldl (λ m g, <[group_id g := []]> m) ∅ groups;
       global_start_idx := ∅;
       cluster_importance_scores := ∅;
       active_redundant_bool := ∅ |} in
  Ok (sch, st).

(** ** Commit *)

(** Body of the loop of [commit_redundant_idxes]. *)
Definition commit_group (g : param_group) (s : opt_state)
  : result opt_state :=
  if eligible g then
    pr ← getitem (pruned_idxes s) (group_id g);
    ac ← getitem (active_redundant_idxes s) (group_id g);
    let pr' := pr ++ ac in
    Ok (set_important_idxes
          (<[group_id g :=
               filter (λ i, i ∉ pr') (Py.range (num_groups g))]>
             (important_idxes s))
          (set_active_redundant_idxes
             (<[group_id g := []]> (active_redundant_idxes s))
             (set_pruned_idxes
                (<[group_id g := pr']> (pruned_idxes s)) s)))
  else Ok s.

Definition commit_redundant_idxes (sch : schedule) (s : opt_state)
  : result opt_state :=
  for_each (param_groups sch) commit_group s.

(** ** Importance scores *)

(** Lines 189-210 for one cluster: the eligible groups receive
    consecutive ranges of global indices and contribute their score
    vectors in that order. *)
Definition score_group (T : tensors) (g : param_group)
  (acc : Z * list (list Q) * gmap string Z)
  : Z * list (list Q) * gmap string Z :=
  let '(start, scores, gsi) := acc in
  if eligible g
  then (start + num_groups g,
        scores ++ [overall_importance_score T g],
        <[group_id g := start]> gsi)
  else acc.

Definition score_cluster (T : tensors) (c : string * list param_group)
  (s : opt_state) : opt_state :=
  let '(_, scores, gsi) :=
    foldl (λ acc g, score_group T g acc) (0, [], global_start_idx s) c.2 in
  set_cluster_importance_scores
    (<[c.1 := scores]> (cluster_importance_scores s))
    (set_global_start_idx gsi s).

Definition compute_importance_scores (sch : schedule) (T : tensors)
  (s : opt_state) : opt_state :=
  foldl (λ s c, score_cluster T c s)
        (set_cluster_importance_scores ∅ s)
        (prunable_param_group_clusters sch).

(** ** Redundant-group selection *)

(** Lines 220-223 on the concatenated score vector of one cluster. *)
Definition select_top_indices (scores : list Q) (pruned : list Z)
  (active_num_redundant_groups : Z) : result (list Z) :=
  let curr_K := Py.len pruned + active_num_redundant_groups in
  top_indices ← Torch.topk_neg scores curr_K;
  Ok (Py.slice_to (Np.setdiff1d top_indices pruned)
        active_num_redundant_groups).

(** Lines 237-247: the divisibility refinement of a trial selection
    [ac] of a group with [len_imp] important and [len_pr] pruned
    indices; returns the kept selection and the change of the global
    target. *)
Definition refine_selection (divisible n len_imp len_pr : Z)
  (ac : list Z) : result (list Z * Z) :=
  let trial_num_important_groups := len_imp - Py.len ac in
  r ← Py.mod_ trial_num_important_groups divisible;
  if negb (r =? 0) || (trial_num_important_groups <=? 0) then
    q ← Py.floordiv trial_num_important_groups divisible;
    let ratio := q + 1 in
    let refined_num_important_groups :=
      if (ratio <=? 1) || (trial_num_important_groups =? 0)
      then Z.max divisible 1
      else Z.max (ratio * divisible) divisible in
    let refined_num_important_groups :=
      Z.min n refined_num_important_groups in
    let refined_num_active_redundant_groups :=
      n - len_pr - refined_num_important_groups in
    Ok (Py.slice_to ac refined_num_active_redundant_groups,
        refined_num_active_redundant_groups - Py.len ac)
  else Ok (ac, 0).

(** Body of the loop of lines 226-250. *)
Definition refine_group (sch : schedule) (top_indices : list Z)
  (g : param_group) (s : opt_state) : result opt_state :=
  if eligible g then
    start ← getitem (global_start_idx s) (group_id g);
    let global_active_redundant_idx :=
      Np.intersect1d top_indices
        (Np.arange start (start + num_groups g)) in
    let ac0 := (λ i, i - start) <$> global_active_redundant_idx in
    imp ← getitem (important_idxes s) (group_id g);
    '(ac, pruned_map, delta) ←
      (if num_groups g <? group_divisible sch
       then Ok ([], <[group_id g := []]> (pruned_idxes s), 0)
       else
         pr ← getitem (pruned_idxes s) (group_id g);
         '(ac, delta) ← refine_selection (group_divisible sch)
                          (num_groups g) (Py.len imp) (Py.len pr) ac0;
         Ok (ac, pruned_idxes s, delta));
    pr ← getitem pruned_map (group_id g);
    let imp' := filter (λ i, (i ∉ ac) ∧ (i ∉ pr)) imp in
    let mask := (λ i, bool_decide (i ∈ ac)) <$> Py.range (num_groups g) in
    Ok (set_active_redundant_bool
          (<[group_id g := mask]> (active_redundant_bool s))
          (set_important_idxes
             (<[group_id g := imp']> (important_idxes s))
             (set_active_redundant_idxes
                (<[group_id g := ac]> (active_redundant_idxes s))
                (set_pruned_idxes pruned_map
                   (set_target_num_redundant_groups
                      (target_num_redundant_groups s + delta) s)))))
  else Ok s.

(** Body of the loop of lines 213-250. *)
Definition identify_cluster (sch : schedule)
  (c : string * list param_group) (s : opt_state) : result opt_state :=
  scores ← getitem (cluster_importance_scores s) c.1;
  if decide (length scores = 0%nat) then Ok s else
  quotas ← getitem (active_num_redundant_groups_by_clusters sch) c.1;
  active_num_redundant_groups ← getitem_Z quotas (curr_pruning_period s);
  pruned ← getitem (pruned_group_idx_by_cluster s) c.1;
  top_indices ← select_top_indices (concat scores) pruned
                  active_num_redundant_groups;
  for_each c.2 (refine_group sch top_indices)
    (set_pruned_group_idx_by_cluster
       (<[c.1 := pruned ++ top_indices]> (pruned_group_idx_by_cluster s))
       s).

Definition identify_redundant_groups (sch : schedule) (s : opt_state)
  : result opt_state :=
  for_each (prunable_param_group_clusters sch) (identify_cluster sch) s.

Definition reach_target_group_sparsity (s : opt_state) : bool :=
  negb (curr_num_zero_groups s <? target_num_redundant_groups s).

(** Lines 301-307 of [step]. *)
Definition select_round (sch : schedule) (T : tensors) (s : opt_state)
  : result opt_state :=
  if (start_pruning_step sch <=? num_steps s)
     && negb (reach_target_group_sparsity s)
     && (curr_pruning_period s <? pruning_periods sch)
  then
    r ← Py.mod_ (num_steps s - start_pruning_step sch - 1)
                (pruning_period_duration sch);
    if r =? 0 then
      s ← commit_redundant_idxes sch s;
      s ← identify_redundant_groups sch
            (compute_importance_scores sch T s);
      Ok (set_curr_pruning_period (curr_pruning_period s + 1) s)
    else Ok s
  else Ok s.

(** Lines 394-395 of [step]. *)
Definition end_of_period_commit (sch : schedule) (t : Z) (s : opt_state)
  : result opt_state :=
  if (start_pruning_step sch <=? num_steps s)
     && (t =? pruning_period_duration sch - 1)
  then commit_redundant_idxes sch s
  else Ok s.

(** ** Gradient variants *)

Definition get_first_momentum_grad (name : nat * nat)
  (first_moment dampening : Q) (gr : tensor) (T : tensors)
  : tensor * tensors :=
  if Qltb 0 first_moment then
    match first_moment_grads T !! name with
    | None =>
        (gr, set_first_moment_grads
               (<[name := gr]> (first_moment_grads T)) T)
    | Some buf =>
        let buf := add_ (tmap (λ u, u * first_moment)%Q buf) gr
                        (1 - dampening)%Q in
        (buf, set_first_moment_grads
                (<[name := buf]> (first_moment_grads T)) T)
    end
  else (gr, T).

Definition get_second_momentum_grad_square (name : nat * nat)
  (second_moment dampening : Q) (gr : tensor) (T : tensors)
  : tensor * tensors :=
  let sq := tzip Qmult gr gr in
  if Qltb 0 second_moment then
    match second_moment_grads T !! name with
    | None =>
        (sq, set_second_moment_grads
               (<[name := sq]> (second_moment_grads T)) T)
    | Some buf =>
        let buf := add_ (tmap (λ u, u * second_moment)%Q buf) sq
                        (1 - dampening)%Q in
        (buf, set_second_moment_grads
                (<[name := buf]> (second_moment_grads T)) T)
    end
  else (sq, T).

Definition is_adam (g : param_group) : bool :=
  String.eqb (variant g) "adam" || String.eqb (variant g) "adamw".

(** [1.0 - momentum ** num_steps] *)
Definition bias_correction (momentum : Q) (n : Z) : Q :=
  (1 - momentum ^ n)%Q.

(** Body of the inner loop of [compute_grad_variant] (lines 258-278)
    for tensor [j] of group [i]. *)
Definition grad_variant_param (n : Z) (i : nat) (g : param_group)
  (jp : nat * string) (acc : gmap string tensor * tensors)
  : gmap string tensor * tensors :=
  let '(j, p_name) := jp in
  let '(gv, T) := acc in
  match grad T !! p_name with
  | None => acc
  | Some gr =>
      let refined_grad_f :=
        match weight_decay g with
        | Some wd =>
            if negb (String.eqb (variant g) "adamw")
            then add_ gr (param_data T p_name) wd
            else gr
        | None => gr
        end in
      if negb (is_adam g) then
        let '(refined_grad_f, T) :=
          if Qltb 0 (first_momentum g) || Qltb 0 (dampening g)
          then get_first_momentum_grad (i, j) (first_momentum g)
                 (dampening g) refined_grad_f T
          else (refined_grad_f, T) in
        (<[p_name := refined_grad_f]> gv, T)
      else
        let '(first_moment_grad, T) :=
          get_first_momentum_grad (i, j) (first_momentum g)
            (first_momentum g) refined_grad_f T in
        let '(second_moment_grad_sq, T) :=
          get_second_momentum_grad_square (i, j) (second_momentum g)
            (second_momentum g) refined_grad_f T in
        let exp_avg_first_moment_grad :=
          tmap (λ u, u / bias_correction (first_momentum g) n)%Q
               first_moment_grad in
        let exp_avg_second_moment_grad_sq :=
          tmap (λ u, u / bias_correction (second_momentum g) n)%Q
               second_moment_grad_sq in
        let denom :=
          tmap (λ u, Qsqrt u + safe_guard)%Q
               exp_avg_second_moment_grad_sq in
        (<[p_name := tzip Qdiv exp_avg_first_moment_grad denom]> gv, T)
  end.

Definition enumerate {A} (l : list A) : list (nat * A) :=
  zip (seq 0 (length l)) l.

(** [compute_grad_variant], reading the step counter [n]. *)
Definition compute_grad_variant (sch : schedule) (n : Z) (T : tensors)
  : tensors :=
  foldl (λ T ig,
           let '(gv, T) :=
             foldl (λ acc jp, grad_variant_param n ig.1 ig.2 jp acc)
                   (∅, T) (enumerate (p_names ig.2)) in
           set_grad_variant (<[ig.1 := gv]> (grad_variant T)) T)
        T (enumerate (param_groups sch)).

(** ** Update and masking pass *)

(** The decay ramp factor
    [(pruning_period_duration - t - 1.0) / (pruning_period_duration - t)];
    a zero denominator raises. *)
Definition ramp_value (duration t : Z) : Q :=
  ((inject_Z (duration - t) - 1) / inject_Z (duration - t))%Q.

Definition ramp_factor (duration t : Z) : result Q :=
  if duration - t =? 0 then Raise ZeroDivisionError
  else Ok (ramp_value duration t).

(** Decoupled weight decay of lines 316-317, 324-325 and 345-346. *)
Definition decay_adamw (g : param_group) (p : tensor) : tensor :=
  match weight_decay g with
  | Some wd =>
      if String.eqb (variant g) "adamw"
      then add_ p (tmap (λ u, wd * u)%Q p) (- lr g)%Q
      else p
  | None => p
  end.

(** Lines 313-318: the tensors of a group without active-redundant
    groups; a tensor without gradient variant is skipped. *)
Definition update_plain (g : param_group) (gv : gmap string tensor)
  (T : tensors) : tensors :=
  foldl (λ T p_name,
           match gv !! p_name with
           | None => T
           | Some x =>
               store p_name
                 (add_ (decay_adamw g (param_data T p_name)) x (- lr g)%Q)
                 T
           end)
        T (p_names g).

(** Lines 324-326 and 345-347: decay and gradient step of one tensor;
    the gradient variant is subscripted without a membership test. *)
Definition update_unguarded (g : param_group) (gv : gmap string tensor)
  (p_name : string) (T : tensors) : result tensors :=
  let p := decay_adamw g (param_data T p_name) in
  x ← getitem gv p_name;
  Ok (store p_name (add_ p x (- lr g)%Q) T).

Definition scale_param (rows_or_cols : bool) (mask : list bool)
  (f : result Q) (name : string) (T : tensors) : result tensors :=
  x ← (if rows_or_cols
       then scale_rows mask f (param_data T name)
       else scale_cols mask f (param_data T name));
  Ok (store name x T).

(** Lines 331-339: the group mask brought to the layout of the tensor. *)
Definition reverse_mask (g : param_group) (mask : list bool)
  (p_transform : TensorTransform) : list bool :=
  match p_transform with
  | MULTIHEAD_HEADDIM =>
      tensor_transformation mask REVERSE_MULTIHEAD_HEADDIM
        (num_groups g) (num_heads g)
  | MULTIHEAD_NUMHEAD =>
      tensor_transformation mask REVERSE_MULTIHEAD_NUMHEAD
        (num_groups g) (head_dim g)
  | _ => mask
  end.

(** Lines 323-343: an adapter "up" factor and the base weight and bias
    it modifies. *)
Definition update_lora_B (sch : schedule) (t : Z) (g : param_group)
  (gv : gmap string tensor) (mask : list bool)
  (p_name : string) (p_transform : TensorTransform) (T : tensors)
  : result tensors :=
  T ← update_unguarded g gv p_name T;
  let original_weight_name :=
    (Py.split_head "lora_B" p_name ++ "weight")%string in
  let original_bias_name :=
    (Py.split_head "lora_B" p_name ++ "bias")%string in
  _ ← getitem (data T) original_weight_name;
  let active_redundant_bool := reverse_mask g mask p_transform in
  let f := ramp_factor (pruning_period_duration sch) t in
  T ← scale_param true active_redundant_bool f p_name T;
  T ← scale_param true active_redundant_bool f original_weight_name T;
  match data T !! original_bias_name with
  | Some _ => scale_param true active_redundant_bool f original_bias_name T
  | None => Ok T
  end.

(** Lines 345-353: an embedding adapter factor; the ramp runs over all
    tensors of the group by their transform kind. *)
Definition update_lora_embedding_B (sch : schedule) (t : Z)
  (g : param_group) (gv : gmap string tensor) (mask : list bool)
  (p_name : string) (T : tensors) : result tensors :=
  T ← update_unguarded g gv p_name T;
  for_each (zip (p_names g) (p_transform g))
    (λ d T,
       match d.2 with
       | BASIC =>
           scale_param true mask
             (ramp_factor (pruning_period_duration sch) t) d.1 T
       | TRANSPOSE =>
           scale_param false mask
             (ramp_factor (pruning_period_duration sch) t) d.1 T
       | _ => Ok T
       end) T.

(** Lines 320-354: the tensors of a group with active-redundant groups;
    the loop ends at the first embedding factor ([break]). *)
Fixpoint update_active (sch : schedule) (t : Z) (g : param_group)
  (gv : gmap string tensor) (mask : list bool)
  (l : list (string * TensorTransform)) (T : tensors) : result tensors :=
  match l with
  | [] => Ok T
  | (p_name, p_transform) :: l' =>
      T ← (if Py.contains "lora_B" p_name
           then update_lora_B sch t g gv mask p_name p_transform T
           else Ok T);
      if Py.contains "lora_embedding_B" p_name
      then update_lora_embedding_B sch t g gv mask p_name T
      else update_active sch t g gv mask l' T
  end.

Definition zero_param (rows_or_cols : bool) (idxes : list Z)
  (name : string) (T : tensors) : result tensors :=
  x ← (if rows_or_cols
       then zero_rows idxes (param_data T name)
       else zero_cols idxes (param_data T name));
  Ok (store name x T).

Definition zero_bias (idxes : list Z) (name : string) (T : tensors)
  : result tensors :=
  match data T !! name with
  | Some _ => zero_param true idxes name T
  | None => Ok T
  end.

(** Lines 358-386: hard zero of the committed groups of an adapter
    "up" factor and of its base weight and bias. *)
Definition zero_lora_B (g : param_group) (pruned : list Z)
  (p_name : string) (p_transform : TensorTransform) (T : tensors)
  : result tensors :=
  let original_weight_name :=
    (Py.split_head "lora_B" p_name ++ "weight")%string in
  let original_bias_name :=
    (Py.split_head "lora_B" p_name ++ "bias")%string in
  _ ← getitem (data T) original_weight_name;
  let by_rows idxes T :=
    T ← zero_param true idxes p_name T;
    T ← zero_param true idxes original_weight_name T;
    zero_bias idxes original_bias_name T in
  match p_transform with
  | MULTIHEAD_HEADDIM =>
      by_rows (concat ((λ h, (λ i, i + h * head_dim g) <$> pruned)
                         <$> Py.range (num_heads g))) T
  | MULTIHEAD_NUMHEAD =>
      by_rows (concat ((λ i, (λ h, h + i * head_dim g)
                               <$> Py.range (head_dim g))
                         <$> pruned)) T
  | _ =>
      if bool_decide (p_transform = TRANSPOSE)
         && is_matrix (param_data T p_name)
      then
        T ← zero_param false pruned p_name T;
        zero_param true pruned original_weight_name T
      else by_rows pruned T
  end.

(** Lines 388-392. *)
Definition zero_lora_embedding_B (pruned : list Z) (p_name : string)
  (T : tensors) : result tensors :=
  let original_weight_name :=
    (Py.split_head "lora_embedding_B" p_name ++ "weight")%string in
  _ ← getitem (data T) original_weight_name;
  T ← zero_param true pruned p_name T;
  zero_param false pruned original_weight_name T.

(** Lines 356-392 for one group. *)
Definition zero_pruned (g : param_group) (pruned : list Z) (T : tensors)
  : result tensors :=
  for_each (zip (p_names g) (p_transform g))
    (λ d T,
       T ← (if Py.contains "lora_B" d.1
            then zero_lora_B g pruned d.1 d.2 T
            else Ok T);
       if Py.contains "lora_embedding_B" d.1
       then zero_lora_embedding_B pruned d.1 T
       else Ok T) T.

(** Body of the second pass of [step] (lines 311-392) for group [i]. *)
Definition update_group (sch : schedule) (t : Z) (s : opt_state)
  (ig : nat * param_group) (T : tensors) : result tensors :=
  let g := ig.2 in
  let gv := default ∅ (grad_variant T !! ig.1) in
  T ← (if negb (is_prunable g) then Ok (update_plain g gv T) else
       ac ← getitem (active_redundant_idxes s) (group_id g);
       if Py.len ac =? 0 then Ok (update_plain g gv T)
       else if is_prunable g && (0 <? Py.len ac)
            then update_active sch t g gv
                   (default [] (active_redundant_bool s !! group_id g))
                   (zip (p_names g) (p_transform g)) T
            else Ok T);
  pr ← getitem (pruned_idxes s) (group_id g);
  if 0 <? Py.len pr then zero_pruned g pr T else Ok T.

(** [LHSPG.step] *)
Definition step (sch : schedule) (st : opt_state * tensors)
  : result (opt_state * tensors) :=
  let s := set_num_steps (num_steps st.1 + 1) st.1 in
  let T := compute_grad_variant sch (num_steps s) st.2 in
  s ← select_round sch T s;
  t ← Py.mod_ (num_steps s - start_pruning_step sch)
              (pruning_period_duration sch);
  T ← for_each (enumerate (param_groups sch)) (update_group sch t s) T;
  s ← end_of_period_commit sch t s;
  Ok (set_curr_num_zero_groups
        (count_zero_groups (param_groups sch) T) s, T).

(** A training run: before each [step] the caller's backward pass
    leaves new gradients (a tensor without gradient is absent). *)
Fixpoint run (sch : schedule) (grads : list (gmap string tensor))
  (st : opt_state * tensors) : result (opt_state * tensors) :=
  match grads with
  | [] => Ok st
  | gr :: grads' =>
      st' ← step sch (st.1, set_grad gr st.2);
      run sch grads' st'
  end.

End Optimizer.

(** * Specification vocabulary *)

(** The selection of one round as the specification words it: the [K]
    lowest-scoring global indices, without those already pruned, cut to
    the first [quota] in ascending order of score. *)
Definition select_by_score (scores : list Q) (pruned : list Z)
  (quota : Z) : result (list Z) :=
  top_indices ← Torch.topk_neg scores (Py.len pruned + quota);
  Ok (Py.slice_to (filter (λ i, i ∉ pruned) top_indices) quota).



(** The local indices that [refine_group] reads off the cluster-wide
    selection. *)
Definition local_selection (top_indices : list Z) (start n : Z) : list Z :=
  (λ i, i - start) <$>
    Np.intersect1d top_indices (Np.arange start (start + n)).

(** Global start index of each eligible cluster member, as
    [compute_importance_scores] assigns it. *)
Definition starts_group (g : param_group) (acc : Z * gmap string Z)
  : Z * gmap string Z :=
  if eligible g
  then (acc.1 + num_groups g, <[group_id g := acc.1]> acc.2)
  else acc.

Definition starts_cluster (gs : list param_group) (m : gmap string Z)
  : gmap string Z :=
  (foldl (λ acc g, starts_group g acc) (0, m) gs).2.

Definition starts_all (cl : list (string * list param_group))
  (m : gmap string Z) : gmap string Z :=
  foldl (λ m c, starts_cluster c.2 m) m cl.

Definition static_starts (sch : schedule) : gmap string Z :=
  starts_all (prunable_param_group_clusters sch) ∅.

(** Well-formed schedules: unique group ids, a dictionary of clusters,
    every group in at most one cluster, a positive divisor. *)
Record well_formed (sch : schedule) : Prop := {
  wf_ids : NoDup (group_id <$> param_groups sch);
  wf_cluster_names : NoDup (prunable_param_group_clusters sch).*1;
  wf_cluster_nodup :
    ∀ c gs, (c, gs) ∈ prunable_param_group_clusters sch → NoDup gs;
  wf_members :
    ∀ c gs g, (c, gs) ∈ prunable_param_group_clusters sch →
              g ∈ gs → g ∈ param_groups sch;
  wf_one_cluster :
    ∀ c1 gs1 c2 gs2 g,
      (c1, gs1) ∈ prunable_param_group_clusters sch →
      (c2, gs2) ∈ prunable_param_group_clusters sch →
      g ∈ gs1 → g ∈ gs2 → c1 = c2;
  wf_divisible : 1 ≤ group_divisible sch
}.

(** The three index sets of a group form a partition of its range. *)
Definition partitions (n : Z) (imp pr ac : list Z) : Prop :=
  (∀ i, i ∈ imp → i ∉ pr) ∧
  (∀ i, i ∈ imp → i ∉ ac) ∧
  (∀ i, i ∈ pr → i ∉ ac) ∧
  (∀ i, (i ∈ imp ∨ i ∈ pr ∨ i ∈ ac) ↔ 0 ≤ i < n).

(** What holds of a group between two calls; [gone] is the list of its
    pruned indices followed by its active-redundant ones. *)
Definition group_inv (sch : schedule) (pbc : gmap string (list Z))
  (g : param_group) (imp gone : list Z) : Prop :=
  NoDup gone ∧
  (∀ i, i ∈ gone → 0 ≤ i < num_groups g) ∧
  imp = filter (λ i, i ∉ gone) (Py.range (num_groups g)) ∧
  (eligible g = false → gone = []) ∧
  (gone = [] ∨
   ∃ k, 0 < k ∧ num_groups g - Py.len gone = k * group_divisible sch) ∧
  (∀ i, i ∈ gone →
        ∃ c gs l start,
          (c, gs) ∈ prunable_param_group_clusters sch ∧ g ∈ gs ∧
          pbc !! c = Some l ∧
          static_starts sch !! group_id g = Some start ∧
          i + start ∈ l).

Definition sets_at (s : opt_state) (id : string)
  : option (list Z) * option (list Z) * option (list Z) :=
  (important_idxes s !! id, pruned_idxes s !! id,
   active_redundant_idxes s !! id).

Definition state_inv (sch : schedule) (s : opt_state) : Prop :=
  ∀ g, g ∈ param_groups sch →
       ∃ imp pr ac,
         sets_at s (group_id g) = (Some imp, Some pr, Some ac) ∧
         group_inv sch (pruned_group_idx_by_cluster s) g imp (pr ++ ac).

(** All selections are committed: no active-redundant index is left. *)
Definition committed (sch : schedule) (s : opt_state) : Prop :=
  ∀ g, g ∈ param_groups sch →
       active_redundant_idxes s !! group_id g = Some [].

(** The pruned list of every group only grows. *)
Definition pruned_grows (sch : schedule) (s s' : opt_state) : Prop :=
  ∀ g pr, g ∈ param_groups sch →
          pruned_idxes s !! group_id g = Some pr →
          ∃ ext, pruned_idxes s' !! group_id g = Some (pr ++ ext).

(** Constructor arguments within the data model: unique group ids, a
    dictionary of cluster targets, tensor names that match at most one
    cluster name, and a positive divisibility constraint. *)
Record valid_args (a : init_args) : Prop := {
  va_ids : NoDup (r_id <$> arg_params a);
  va_names :
    NoDup (make_target_group_sparsity (arg_target_group_sparsity a)).*1;
  va_one_cluster :
    ∀ r c1 c2,
      r ∈ arg_params a →
      c1 ∈ (make_target_group_sparsity (arg_target_group_sparsity a)).*1 →
      c2 ∈ (make_target_group_sparsity (arg_target_group_sparsity a)).*1 →
      existsb (Py.contains c1) (r_p_names r) = true →
      existsb (Py.contains c2) (r_p_names r) = true →
      c1 = c2;
  va_divisible : 1 ≤ arg_group_divisible a
}.

(** Number of permanently pruned structural groups, over all parameter
    groups. *)
Definition total_pruned (sch : schedule) (s : opt_state) : Z :=
  foldr (λ g acc, Py.len (default [] (pruned_idxes s !! group_id g)) + acc)
        0 (param_groups sch).

(** ** A concrete optimizer

    One adapter group (the "up" factor of a low-rank pair and the base
    weight it modifies) with concrete collaborators, on which the model
    is run. *)
Module Scenario.

Definition adapter (n : Z) : group_record :=
  {| r_id := "g0";
     r_p_names := ["m.lora_B"; "m.weight"]%string;
     r_p_transform := [BASIC; BASIC];
     r_num_groups := n;
     r_is_prunable := true;
     r_is_auxiliary := false;
     r_num_heads := 1;
     r_head_dim := 1 |}.

Definition DEFAULT_OPT_PARAMS : gmap string opt_defaults :=
  {[ "sgd"%string :=
       {| d_first_momentum := 0; d_second_momentum := 0;
          d_dampening := 0; d_weight_decay := Some 0%Q |};
     "adam"%string :=
       {| d_first_momentum := 9 # 10; d_second_momentum := 999 # 1000;
          d_dampening := 0; d_weight_decay := Some 0%Q |} ]}.

Definition args (n : Z) (variant : string) (target : sparsity_arg)
  (steps periods divisible : Z) : init_args :=
  {| arg_params := [adapter n];
     arg_variant := variant;
     arg_lr := 1 # 10;
     arg_first_momentum := None;
     arg_second_momentum := None;
     arg_dampening := None;
     arg_weight_decay := None;
     arg_target_group_sparsity := target;
     arg_start_pruning_step := 0;
     arg_pruning_steps := steps;
     arg_pruning_periods := periods;
     arg_group_divisible := divisible |}.

Definition ones (n : nat) : tensor := Mat (replicate n [1%Q; 1%Q]).

Definition T0 (n : nat) : tensors :=
  {| data := {[ "m.lora_B"%string := ones n;
                "m.weight"%string := ones n ]};
     grad := ∅;
     first_moment_grads := ∅;
     second_moment_grads := ∅;
     grad_variant := ∅ |}.

(** Gradients of a step in which the adapter factor has one. *)
Definition grads (n : nat) : gmap string tensor :=
  {[ "m.lora_B"%string := ones n ]}.

(** A score that falls with the index. *)
Definition score (T : tensors) (g : param_group) : list Q :=
  (λ i, inject_Z (num_groups g - i)) <$> Py.range (num_groups g).

(** A score of four groups that ranks a group high once its slice of
    the base weight is zero. *)
Definition score_after_pruning (T : tensors) (g : param_group) : list Q :=
  match data T !! "m.weight"%string with
  | Some (Mat [_; _; _; [0%Q; 0%Q]]) => [3; 2; 1; 10]%Q
  | _ => [5; 6; 7; 1]%Q
  end.

Definition no_zero_groups (gs : list param_group) (T : tensors) : Z := 0.

Definition plain_mask (mask : list bool) (k : TensorTransform) (a b : Z)
  : list bool := mask.

Definition no_sqrt (x : Q) : Q := x.

Definition init := init DEFAULT_OPT_PARAMS no_zero_groups.
Definition step := step score no_zero_groups plain_mask no_sqrt.
Definition run := run score no_zero_groups plain_mask no_sqrt.

(** Eight groups, half of them to prune over two periods of three
    steps, in the cluster of the tensors named "lora". *)
Definition lora_args (variant : string) (divisible : Z) : init_args :=
  args 8 variant (PerCluster [("lora"%string, 1 # 2)]) 6 2 divisible.

End Scenario.

(** The slices of a tensor at the listed non-negative positions of
    dimension 0 are zero. *)
Definition zero_at (idxes : list Z) (x : tensor) : Prop :=
  match x with
  | Vec v =>
      ∀ i u, i ∈ idxes → 0 ≤ i → v !! Z.to_nat i = Some u → u = 0%Q
  | Mat m =>
      ∀ i row, i ∈ idxes → 0 ≤ i → m !! Z.to_nat i = Some row →
               Forall (λ u, u = 0%Q) row
  end.

(** The boolean mask of a list of indices over [range(n)]. *)
Definition mask_of (n : Z) (ac : list Z) : list bool :=
  (λ i, bool_decide (i ∈ ac)) <$> Py.range n.

(** [active_redundant_bool] marks exactly the active-redundant indices,
    in every group that has any. *)
Definition masks_agree (sch : schedule) (s : opt_state) : Prop :=
  ∀ g ac, g ∈ param_groups sch →
          active_redundant_idxes s !! group_id g = Some ac → ac ≠ [] →
          active_redundant_bool s !! group_id g
          = Some (mask_of (num_groups g) ac).

(** The quota of a cluster in one period, and over the first [k]
    periods. *)
Definition quota_of (sch : schedule) (c : string) (p : Z) : Z :=
  default 0
    (default ∅ (active_num_redundant_groups_by_clusters sch !! c) !! p).

Definition quota_sum (sch : schedule) (c : string) (k : Z) : Z :=
  foldr (λ p acc, quota_of sch c p + acc) 0 (Py.range k).

(** Every cluster has spent at most the quotas of the periods begun so
    far, and lists no index twice. *)
Definition within_quota (sch : schedule) (s : opt_state) : Prop :=
  0 ≤ curr_pruning_period s ∧
  ∀ c gs, (c, gs) ∈ prunable_param_group_clusters sch →
          ∃ l, pruned_group_idx_by_cluster s !! c = Some l ∧ NoDup l ∧
               Py.len l ≤ quota_sum sch c (curr_pruning_period s).

(** ** Group norms

    [compute_norm_groups] and [compute_group_sparsity_param_norm] read
    the vector of group norms of an eligible group (lines 404-418 and
    436-448), one entry per structural group, which is computed from the
    transformed tensors and is taken as given here; it raises when the
    shapes do not fit. *)

(** [v[idxes]] with a list of indices over dimension 0. *)
Definition index_select (v : list Q) (idxes : list Z) : result (list Q) :=
  for_each idxes
    (λ i acc,
       k ← py_index (length v) i;
       match v !! k with
       | Some x => Ok (acc ++ [x])
       | None => Raise IndexError
       end) [].

Definition Qsum (l : list Q) : Q := foldr Qplus 0%Q l.

(** The four attributes that [compute_norm_groups] resets and returns. *)
Record norm_totals := {
  norm_important_groups : Q;
  norm_redundant_groups : Q;
  num_important_groups : Z;
  num_redundant_groups : Z
}.

Section Norms.

Variable group_norm : tensors → param_group → result (list Q).

(** Body of the loop of [compute_norm_groups] (lines 431-453). *)
Definition norm_groups_of (s : opt_state) (T : tensors) (g : param_group)
  (acc : norm_totals) : result norm_totals :=
  if eligible g then
    import_idxes ← getitem (important_idxes s) (group_id g);
    pr ← getitem (pruned_idxes s) (group_id g);
    ac ← getitem (active_redundant_idxes s) (group_id g);
    let redund_idxes := pr ++ ac in
    norm_group ← group_norm T g;
    vi ← index_select norm_group import_idxes;
    vr ← index_select norm_group redund_idxes;
    Ok {| norm_important_groups := norm_important_groups acc + Qsum vi;
          norm_redundant_groups := norm_redundant_groups acc + Qsum vr;
          num_important_groups :=
            num_important_groups acc + Py.len import_idxes;
          num_redundant_groups :=
            num_redundant_groups acc + Py.len redund_idxes |}
  else Ok acc.

(** [LHSPG.compute_norm_groups] *)
Definition compute_norm_groups (sch : schedule) (s : opt_state)
  (T : tensors) : result norm_totals :=
  for_each (param_groups sch) (norm_groups_of s T)
    {| norm_important_groups := 0; norm_redundant_groups := 0;
       num_important_groups := 0; num_redundant_groups := 0 |}.

(** [torch.sum(norm_group == 0).item()] *)
Definition count_zeros (v : list Q) : Z :=
  Py.len (filter (λ x, Qeq_bool x 0 = true) v).

(** [LHSPG.compute_group_sparsity_param_norm] (lines 400-423): the
    group sparsity, the sum of the group norms and the number of zero
    groups. *)
Definition compute_group_sparsity_param_norm (sch : schedule)
  (T : tensors) : result (Q * Q * Z) :=
  '(total_num_zero_groups, norm_x) ←
    for_each (param_groups sch)
      (λ g '(zeros, norm_x),
         if eligible g then
           norm_group ← group_norm T g;
           Ok (zeros + count_zeros norm_group,
               (norm_x + Qsum norm_group)%Q)
         else Ok (zeros, norm_x))
      (0, 0%Q);
  Ok ((inject_Z total_num_zero_groups
       / (inject_Z (total_num_groups sch) + safe_guard))%Q,
      norm_x, total_num_zero_groups).

End Norms.

(** ** A second concrete optimizer

    Three groups: the adapter of [Scenario]; an auxiliary group, whose
    tensor names match the cluster name as well; and a prunable group
    whose tensor names match no cluster name.  Pruning starts at step 3,
    and selections keep an even number of groups. *)
Module Mixed.

Definition auxiliary : group_record :=
  {| r_id := "g1";
     r_p_names := ["n.lora_B"; "n.weight"]%string;
     r_p_transform := [BASIC; BASIC];
     r_num_groups := 4;
     r_is_prunable := true;
     r_is_auxiliary := true;
     r_num_heads := 1;
     r_head_dim := 1 |}.

Definition unmatched : group_record :=
  {| r_id := "g2";
     r_p_names := ["k.weight"]%string;
     r_p_transform := [BASIC];
     r_num_groups := 4;
     r_is_prunable := true;
     r_is_auxiliary := false;
     r_num_heads := 1;
     r_head_dim := 1 |}.

Definition args : init_args :=
  {| arg_params := [Scenario.adapter 8; auxiliary; unmatched];
     arg_variant := "sgd";
     arg_lr := 1 # 10;
     arg_first_momentum := None;
     arg_second_momentum := None;
     arg_dampening := None;
     arg_weight_decay := None;
     arg_target_group_sparsity := PerCluster [("lora"%string, 1 # 2)];
     arg_start_pruning_step := 3;
     arg_pruning_steps := 6;
     arg_pruning_periods := 2;
     arg_group_divisible := 2 |}.

Definition T0 : tensors :=
  {| data := {[ "m.lora_B"%string := Scenario.ones 8;
                "m.weight"%string := Scenario.ones 8;
                "n.lora_B"%string := Scenario.ones 4;
                "n.weight"%string := Scenario.ones 4;
                "k.weight"%string := Scenario.ones 4 ]};
     grad := ∅;
     first_moment_grads := ∅;
     second_moment_grads := ∅;
     grad_variant := ∅ |}.

(** Gradients of a step: the two adapter factors and the unmatched
    weight have one. *)
Definition grads : gmap string tensor :=
  {[ "m.lora_B"%string := Scenario.ones 8;
     "n.lora_B"%string := Scenario.ones 4;
     "k.weight"%string := Scenario.ones 4 ]}.

(** The groups as the constructor stores them. *)
Definition groups : list param_group :=
  merge_defaults "sgd" (1 # 10) 0 0 0 (Some 0%Q)
    <$> [Scenario.adapter 8; auxiliary; unmatched].

(** An adapter pair in one group: the "down" factor, the "up" factor
    and the base weight; every tensor has a gradient variant, and the
    last two of the eight groups are active-redundant. *)
Definition pair : param_group :=
  merge_defaults "sgd" (1 # 10) 0 0 0 (Some 0%Q)
    {| r_id := "g3";
       r_p_names := ["p.lora_A"; "p.lora_B"; "p.weight"]%string;
       r_p_transform := [NO_PRUNE; BASIC; BASIC];
       r_num_groups := 8;
       r_is_prunable := true;
       r_is_auxiliary := false;
       r_num_heads := 1;
       r_head_dim := 1 |}.

Definition pair_T : tensors :=
  {| data := {[ "p.lora_A"%string := Scenario.ones 2;
                "p.lora_B"%string := Scenario.ones 8;
                "p.weight"%string := Scenario.ones 8 ]};
     grad := ∅;
     first_moment_grads := ∅;
     second_moment_grads := ∅;
     grad_variant := ∅ |}.

Definition pair_gv : gmap string tensor :=
  {[ "p.lora_A"%string := Scenario.ones 2;
     "p.lora_B"%string := Scenario.ones 8;
     "p.weight"%string := Scenario.ones 8 ]}.

Definition pair_mask : list bool :=
  [false; false; false; false; false; false; true; true].

End Mixed.

(** A norm vector of ones, one entry per structural group. *)
Definition unit_norms (T : tensors) (g : param_group) : result (list Q) :=
  Ok (replicate (Z.to_nat (num_groups g)) 1%Q).

(** ** The runs of the concrete optimizers

    The schedules and the states that the two concrete optimizers go
    through, evaluated once. *)

(** The value of a call that did not raise. *)
Definition returned {A} (d : A) (r : result A) : A :=
  match r with
  | Ok a => a
  | Raise _ => d
  end.

Definition no_schedule : schedule :=
  {| param_groups := [];
     start_pruning_step := 0;
     pruning_steps := 0;
     pruning_periods := 0;
     pruning_period_duration := 0;
     group_divisible := 0;
     target_group_sparsity := [];
     prunable_param_group_clusters := [];
     total_num_groups := 0;
     total_num_groups_by_clusters := ∅;
     target_num_redundant_groups_by_clusters := ∅;
     active_num_redundant_groups_by_clusters := ∅ |}.

Definition no_state : opt_state :=
  {| num_steps := 0;
     curr_pruning_period := 0;
     target_num_redundant_groups := 0;
     curr_num_zero_groups := 0;
     pruned_group_idx_by_cluster := ∅;
     important_idxes := ∅;
     pruned_idxes := ∅;
     active_redundant_idxes := ∅;
     global_start_idx := ∅;
     cluster_importance_scores := ∅;
     active_redundant_bool := ∅ |}.

Module Runs.

(** The three-group optimizer: as constructed, after one, four and
    eight steps, and after a commit on the state of the fourth step. *)
Definition mixed_started : schedule * opt_state :=
  Eval vm_compute in
    returned (no_schedule, no_state) (Scenario.init Mixed.args Mixed.T0).

Definition mixed_sch : schedule := Eval vm_compute in mixed_started.1.

Definition mixed_s0 : opt_state := Eval vm_compute in mixed_started.2.

Definition mixed_after (k : nat) : opt_state * tensors :=
  returned (no_state, Mixed.T0)
    (Scenario.run mixed_sch (replicate k Mixed.grads) (mixed_s0, Mixed.T0)).

Definition mixed_1 : opt_state * tensors :=
  Eval vm_compute in mixed_after 1.

Definition mixed_4 : opt_state * tensors :=
  Eval vm_compute in mixed_after 4.

Definition mixed_8 : opt_state * tensors :=
  Eval vm_compute in mixed_after 8.

Definition mixed_4_committed : opt_state :=
  Eval vm_compute in
    returned no_state (commit_redundant_idxes mixed_sch mixed_4.1).

(** The update of the adapter pair in the second step of a period. *)
Definition pair_updated : tensors :=
  Eval vm_compute in
    returned Mixed.pair_T
      (update_active Scenario.plain_mask mixed_sch 1 Mixed.pair
         Mixed.pair_gv Mixed.pair_mask
         (zip (p_names Mixed.pair) (p_transform Mixed.pair)) Mixed.pair_T).

(** The one-group optimizer: as constructed and after one and two
    steps. *)
Definition lora_started : schedule * opt_state :=
  Eval vm_compute in
    returned (no_schedule, no_state)
      (Scenario.init (Scenario.lora_args "sgd" 2) (Scenario.T0 8)).

Definition lora_sch : schedule := Eval vm_compute in lora_started.1.

Definition lora_s0 : opt_state := Eval vm_compute in lora_started.2.

Definition lora_after (k : nat) : opt_state * tensors :=
  returned (no_state, Scenario.T0 8)
    (Scenario.run lora_sch (replicate k (Scenario.grads 8))
       (lora_s0, Scenario.T0 8)).

Definition lora_1 : opt_state * tensors := Eval vm_compute in lora_after 1.

Definition lora_2 : opt_state * tensors := Eval vm_compute in lora_after 2.

(** The hard zero of the groups 6 and 7 of the adapter. *)
Definition adapter_zeroed : tensors :=
  Eval vm_compute in
    returned (Scenario.T0 8)
      (zero_pruned
         (merge_defaults "sgd" (1 # 10) 0 0 0 (Some 0%Q)
            (Scenario.adapter 8))
         [6; 7] (Scenario.T0 8)).

End Runs.

(** * Properties *)

(** ** Generic facts about the primitives *)

Lemma bind_Ok {A B} (r : result A) (f : A → result B) (b : B) :
  (r ≫= f) = Ok b → ∃ a, r = Ok a ∧ f a = Ok b.
Proof. destruct r as [a|e]; [eauto | discriminate]. Qed.

Lemma getitem_Ok {A} (d : gmap string A) k v :
  getitem d k = Ok v ↔ d !! k = Some v.
Proof. unfold getitem. destruct (d !! k); split; congruence. Qed.

Lemma for_each_app {A S} (l1 l2 : list A) (body : A → S → result S) s :
  for_each (l1 ++ l2) body s = (for_each l1 body s ≫= for_each l2 body).
Proof.
  revert s. induction l1 as [|x l1 IH]; intros s; simpl; [done|].
  destruct (body x s) as [s1|e]; simpl; [apply IH | done].
Qed.

(** Loop invariant rule: [P] is indexed by the elements already
    visited. *)
Lemma for_each_ind {A S} (P : list A → S → Prop) (body : A → S → result S)
  (l : list A) s s' :
  P [] s →
  (∀ pre x post s1 s2,
      l = pre ++ x :: post → P pre s1 → body x s1 = Ok s2 →
      P (pre ++ [x]) s2) →
  for_each l body s = Ok s' → P l s'.
Proof.
  intros H0 Hstep.
  cut (∀ post pre s1, l = pre ++ post → P pre s1 →
                      for_each post body s1 = Ok s' → P l s').
  { intros Hc. apply (Hc l [] s); done. }
  induction post as [|x post IH]; intros pre s1 Hl HP Hrun; simpl in Hrun.
  - rewrite app_nil_r in Hl. congruence.
  - apply bind_Ok in Hrun as (s2 & Hb & Hrun).
    apply (IH (pre ++ [x]) s2); [by rewrite <- app_assoc | | done].
    eapply Hstep; eauto.
Qed.

Lemma for_each_inv {A S} (P : S → Prop) (body : A → S → result S)
  (l : list A) s s' :
  P s →
  (∀ x s1 s2, x ∈ l → P s1 → body x s1 = Ok s2 → P s2) →
  for_each l body s = Ok s' → P s'.
Proof.
  intros H0 Hstep Hrun.
  apply (for_each_ind (λ _, P) body l s s'); [done | | done].
  intros pre x post s1 s2 -> HP Hb. eapply Hstep; [| done | done].
  set_solver.
Qed.

(** ** Constructor: the period count (C10) *)

Section ConstructorFacts.

Context (DEFAULT_OPT_PARAMS : gmap string opt_defaults)
        (count_zero_groups : list param_group → tensors → Z).

Local Abbreviation init := (init DEFAULT_OPT_PARAMS count_zero_groups).

Lemma init_Ok a T sch s :
  init a T = Ok (sch, s) →
  pruning_periods sch = Z.max 1 (arg_pruning_periods a) ∧
  pruning_period_duration sch =
    arg_pruning_steps a / Z.max 1 (arg_pruning_periods a) ∧
  group_divisible sch = arg_group_divisible a ∧
  start_pruning_step sch = arg_start_pruning_step a ∧
  num_steps s = 0.
Proof.
  unfold init. intros H.
  destruct (Qltb _ _); [discriminate|].
  unfold Py.floordiv in H.
  destruct (Z.eqb_spec (Z.max 1 (arg_pruning_periods a)) 0) as [|_]; [lia|].
  simpl in H.
  repeat (apply bind_Ok in H as (? & _ & H)).
  by inversion H.
Qed.

(** The stored period count of any constructed optimizer is at least
    one. *)
Lemma init_periods_positive a T sch s :
  init a T = Ok (sch, s) → 1 ≤ pruning_periods sch.
Proof. intros H. apply init_Ok in H as (-> & _). lia. Qed.


End ConstructorFacts.

(** ** The decay ramp (C8) *)





Lemma param_data_store name x T n :
  param_data (store name x T) n = if decide (n = name) then x
                                  else param_data T n.
Proof.
  unfold param_data, store. simpl. case_decide as Hn.
  - subst. by rewrite lookup_insert_eq.
  - by rewrite lookup_insert_ne.
Qed.



Section RampFacts.

Context (tensor_transformation :
           list bool → TensorTransform → Z → Z → list bool).

Local Abbreviation update_lora_B := (update_lora_B tensor_transformation).
Local Abbreviation reverse_mask := (reverse_mask tensor_transformation).



End RampFacts.

(** ** Bias correction of the Adam variants (C9) *)











Section GradVariantFacts.

Context (overall_importance_score : tensors → param_group → list Q)
        (count_zero_groups : list param_group → tensors → Z)
        (tensor_transformation :
           list bool → TensorTransform → Z → Z → list bool)
        (Qsqrt : Q → Q).

Local Abbreviation step :=
  (step overall_importance_score count_zero_groups tensor_transformation
        Qsqrt).
Local Abbreviation update_group := (update_group tensor_transformation).
Local Abbreviation update_active := (update_active tensor_transformation).









End GradVariantFacts.

(** ** Lists of indices *)

Lemma elem_of_insert_unique x y l :
  y ∈ Np.insert_unique x l ↔ y = x ∨ y ∈ l.
Proof.
  induction l as [|z l IH]; simpl.
  - rewrite list_elem_of_singleton, elem_of_nil. tauto.
  - destruct (Z.ltb_spec x z); [by rewrite elem_of_cons|].
    destruct (Z.eqb_spec x z) as [->|].
    + rewrite elem_of_cons. tauto.
    + rewrite !elem_of_cons, IH. tauto.
Qed.

Lemma insert_unique_sorted x l :
  StronglySorted Z.lt l → StronglySorted Z.lt (Np.insert_unique x l).
Proof.
  induction 1 as [|z l Hs IH Hz]; simpl.
  - repeat constructor.
  - destruct (Z.ltb_spec x z).
    + constructor; [by constructor|].
      constructor; [done|]. eapply Forall_impl; [exact Hz|]. simpl. lia.
    + destruct (Z.eqb_spec x z); [by constructor|].
      constructor; [done|].
      apply Forall_forall. intros y Hy.
      apply elem_of_insert_unique in Hy as [->|Hy]; [lia|].
      by eapply Forall_forall in Hz.
Qed.

Lemma unique_sorted l : StronglySorted Z.lt (Np.unique l).
Proof.
  induction l; simpl; [constructor | by apply insert_unique_sorted].
Qed.

Lemma elem_of_unique x l : x ∈ Np.unique l ↔ x ∈ l.
Proof.
  induction l as [|y l IH]; simpl; [done|].
  rewrite elem_of_insert_unique, IH, elem_of_cons. tauto.
Qed.

Lemma sorted_lt_NoDup l : StronglySorted Z.lt l → NoDup l.
Proof.
  induction 1 as [|z l Hs IH Hz]; constructor; [|done].
  intros Hin. eapply Forall_forall in Hz; [|exact Hin]. lia.
Qed.

Lemma NoDup_unique l : NoDup (Np.unique l).
Proof. apply sorted_lt_NoDup, unique_sorted. Qed.

Lemma elem_of_setdiff1d x a b : x ∈ Np.setdiff1d a b ↔ x ∈ a ∧ x ∉ b.
Proof.
  unfold Np.setdiff1d. rewrite elem_of_unique, list_elem_of_filter. tauto.
Qed.

Lemma elem_of_intersect1d x a b : x ∈ Np.intersect1d a b ↔ x ∈ a ∧ x ∈ b.
Proof.
  unfold Np.intersect1d. rewrite elem_of_unique, list_elem_of_filter. tauto.
Qed.

Lemma elem_of_arange x lo hi : x ∈ Np.arange lo hi ↔ lo ≤ x < hi.
Proof. unfold Np.arange. rewrite elem_of_seqZ. lia. Qed.

Lemma slice_to_take {A} (l : list A) k :
  ∃ m : nat, Py.slice_to l k = take m l.
Proof. unfold Py.slice_to. destruct (0 <=? k); eauto. Qed.

Lemma slice_to_nonneg {A} (l : list A) k :
  0 ≤ k → Py.slice_to l k = take (Z.to_nat k) l.
Proof. unfold Py.slice_to. destruct (Z.leb_spec 0 k); [done | lia]. Qed.

Lemma elem_of_slice_to {A} (l : list A) k x : x ∈ Py.slice_to l k → x ∈ l.
Proof.
  destruct (slice_to_take l k) as [m ->]. intros Hx.
  eapply elem_of_sublist; [exact Hx | apply sublist_take].
Qed.

Lemma NoDup_slice_to {A} (l : list A) k : NoDup l → NoDup (Py.slice_to l k).
Proof.
  destruct (slice_to_take l k) as [m ->]. intros Hnd.
  exact (sublist_NoDup _ _ Hnd (sublist_take l m)).
Qed.

Lemma len_nonneg {A} (l : list A) : 0 ≤ Py.len l.
Proof. unfold Py.len. lia. Qed.

Lemma len_nil_iff {A} (l : list A) : Py.len l = 0 ↔ l = [].
Proof. unfold Py.len. destruct l; simpl; split; (done || lia). Qed.

Lemma len_app {A} (l k : list A) : Py.len (l ++ k) = Py.len l + Py.len k.
Proof. unfold Py.len. rewrite length_app. lia. Qed.

Lemma elem_of_range i n : i ∈ Py.range n ↔ 0 ≤ i < n.
Proof. unfold Py.range. rewrite elem_of_seqZ. lia. Qed.

(** The indices of a range outside a duplicate-free list of members. *)
Lemma len_filter_notin n (l : list Z) :
  0 ≤ n → NoDup l → (∀ i, i ∈ l → 0 ≤ i < n) →
  Py.len (filter (λ i, i ∉ l) (Py.range n)) = n - Py.len l.
Proof.
  intros Hn Hnd Hin.
  pose proof (filter_app_complement (λ i, i ∈ l) (Py.range n)) as Hp.
  assert (Hl : filter (λ i, i ∈ l) (Py.range n) ≡ₚ l).
  { apply NoDup_Permutation; [apply NoDup_filter, NoDup_seqZ | done |].
    intros x. rewrite list_elem_of_filter, elem_of_range.
    split; [tauto | auto]. }
  apply Permutation_length in Hp. apply Permutation_length in Hl.
  rewrite length_app, Hl in Hp.
  assert (Hr : length (Py.range n) = Z.to_nat n) by apply length_seqZ.
  rewrite Hr in Hp. unfold Py.len. lia.
Qed.

Lemma len_le_of_subset (l k : list Z) :
  NoDup l → (∀ x, x ∈ l → x ∈ k) → Py.len l ≤ Py.len k.
Proof.
  intros Hnd Hsub. unfold Py.len.
  pose proof (submseteq_length _ _ (NoDup_submseteq _ _ Hnd Hsub)). lia.
Qed.

(** ** Divisibility refinement *)

(** The refinement keeps a prefix of the trial selection; either it
    keeps nothing of a group that has no pruned index yet, or the
    survivors are a positive multiple of the divisor. *)
Lemma refine_selection_spec divisible n len_imp len_pr
  (ac0 ac : list Z) delta :
  1 ≤ divisible → divisible ≤ n →
  len_imp = n - len_pr → 0 ≤ len_pr →
  Py.len ac0 ≤ len_imp →
  (len_pr = 0 ∨ ∃ k, 0 < k ∧ len_imp = k * divisible) →
  refine_selection divisible n len_imp len_pr ac0 = Ok (ac, delta) →
  ∃ m : nat,
    ac = take m ac0 ∧ (m ≤ length ac0)%nat ∧
    ((len_pr = 0 ∧ m = 0%nat) ∨
     ∃ k, 0 < k ∧ len_imp - Z.of_nat m = k * divisible).
Proof.
  intros Hd Hn Himp Hpr Hlen Hmult.
  unfold refine_selection, Py.mod_, Py.floordiv.
  destruct (Z.eqb_spec divisible 0) as [|_]; [lia|]. simpl.
  set (trial := len_imp - Py.len ac0).
  assert (Htrial : 0 ≤ trial) by (unfold trial; lia).
  pose proof (Z.div_mod trial divisible ltac:(lia)) as Hdm.
  pose proof (Z.mod_pos_bound trial divisible ltac:(lia)) as Hmb.
  pose proof (Z.div_pos trial divisible Htrial ltac:(lia)) as Hq.
  unfold Py.len in *.
  destruct (Z.eqb_spec (trial mod divisible) 0) as [Hr|Hr]; simpl.
  - destruct (Z.leb_spec trial 0) as [Ht|Ht]; simpl.
    + (* trial = 0 *)
      assert (trial = 0) as Ht0 by lia.
      destruct (Z.leb_spec (trial / divisible + 1) 1) as [Hratio|Hratio];
        simpl.
      2:{ rewrite Ht0, Z.div_0_l in Hratio by lia. lia. }
      intros H. inversion H; subst ac delta; clear H.
      replace (Z.max divisible 1) with divisible by lia.
      replace (Z.min n divisible) with divisible by lia.
      assert (0 ≤ n - len_pr - divisible).
      { destruct Hmult as [->|(k & Hk & Hkk)]; [lia | nia]. }
      rewrite slice_to_nonneg by done.
      exists (Z.to_nat (n - len_pr - divisible)).
      split; [done|]. split; [lia|].
      right. exists 1. lia.
    + intros H. inversion H; subst ac delta; clear H.
      exists (length ac0). split; [by rewrite firstn_all|].
      split; [done|]. right. exists (trial / divisible).
      split; [nia | unfold trial in *; lia].
  - (* the trial count is not a multiple of the divisor *)
    destruct (Z.leb_spec (trial / divisible + 1) 1) as [Hratio|Hratio];
      simpl.
    + intros H. inversion H; subst ac delta; clear H.
      replace (Z.max divisible 1) with divisible by lia.
      replace (Z.min n divisible) with divisible by lia.
      assert (trial / divisible = 0) as Hq0 by lia.
      assert (trial < divisible) by nia.
      assert (0 ≤ n - len_pr - divisible).
      { destruct Hmult as [->|(k & Hk & Hkk)]; [lia | nia]. }
      rewrite slice_to_nonneg by done.
      exists (Z.to_nat (n - len_pr - divisible)).
      split; [done|]. split; [unfold trial in *; lia|].
      right. exists 1. lia.
    + destruct (Z.eqb_spec trial 0) as [Ht0|Ht0]; simpl.
      { rewrite Ht0, Z.mod_0_l in Hr by lia. done. }
      intros H. inversion H; subst ac delta; clear H.
      set (ratio := trial / divisible + 1) in *.
      assert (Hrd : trial < ratio * divisible) by (unfold ratio; nia).
      replace (Z.max (ratio * divisible) divisible)
        with (ratio * divisible) by nia.
      destruct (Z.le_gt_cases (ratio * divisible) n) as [Hle|Hgt].
      * replace (Z.min n (ratio * divisible))
          with (ratio * divisible) by lia.
        assert (0 ≤ n - len_pr - ratio * divisible).
        { destruct Hmult as [->|(k & Hk & Hkk)]; [lia|].
          assert (trial ≠ k * divisible).
          { intros E. rewrite E, Z.mod_mul in Hr by lia. done. }
          assert (trial < k * divisible) by (unfold trial in *; lia).
          assert (trial / divisible < k).
          { apply Z.div_lt_upper_bound; nia. }
          unfold ratio. nia. }
        rewrite slice_to_nonneg by done.
        exists (Z.to_nat (n - len_pr - ratio * divisible)).
        split; [done|]. split; [unfold trial in *; lia|].
        right. exists ratio. split; [unfold ratio; lia | lia].
      * replace (Z.min n (ratio * divisible)) with n by lia.
        destruct Hmult as [->|(k & Hk & Hkk)].
        -- replace (n - 0 - n) with 0 by lia.
           exists 0%nat. split; [done|]. split; [lia|]. by left.
        -- exfalso.
           assert (trial ≠ k * divisible).
          { intros E. rewrite E, Z.mod_mul in Hr by lia. done. }
          assert (trial < k * divisible) by (unfold trial in *; lia).
           assert (trial / divisible < k).
           { apply Z.div_lt_upper_bound; nia. }
           unfold ratio in *. nia.
Qed.

(** ** The index-set invariant *)

Lemma ids_inj sch g1 g2 :
  NoDup (group_id <$> param_groups sch) →
  g1 ∈ param_groups sch → g2 ∈ param_groups sch →
  group_id g1 = group_id g2 → g1 = g2.
Proof.
  intros Hnd H1 H2 Hid.
  apply list_elem_of_lookup in H1 as [i1 H1].
  apply list_elem_of_lookup in H2 as [i2 H2].
  assert (i1 = i2).
  { eapply NoDup_lookup; [exact Hnd | |];
      rewrite list_lookup_fmap; [by rewrite H1 | by rewrite H2, Hid]. }
  congruence.
Qed.

Lemma group_inv_partitions sch pbc g imp pr ac :
  group_inv sch pbc g imp (pr ++ ac) →
  partitions (num_groups g) imp pr ac.
Proof.
  intros (Hnd & Hrange & -> & _).
  apply NoDup_app in Hnd as (_ & Hdisj & _).
  split; [|split; [|split]].
  - intros i Hi Hp. apply list_elem_of_filter in Hi as [Hi _].
    apply Hi, elem_of_app. by left.
  - intros i Hi Hp. apply list_elem_of_filter in Hi as [Hi _].
    apply Hi, elem_of_app. by right.
  - exact Hdisj.
  - intros i. split.
    + intros [Hi|[Hi|Hi]].
      * apply list_elem_of_filter in Hi as [_ Hi]. by apply elem_of_range.
      * apply Hrange, elem_of_app. by left.
      * apply Hrange, elem_of_app. by right.
    + intros Hi.
      destruct (decide (i ∈ pr ++ ac)) as [Hin|Hout].
      * apply elem_of_app in Hin. tauto.
      * left. apply list_elem_of_filter. split; [done|].
        by apply elem_of_range.
Qed.

(** Extending a cluster's list of pruned global indices keeps the
    invariant of every group. *)
Lemma group_inv_extend sch pbc c l l' g imp gone :
  pbc !! c = Some l →
  group_inv sch pbc g imp gone →
  group_inv sch (<[c := l ++ l']> pbc) g imp gone.
Proof.
  intros Hc (H1 & H2 & H3 & H4 & H5 & H6).
  repeat (split; [done|]).
  intros i Hi. destruct (H6 i Hi) as (c0 & gs & l0 & start & ? & ? & Hl & ? & ?).
  destruct (decide (c0 = c)) as [->|Hne].
  - exists c, gs, (l ++ l'), start. rewrite lookup_insert_eq.
    repeat (split; [done|]).
    rewrite Hc in Hl. inversion Hl; subst. apply elem_of_app. by left.
  - exists c0, gs, l0, start. rewrite lookup_insert_ne by done. done.
Qed.

Lemma pruned_grows_refl sch s : pruned_grows sch s s.
Proof. intros g pr _ H. exists []. by rewrite app_nil_r. Qed.

Lemma pruned_grows_trans sch s1 s2 s3 :
  pruned_grows sch s1 s2 → pruned_grows sch s2 s3 → pruned_grows sch s1 s3.
Proof.
  intros H12 H23 g pr Hg Hpr.
  destruct (H12 g pr Hg Hpr) as [e1 H1].
  destruct (H23 g _ Hg H1) as [e2 H2].
  exists (e1 ++ e2). by rewrite app_assoc.
Qed.

Lemma sets_at_inv s id imp pr ac :
  sets_at s id = (Some imp, Some pr, Some ac) ↔
  important_idxes s !! id = Some imp ∧
  pruned_idxes s !! id = Some pr ∧
  active_redundant_idxes s !! id = Some ac.
Proof.
  unfold sets_at. split.
  - intros H. by inversion H.
  - by intros (-> & -> & ->).
Qed.

(** *** Commit *)

Lemma commit_group_spec sch g s s' :
  NoDup (group_id <$> param_groups sch) →
  g ∈ param_groups sch →
  state_inv sch s →
  commit_group g s = Ok s' →
  state_inv sch s' ∧
  pruned_grows sch s s' ∧
  pruned_group_idx_by_cluster s' = pruned_group_idx_by_cluster s ∧
  active_redundant_idxes s' !! group_id g = Some [] ∧
  (∀ id, id ≠ group_id g →
         active_redundant_idxes s' !! id = active_redundant_idxes s !! id).
Proof.
  intros Hids Hg Hinv. unfold commit_group.
  destruct (Hinv g Hg) as (imp & pr & ac & Hsets & Hgi).
  apply sets_at_inv in Hsets as (Himp & Hpr & Hac).
  destruct (eligible g) eqn:Hel.
  - unfold getitem. rewrite Hpr, Hac. simpl. intros H.
    inversion H; subst s'; clear H. simpl.
    split; [|split; [|split; [done|split]]].
    + intros g' Hg'.
      destruct (decide (group_id g' = group_id g)) as [Hid|Hid].
      * assert (g' = g) as -> by (by eapply ids_inj).
        eexists _, _, _. split.
        { apply sets_at_inv. simpl. rewrite !lookup_insert_eq. done. }
        rewrite app_nil_r.
        destruct Hgi as (H1 & H2 & H3 & H4).
        repeat (split; [done|]). done.
      * destruct (Hinv g' Hg') as (imp' & pr' & ac' & Hsets' & Hgi').
        apply sets_at_inv in Hsets' as (? & ? & ?).
        exists imp', pr', ac'. split; [|done].
        apply sets_at_inv. simpl. by rewrite !lookup_insert_ne.
    + intros g' pr' Hg' Hpr'. simpl.
      destruct (decide (group_id g' = group_id g)) as [Hid|Hid].
      * rewrite Hid in *. rewrite lookup_insert_eq.
        rewrite Hpr in Hpr'. inversion Hpr'; subst. by exists ac.
      * rewrite lookup_insert_ne by done. exists []. by rewrite app_nil_r.
    + by rewrite lookup_insert_eq.
    + intros id Hid. by rewrite lookup_insert_ne.
  - intros H. inversion H; subst s'; clear H.
    split; [done|]. split; [apply pruned_grows_refl|].
    split; [done|]. split; [|done].
    destruct Hgi as (_ & _ & _ & Hne & _).
    specialize (Hne Hel). apply app_eq_nil in Hne as [_ ->]. done.
Qed.

Lemma commit_redundant_idxes_spec sch s s' :
  NoDup (group_id <$> param_groups sch) →
  state_inv sch s →
  commit_redundant_idxes sch s = Ok s' →
  state_inv sch s' ∧ committed sch s' ∧ pruned_grows sch s s' ∧
  pruned_group_idx_by_cluster s' = pruned_group_idx_by_cluster s.
Proof.
  intros Hids Hinv Hrun. unfold commit_redundant_idxes in Hrun.
  pose (P := λ (pre : list param_group) s1,
          state_inv sch s1 ∧ pruned_grows sch s s1 ∧
          pruned_group_idx_by_cluster s1 = pruned_group_idx_by_cluster s ∧
          ∀ g, g ∈ pre →
               active_redundant_idxes s1 !! group_id g = Some []).
  assert (HP : P (param_groups sch) s').
  { eapply (for_each_ind P); [| |exact Hrun].
    - split; [done|]. split; [apply pruned_grows_refl|]. split; [done|].
      intros g Hg. by apply elem_of_nil in Hg.
    - intros pre x post s1 s2 Hl (Hi & Hgrow & Hpbc & Hdone) Hb.
      assert (Hx : x ∈ param_groups sch).
      { rewrite Hl. apply elem_of_app. right. by left. }
      destruct (commit_group_spec sch x s1 s2 Hids Hx Hi Hb)
        as (Hi2 & Hg2 & Hp2 & Ha2 & Hf2).
      split; [done|]. split; [by eapply pruned_grows_trans|].
      split; [congruence|].
      intros g Hg. apply elem_of_app in Hg as [Hg|Hg].
      + destruct (decide (group_id g = group_id x)) as [Hid|Hid].
        * by rewrite Hid.
        * rewrite Hf2 by done. by apply Hdone.
      + apply list_elem_of_singleton in Hg as ->. done. }
  destruct HP as (H1 & H2 & H3 & H4). done.
Qed.

(** *** Global start indices *)

Lemma starts_fold_union gs st (m : gmap string Z) :
  (foldl (λ acc g, starts_group g acc) (st, m) gs).2
  = (foldl (λ acc g, starts_group g acc) (st, ∅) gs).2 ∪ m.
Proof.
  revert st m. induction gs as [|g gs IH]; intros st m; simpl.
  - by rewrite (left_id_L ∅ (∪)).
  - unfold starts_group at 2 4. destruct (eligible g); simpl; [|apply IH].
    rewrite (IH _ (<[group_id g := st]> m)).
    rewrite (IH _ (<[group_id g := st]> ∅)).
    rewrite <- (assoc_L (∪)). f_equal.
    by rewrite <- insert_union_l, (left_id_L ∅ (∪)).
Qed.

Lemma starts_cluster_union gs (m : gmap string Z) :
  starts_cluster gs m = starts_cluster gs ∅ ∪ m.
Proof. apply starts_fold_union. Qed.

Lemma starts_all_union cl (m : gmap string Z) :
  starts_all cl m = starts_all cl ∅ ∪ m.
Proof.
  revert m. induction cl as [|c cl IH]; intros m; simpl.
  - by rewrite (left_id_L ∅ (∪)).
  - unfold starts_all in *. simpl.
    rewrite (IH (starts_cluster c.2 m)), (IH (starts_cluster c.2 ∅)).
    rewrite (starts_cluster_union c.2 m). by rewrite (assoc_L (∪)).
Qed.

Lemma starts_fold_written gs st (m : gmap string Z) g :
  g ∈ gs → eligible g = true →
  is_Some ((foldl (λ acc g, starts_group g acc) (st, m) gs).2
             !! group_id g).
Proof.
  revert st m. induction gs as [|g0 gs IH]; intros st m Hg Hel.
  - by apply elem_of_nil in Hg.
  - simpl. apply elem_of_cons in Hg as [->|Hg].
    2:{ destruct (starts_group g0 (st, m)) as [st' m']. by apply IH. }
    unfold starts_group at 2. rewrite Hel. simpl.
    rewrite starts_fold_union. apply lookup_union_is_Some. right.
    rewrite lookup_insert_eq. eauto.
Qed.

Lemma starts_all_written cl c gs g :
  (c, gs) ∈ cl → g ∈ gs → eligible g = true →
  is_Some (starts_all cl ∅ !! group_id g).
Proof.
  induction cl as [|c0 cl IH]; intros Hc Hg Hel.
  - by apply elem_of_nil in Hc.
  - unfold starts_all in *. simpl. fold (starts_all cl (starts_cluster c0.2 ∅)).
    rewrite starts_all_union. apply lookup_union_is_Some.
    apply elem_of_cons in Hc as [<-|Hc].
    + right. by apply starts_fold_written.
    + left. by apply IH.
Qed.

Section ScoreFacts.

Context (overall_importance_score : tensors → param_group → list Q).

Local Abbreviation score_group := (score_group overall_importance_score).
Local Abbreviation score_cluster :=
  (score_cluster overall_importance_score).
Local Abbreviation compute_importance_scores :=
  (compute_importance_scores overall_importance_score).

Lemma score_group_starts T g st sc (m : gmap string Z) :
  ∃ sc',
    score_group T g (st, sc, m)
    = ((starts_group g (st, m)).1, sc', (starts_group g (st, m)).2).
Proof.
  unfold score_group, starts_group.
  destruct (eligible g); simpl; eauto.
Qed.

Lemma score_fold_starts T gs st sc (m : gmap string Z) :
  ∃ sc',
    foldl (λ acc g, score_group T g acc) (st, sc, m) gs
    = ((foldl (λ acc g, starts_group g acc) (st, m) gs).1, sc',
       (foldl (λ acc g, starts_group g acc) (st, m) gs).2).
Proof.
  revert st sc m. induction gs as [|g gs IH]; intros st sc m; cbn [foldl].
  - by exists sc.
  - destruct (score_group_starts T g st sc m) as [sc' ->].
    destruct (starts_group g (st, m)) as [st' m']. cbn [fst snd].
    apply IH.
Qed.

Lemma score_cluster_spec T c s :
  let s' := score_cluster T c s in
  important_idxes s' = important_idxes s ∧
  pruned_idxes s' = pruned_idxes s ∧
  active_redundant_idxes s' = active_redundant_idxes s ∧
  pruned_group_idx_by_cluster s' = pruned_group_idx_by_cluster s ∧
  num_steps s' = num_steps s ∧
  curr_pruning_period s' = curr_pruning_period s ∧
  curr_num_zero_groups s' = curr_num_zero_groups s ∧
  global_start_idx s' = starts_cluster c.2 (global_start_idx s).
Proof.
  unfold score_cluster, starts_cluster.
  destruct (score_fold_starts T c.2 0 [] (global_start_idx s))
    as [sc' ->]. simpl. done.
Qed.

Lemma score_clusters_spec T cl s0 :
  let s' := foldl (λ s c, score_cluster T c s) s0 cl in
  important_idxes s' = important_idxes s0 ∧
  pruned_idxes s' = pruned_idxes s0 ∧
  active_redundant_idxes s' = active_redundant_idxes s0 ∧
  pruned_group_idx_by_cluster s' = pruned_group_idx_by_cluster s0 ∧
  num_steps s' = num_steps s0 ∧
  curr_pruning_period s' = curr_pruning_period s0 ∧
  curr_num_zero_groups s' = curr_num_zero_groups s0 ∧
  global_start_idx s' = starts_all cl (global_start_idx s0).
Proof.
  revert s0. induction cl as [|c cl IH]; intros s0; simpl; [done|].
  destruct (IH (score_cluster T c s0))
    as (-> & -> & -> & -> & -> & -> & -> & ->).
  destruct (score_cluster_spec T c s0)
    as (-> & -> & -> & -> & -> & -> & -> & ->).
  done.
Qed.

Lemma compute_importance_scores_spec sch T s :
  let s' := compute_importance_scores sch T s in
  important_idxes s' = important_idxes s ∧
  pruned_idxes s' = pruned_idxes s ∧
  active_redundant_idxes s' = active_redundant_idxes s ∧
  pruned_group_idx_by_cluster s' = pruned_group_idx_by_cluster s ∧
  num_steps s' = num_steps s ∧
  curr_pruning_period s' = curr_pruning_period s ∧
  curr_num_zero_groups s' = curr_num_zero_groups s ∧
  global_start_idx s' = static_starts sch ∪ global_start_idx s.
Proof.
  unfold compute_importance_scores,
    static_starts.
  rewrite <- starts_all_union.
  apply (score_clusters_spec T (prunable_param_group_clusters sch)
           (set_cluster_importance_scores ∅ s)).
Qed.

End ScoreFacts.

(** *** Selection within one group *)

Lemma local_selection_NoDup top start n :
  NoDup (local_selection top start n).
Proof.
  unfold local_selection. apply NoDup_fmap_2; [|apply NoDup_unique].
  intros x y. lia.
Qed.

Lemma elem_of_local_selection top start n i :
  i ∈ local_selection top start n ↔ 0 ≤ i < n ∧ i + start ∈ top.
Proof.
  unfold local_selection. rewrite list_elem_of_fmap. split.
  - intros (y & -> & Hy).
    apply elem_of_intersect1d in Hy as [Hy1 Hy2].
    apply elem_of_arange in Hy2.
    replace (y - start + start) with y by lia. split; [lia | done].
  - intros [Hi Htop]. exists (i + start). split; [lia|].
    apply elem_of_intersect1d. split; [done|].
    apply elem_of_arange. lia.
Qed.

Lemma filter_notin_app (l k : list Z) (r : list Z) :
  filter (λ i, (i ∉ k) ∧ (i ∉ l)) (filter (λ i, i ∉ l ++ []) r)
  = filter (λ i, i ∉ l ++ k) r.
Proof.
  rewrite list_filter_filter. apply list_filter_iff.
  intros x. rewrite app_nil_r, elem_of_app. tauto.
Qed.

Lemma refine_group_spec sch c gs l0 top g s s' M0 :
  well_formed sch →
  (c, gs) ∈ prunable_param_group_clusters sch → g ∈ gs →
  M0 !! c = Some l0 →
  pruned_group_idx_by_cluster s = <[c := l0 ++ top]> M0 →
  (∀ x, x ∈ top → x ∉ l0) →
  (∃ imp pr, sets_at s (group_id g) = (Some imp, Some pr, Some []) ∧
             group_inv sch M0 g imp (pr ++ [])) →
  (eligible g = true →
   global_start_idx s !! group_id g = static_starts sch !! group_id g) →
  refine_group sch top g s = Ok s' →
  (∃ imp' pr' ac',
      sets_at s' (group_id g) = (Some imp', Some pr', Some ac') ∧
      group_inv sch (pruned_group_idx_by_cluster s') g imp' (pr' ++ ac')) ∧
  (∀ id, id ≠ group_id g → sets_at s' id = sets_at s id) ∧
  (∀ id, pruned_idxes s' !! id = pruned_idxes s !! id) ∧
  pruned_group_idx_by_cluster s' = pruned_group_idx_by_cluster s ∧
  global_start_idx s' = global_start_idx s ∧
  cluster_importance_scores s' = cluster_importance_scores s ∧
  curr_pruning_period s' = curr_pruning_period s ∧
  num_steps s' = num_steps s ∧
  curr_num_zero_groups s' = curr_num_zero_groups s.
Proof.
  intros Hwf Hc Hg HM0 Hpbc Hfresh (imp & pr & Hsets & Hgi) Hstart.
  apply sets_at_inv in Hsets as (Himp & Hpr & Hac).
  pose proof (group_inv_extend sch M0 c l0 top g imp (pr ++ []) HM0 Hgi)
    as Hgi'.
  rewrite <- Hpbc in Hgi'.
  unfold refine_group. destruct (eligible g) eqn:Hel.
  2:{ intros H. inversion H; subst s'; clear H.
      split; [|done]. exists imp, pr, []. split; [|done].
      by apply sets_at_inv. }
  specialize (Hstart eq_refl).
  intros H. apply bind_Ok in H as (start & Hst & H).
  apply getitem_Ok in Hst. rewrite Hstart in Hst.
  apply bind_Ok in H as (imp0 & Hi0 & H).
  apply getitem_Ok in Hi0. rewrite Himp in Hi0. inversion Hi0; subst imp0.
  clear Hi0. fold (local_selection top start (num_groups g)) in H.
  set (ac0 := local_selection top start (num_groups g)) in *.
  destruct Hgi as (Hnd & Hrange & Himpeq & _ & Hmult & Hlink).
  pose proof (wf_divisible sch Hwf) as Hdiv.
  (* the trial selection avoids what is pruned already *)
  assert (Hnew : ∀ i, i ∈ ac0 → i ∉ pr).
  { intros i Hi Hp. apply elem_of_local_selection in Hi as [_ Hi].
    destruct (Hlink i) as (c' & gs' & l & start' & Hc' & Hg' & Hl & Hs' & Hin).
    { apply elem_of_app. by left. }
    assert (c' = c) as -> by (eapply wf_one_cluster; eauto).
    rewrite HM0 in Hl. inversion Hl; subst l.
    rewrite Hst in Hs'. inversion Hs'; subst start'.
    by apply (Hfresh _ Hi). }
  apply bind_Ok in H as ([[ac pruned_map] delta] & Hbr & H).
  destruct (Z.ltb_spec (num_groups g) (group_divisible sch)) as [Hlt|Hge].
  - (* the group is below its divisibility constraint *)
    inversion Hbr; subst ac pruned_map delta; clear Hbr.
    unfold getitem in H. rewrite lookup_insert_eq in H. simpl in H.
    inversion H; subst s'; clear H. simpl.
    assert (pr = []) as ->.
    { destruct Hmult as [Hnil|(k & Hk & Hkk)].
      - by apply app_eq_nil in Hnil as [-> _].
      - pose proof (len_nonneg (pr ++ [])). nia. }
    split; [|split; [|split; [|done]]].
    + eexists _, _, _. split.
      { apply sets_at_inv. simpl. by rewrite !lookup_insert_eq. }
      simpl. rewrite Himpeq.
      pose proof (filter_notin_app [] [] (Py.range (num_groups g))) as E.
      simpl in *. rewrite E.
      split; [constructor|]. split; [by intros i Hi%elem_of_nil|].
      split; [done|]. split; [done|]. split; [by left|].
      by intros i Hi%elem_of_nil.
    + intros id Hid. unfold sets_at. simpl.
      by rewrite !lookup_insert_ne.
    + intros id. destruct (decide (id = group_id g)) as [->|Hid].
      * by rewrite lookup_insert_eq.
      * by rewrite lookup_insert_ne.
  - (* divisibility refinement *)
    apply bind_Ok in Hbr as (pr0 & Hp0 & Hbr).
    apply getitem_Ok in Hp0. rewrite Hpr in Hp0. inversion Hp0; subst pr0.
    clear Hp0.
    apply bind_Ok in Hbr as ([ac1 delta1] & Hsel & Hbr).
    inversion Hbr; subst ac pruned_map delta; clear Hbr.
    unfold getitem in H. rewrite Hpr in H. simpl in H.
    inversion H; subst s'; clear H. simpl.
    rewrite app_nil_r in Hnd, Hrange.
    assert (Hlen_imp : Py.len imp = num_groups g - Py.len pr).
    { rewrite Himpeq, app_nil_r. apply len_filter_notin; [lia|done|done]. }
    assert (Hsub : ∀ i, i ∈ ac0 → i ∈ imp).
    { intros i Hi. rewrite Himpeq, app_nil_r. apply list_elem_of_filter.
      split; [by apply Hnew|].
      apply elem_of_local_selection in Hi as [Hi _].
      by apply elem_of_range. }
    apply refine_selection_spec in Hsel
      as (m & -> & Hm & Hres);
      [| done | done | done | apply len_nonneg
       | apply len_le_of_subset; [apply local_selection_NoDup | done] | ].
    2:{ destruct Hmult as [Hnil|(k & Hk & Hkk)].
        - left. apply app_eq_nil in Hnil as [-> _]. done.
        - right. exists k. rewrite app_nil_r in Hkk. split; [done | lia]. }
    assert (Htake : ∀ i, i ∈ take m ac0 → i ∈ ac0).
    { intros i Hi. eapply elem_of_sublist; [exact Hi | apply sublist_take]. }
    split; [|split; [|split; [|done]]].
    + eexists _, _, _. split.
      { apply sets_at_inv. simpl. by rewrite !lookup_insert_eq. }
      simpl. rewrite Himpeq.
      rewrite (filter_notin_app pr (take m ac0)).
      split.
      { apply NoDup_app. split; [done|]. split.
        - intros i Hi Hi'. by apply (Hnew i (Htake i Hi')).
        - exact (sublist_NoDup _ _ (local_selection_NoDup _ _ _)
                   (sublist_take _ _)). }
      split.
      { intros i Hi. apply elem_of_app in Hi as [Hi|Hi]; [by apply Hrange|].
        apply Htake, elem_of_local_selection in Hi. tauto. }
      split; [done|]. split; [congruence|]. split.
      { destruct Hres as [[Hp0 ->]|(k & Hk & Hkk)].
        - left. apply len_nil_iff in Hp0 as ->. done.
        - right. exists k. split; [done|].
          rewrite len_app. unfold Py.len at 2. rewrite length_take. lia. }
      intros i Hi. apply elem_of_app in Hi as [Hi|Hi].
      * destruct Hgi' as (_ & _ & _ & _ & _ & Hlink').
        apply Hlink'. apply elem_of_app. by left.
      * apply Htake, elem_of_local_selection in Hi as [_ Hi].
        exists c, gs, (l0 ++ top), start.
        rewrite Hpbc, lookup_insert_eq.
        repeat (split; [done|]). apply elem_of_app. by right.
    + intros id Hid. unfold sets_at. simpl.
      by rewrite !lookup_insert_ne.
    + done.
Qed.

(** *** Selection within one cluster and over all clusters *)

Lemma select_top_indices_fresh scores pruned quota top :
  select_top_indices scores pruned quota = Ok top →
  NoDup top ∧ ∀ x, x ∈ top → x ∉ pruned.
Proof.
  unfold select_top_indices. intros H.
  apply bind_Ok in H as (t & _ & H). inversion H; subst top; clear H.
  split.
  - apply NoDup_slice_to, NoDup_unique.
  - intros x Hx%elem_of_slice_to. by apply elem_of_setdiff1d in Hx as [_ ?].
Qed.

Lemma state_inv_sets sch s g :
  state_inv sch s → g ∈ param_groups sch →
  active_redundant_idxes s !! group_id g = Some [] →
  ∃ imp pr, sets_at s (group_id g) = (Some imp, Some pr, Some []) ∧
            group_inv sch (pruned_group_idx_by_cluster s) g imp (pr ++ []).
Proof.
  intros Hinv Hg Hac.
  destruct (Hinv g Hg) as (imp & pr & ac & Hsets & Hgi).
  pose proof Hsets as Hs. apply sets_at_inv in Hs as (_ & _ & Hac').
  rewrite Hac in Hac'. inversion Hac'; subst ac. eauto.
Qed.

Lemma identify_cluster_spec sch c gs s s' :
  well_formed sch →
  (c, gs) ∈ prunable_param_group_clusters sch →
  state_inv sch s →
  (∀ g, g ∈ gs → active_redundant_idxes s !! group_id g = Some []) →
  (∀ g, g ∈ gs → eligible g = true →
        global_start_idx s !! group_id g
        = static_starts sch !! group_id g) →
  identify_cluster sch (c, gs) s = Ok s' →
  state_inv sch s' ∧
  (∀ id, (∀ g, g ∈ gs → id ≠ group_id g) → sets_at s' id = sets_at s id) ∧
  (∀ id, pruned_idxes s' !! id = pruned_idxes s !! id) ∧
  global_start_idx s' = global_start_idx s ∧
  cluster_importance_scores s' = cluster_importance_scores s ∧
  curr_pruning_period s' = curr_pruning_period s ∧
  num_steps s' = num_steps s ∧
  curr_num_zero_groups s' = curr_num_zero_groups s.
Proof.
  intros Hwf Hc Hinv Hclean Hstart. unfold identify_cluster. simpl.
  intros H. apply bind_Ok in H as (scores & _ & H).
  case_decide; [by inversion H; subst|].
  apply bind_Ok in H as (quotas & _ & H).
  apply bind_Ok in H as (quota & _ & H).
  apply bind_Ok in H as (l0 & Hl0 & H). apply getitem_Ok in Hl0.
  apply bind_Ok in H as (top & Htop & H).
  apply select_top_indices_fresh in Htop as [_ Hfresh].
  set (s1 := set_pruned_group_idx_by_cluster _ s) in H.
  pose (P := λ (pre : list param_group) s2,
          state_inv sch s2 ∧
          pruned_group_idx_by_cluster s2
          = <[c := l0 ++ top]> (pruned_group_idx_by_cluster s) ∧
          (∀ id, (∀ g, g ∈ pre → id ≠ group_id g) →
                 sets_at s2 id = sets_at s id) ∧
          (∀ id, pruned_idxes s2 !! id = pruned_idxes s !! id) ∧
          global_start_idx s2 = global_start_idx s ∧
          cluster_importance_scores s2 = cluster_importance_scores s ∧
          curr_pruning_period s2 = curr_pruning_period s ∧
          num_steps s2 = num_steps s ∧
          curr_num_zero_groups s2 = curr_num_zero_groups s).
  assert (HP : P gs s').
  { eapply (for_each_ind P); [| |exact H].
    - split; [|done].
      intros g Hg. destruct (Hinv g Hg) as (imp & pr & ac & Hsets & Hgi).
      exists imp, pr, ac. split; [done|]. simpl.
      by apply group_inv_extend.
    - intros pre x post s2 s3 Hgs
        (Hi2 & Hp2 & Hf2 & Hpr2 & Hg2 & Hsc2 & Hcp2 & Hn2 & Hz2) Hb.
      assert (Hx : x ∈ gs).
      { rewrite Hgs. apply elem_of_app. right. by left. }
      assert (Hxg : x ∈ param_groups sch) by (eapply wf_members; eauto).
      assert (Hxpre : ∀ g, g ∈ pre → group_id x ≠ group_id g).
      { intros g Hgpre Hid.
        assert (g ∈ gs) as Hggs.
        { rewrite Hgs. apply elem_of_app. by left. }
        assert (x = g).
        { exact (ids_inj sch x g (wf_ids sch Hwf) Hxg
                   (wf_members sch Hwf c gs g Hc Hggs) Hid). }
        subst g. pose proof (wf_cluster_nodup sch Hwf c gs Hc) as Hnd.
        rewrite Hgs in Hnd. apply NoDup_app in Hnd as (_ & Hnd & _).
        apply (Hnd x Hgpre). by left. }
      destruct (state_inv_sets sch s x Hinv Hxg (Hclean x Hx))
        as (imp & pr & Hsets & Hgi).
      rewrite <- (Hf2 _ Hxpre) in Hsets.
      eapply refine_group_spec in Hb; eauto.
      2:{ intros Hel. rewrite Hg2. by apply Hstart. }
      destruct Hb as ((imp' & pr' & ac' & Hs3 & Hgi3) & Hf3 & Hpr3 & Hp3
                      & Hg3 & Hsc3 & Hcp3 & Hn3 & Hz3).
      split; [|split; [congruence|split; [|split; [|split; [congruence|
        split; [congruence|split; [congruence|split; congruence]]]]]]].
      + intros g' Hg'.
        destruct (decide (group_id g' = group_id x)) as [Hid|Hid].
        * assert (g' = x) as ->.
          { exact (ids_inj sch g' x (wf_ids sch Hwf) Hg' Hxg Hid). }
          eauto.
        * destruct (Hi2 g' Hg') as (i' & p' & a' & Hs' & Hgi').
          exists i', p', a'. rewrite Hf3 by done. rewrite Hp3. done.
      + intros id Hid. rewrite Hf3, Hf2; [done | |].
        * intros g Hgp. apply Hid, elem_of_app. by left.
        * apply Hid, elem_of_app. right. by left.
      + intros id. by rewrite Hpr3, Hpr2. }
  destruct HP as (H1 & _ & H3 & H4 & H5 & H6 & H7 & H8 & H9). done.
Qed.

Lemma cluster_names_distinct {A} (cl pre post : list (string * A)) x y :
  NoDup cl.*1 → cl = pre ++ x :: post → y ∈ pre → y.1 ≠ x.1.
Proof.
  intros Hnd -> Hy Heq.
  rewrite fmap_app, fmap_cons in Hnd.
  apply NoDup_app in Hnd as (_ & Hnd & _).
  apply (Hnd y.1); [by apply list_elem_of_fmap_2 | rewrite Heq; by left].
Qed.

Lemma identify_redundant_groups_spec sch s s' :
  well_formed sch →
  state_inv sch s →
  committed sch s →
  (∀ c gs g, (c, gs) ∈ prunable_param_group_clusters sch → g ∈ gs →
             eligible g = true →
             global_start_idx s !! group_id g
             = static_starts sch !! group_id g) →
  identify_redundant_groups sch s = Ok s' →
  state_inv sch s' ∧
  (∀ id, pruned_idxes s' !! id = pruned_idxes s !! id) ∧
  curr_pruning_period s' = curr_pruning_period s ∧
  num_steps s' = num_steps s ∧
  curr_num_zero_groups s' = curr_num_zero_groups s.
Proof.
  intros Hwf Hinv Hclean Hstart H. unfold identify_redundant_groups in H.
  pose (P := λ (pre : list (string * list param_group)) s2,
          state_inv sch s2 ∧
          (∀ id, (∀ c gs g, (c, gs) ∈ pre → g ∈ gs → id ≠ group_id g) →
                 sets_at s2 id = sets_at s id) ∧
          (∀ id, pruned_idxes s2 !! id = pruned_idxes s !! id) ∧
          global_start_idx s2 = global_start_idx s ∧
          curr_pruning_period s2 = curr_pruning_period s ∧
          num_steps s2 = num_steps s ∧
          curr_num_zero_groups s2 = curr_num_zero_groups s).
  assert (HP : P (prunable_param_group_clusters sch) s').
  { eapply (for_each_ind P); [| |exact H].
    - done.
    - intros pre [c gs] post s2 s3 Hcl
        (Hi2 & Hf2 & Hpr2 & Hg2 & Hcp2 & Hn2 & Hz2) Hb.
      assert (Hc : (c, gs) ∈ prunable_param_group_clusters sch).
      { rewrite Hcl. apply elem_of_app. right. by left. }
      assert (Hother : ∀ g, g ∈ gs →
                 ∀ c' gs' g', (c', gs') ∈ pre → g' ∈ gs' →
                              group_id g ≠ group_id g').
      { intros g Hg c' gs' g' Hc' Hg' Hid.
        assert (Hc'' : (c', gs') ∈ prunable_param_group_clusters sch).
        { rewrite Hcl. apply elem_of_app. by left. }
        assert (g = g').
        { exact (ids_inj sch g g' (wf_ids sch Hwf)
                   (wf_members sch Hwf c gs g Hc Hg)
                   (wf_members sch Hwf c' gs' g' Hc'' Hg') Hid). }
        subst g'.
        assert (c' = c) by (eapply wf_one_cluster; eauto).
        eapply (cluster_names_distinct _ pre post (c, gs) (c', gs'));
          eauto using wf_cluster_names. }
      eapply identify_cluster_spec in Hb; eauto.
      + destruct Hb as (Hi3 & Hf3 & Hpr3 & Hg3 & _ & Hcp3 & Hn3 & Hz3).
        split; [done|]. split; [|split; [|split; [congruence|
          split; [congruence|split; congruence]]]].
        * intros id Hid. rewrite Hf3, Hf2; [done| |].
          -- intros c' gs' g' Hc' Hg'. eapply Hid; [|exact Hg'].
             apply elem_of_app. by left.
          -- intros g Hg. eapply Hid; [|exact Hg].
             apply elem_of_app. right. by left.
        * intros id. by rewrite Hpr3, Hpr2.
      + intros g Hg.
        assert (Hs : sets_at s2 (group_id g) = sets_at s (group_id g)).
        { apply Hf2. intros c' gs' g' Hc' Hg'. by eapply Hother. }
        unfold sets_at in Hs. injection Hs as _ _ Ha. rewrite Ha.
        apply Hclean. eapply wf_members; eauto.
      + intros g Hg Hel. rewrite Hg2. eapply Hstart; eauto. }
  destruct HP as (H1 & _ & H3 & _ & H5 & H6 & H7). done.
Qed.

(** *** One step and a whole run *)

Lemma state_inv_frame sch s s' :
  important_idxes s' = important_idxes s →
  pruned_idxes s' = pruned_idxes s →
  active_redundant_idxes s' = active_redundant_idxes s →
  pruned_group_idx_by_cluster s' = pruned_group_idx_by_cluster s →
  state_inv sch s → state_inv sch s'.
Proof.
  intros Hi Hp Ha Hc Hinv g Hg.
  destruct (Hinv g Hg) as (imp & pr & ac & Hsets & Hgi).
  exists imp, pr, ac. unfold sets_at in *. by rewrite Hi, Hp, Ha, Hc.
Qed.

Lemma pruned_grows_same sch s s' :
  (∀ id, pruned_idxes s' !! id = pruned_idxes s !! id) →
  pruned_grows sch s s'.
Proof.
  intros Hsame g pr _ Hpr. exists []. by rewrite app_nil_r, Hsame.
Qed.

Section StepFacts.

Context (overall_importance_score : tensors → param_group → list Q)
        (count_zero_groups : list param_group → tensors → Z)
        (tensor_transformation :
           list bool → TensorTransform → Z → Z → list bool)
        (Qsqrt : Q → Q).

Local Abbreviation select_round :=
  (select_round overall_importance_score).
Local Abbreviation step :=
  (step overall_importance_score count_zero_groups tensor_transformation
        Qsqrt).
Local Abbreviation run :=
  (run overall_importance_score count_zero_groups tensor_transformation
       Qsqrt).

Lemma select_round_spec sch T s s' :
  well_formed sch → state_inv sch s →
  select_round sch T s = Ok s' →
  state_inv sch s' ∧ pruned_grows sch s s'.
Proof.
  intros Hwf Hinv. unfold select_round.
  destruct (_ && _ && _).
  2:{ intros H. inversion H; subst. split; [done|].
      apply pruned_grows_refl. }
  intros H. apply bind_Ok in H as (r & _ & H).
  destruct (r =? 0).
  2:{ inversion H; subst. split; [done|]. apply pruned_grows_refl. }
  apply bind_Ok in H as (s1 & H1 & H).
  apply commit_redundant_idxes_spec in H1
    as (Hi1 & Hc1 & Hg1 & _); [|by apply wf_ids|done].
  apply bind_Ok in H as (s2 & H2 & H).
  inversion H; subst s'; clear H.
  destruct (compute_importance_scores_spec overall_importance_score
              sch T s1) as (Ei & Ep & Ea & Ec & _ & _ & _ & Eg).
  eapply identify_redundant_groups_spec in H2; [|done| | |].
  - destruct H2 as (Hi2 & Hp2 & _).
    split; [exact Hi2|].
    eapply pruned_grows_trans; [exact Hg1|].
    apply pruned_grows_same. intros id. by rewrite Hp2, Ep.
  - by eapply state_inv_frame.
  - intros g Hg. rewrite Ea. by apply Hc1.
  - intros c gs g Hc Hg Hel. rewrite Eg.
    destruct (starts_all_written _ c gs g Hc Hg Hel) as [v Hv].
    fold (static_starts sch) in Hv.
    rewrite Hv. by apply lookup_union_Some_l.
Qed.

Lemma end_of_period_commit_spec sch t s s' :
  well_formed sch → state_inv sch s →
  end_of_period_commit sch t s = Ok s' →
  state_inv sch s' ∧ pruned_grows sch s s'.
Proof.
  intros Hwf Hinv. unfold end_of_period_commit.
  destruct (_ && _).
  - intros H.
    apply commit_redundant_idxes_spec in H
      as (Hi1 & _ & Hg1 & _); [done|by apply wf_ids|done].
  - intros H. inversion H; subst. split; [done|].
    apply pruned_grows_refl.
Qed.

Lemma step_spec sch s T s' T' :
  well_formed sch → state_inv sch s →
  step sch (s, T) = Ok (s', T') →
  state_inv sch s' ∧ pruned_grows sch s s'.
Proof.
  intros Hwf Hinv. unfold step. simpl. intros H.
  apply bind_Ok in H as (s1 & H1 & H).
  apply select_round_spec in H1 as [Hi1 Hg1]; [|done|done].
  apply bind_Ok in H as (t & _ & H).
  apply bind_Ok in H as (T1 & _ & H).
  apply bind_Ok in H as (s2 & H2 & H).
  apply end_of_period_commit_spec in H2 as [Hi2 Hg2]; [|done|done].
  inversion H; subst s' T'; clear H.
  split; [exact Hi2|].
  exact (pruned_grows_trans sch _ _ _ Hg1 Hg2).
Qed.

Lemma run_spec sch grads s T s' T' :
  well_formed sch → state_inv sch s →
  run sch grads (s, T) = Ok (s', T') →
  state_inv sch s' ∧ pruned_grows sch s s'.
Proof.
  intros Hwf. revert s T.
  induction grads as [|gr grads IH]; intros s T Hinv H; simpl in H.
  - inversion H; subst. split; [done|]. apply pruned_grows_refl.
  - apply bind_Ok in H as ([s1 T1] & H1 & H).
    apply step_spec in H1 as [Hi1 Hg1]; [|done|done].
    apply IH in H as [Hi2 Hg2]; [|done].
    split; [done|]. by eapply pruned_grows_trans.
Qed.

End StepFacts.

(** *** The constructor establishes the invariant *)

Lemma foldl_insert_lookup {A B} (key : A → string) (val : A → B)
  (l : list A) (m : gmap string B) x :
  NoDup (key <$> l) → x ∈ l →
  foldl (λ m y, <[key y := val y]> m) m l !! key x = Some (val x).
Proof.
  revert m. induction l as [|y l IH] using rev_ind; intros m Hnd Hx.
  - by apply elem_of_nil in Hx.
  - rewrite foldl_snoc. rewrite fmap_app in Hnd.
    apply NoDup_app in Hnd as (Hnd & Hdisj & _).
    apply elem_of_app in Hx as [Hx|Hx].
    + rewrite lookup_insert_ne; [by apply IH|].
      intros Heq. apply (Hdisj (key x)); [by apply list_elem_of_fmap_2|].
      rewrite <- Heq. simpl. by left.
    + apply list_elem_of_singleton in Hx as ->. by rewrite lookup_insert_eq.
Qed.

Lemma filter_notin_nil (l : list Z) : filter (λ i, i ∉ []) l = l.
Proof.
  induction l as [|x l IH]; [done|].
  rewrite filter_cons_True; [by rewrite IH | by intros ?%elem_of_nil].
Qed.

Lemma make_clusters_names tgs groups : (make_clusters tgs groups).*1 = tgs.*1.
Proof.
  unfold make_clusters. rewrite <- list_fmap_compose.
  by apply list_fmap_ext.
Qed.

Lemma elem_of_make_clusters tgs groups c gs :
  (c, gs) ∈ make_clusters tgs groups →
  c ∈ tgs.*1 ∧
  gs = filter (λ g, is_prunable g && in_cluster c g) groups.
Proof.
  unfold make_clusters. intros H.
  apply list_elem_of_fmap in H as ([c' q] & Heq & Hin). simpl in Heq.
  inversion Heq; subst. split; [|done].
  apply list_elem_of_fmap. by exists (c', q).
Qed.

Section InitFacts.

Context (DEFAULT_OPT_PARAMS : gmap string opt_defaults)
        (count_zero_groups : list param_group → tensors → Z).

Local Abbreviation init := (init DEFAULT_OPT_PARAMS count_zero_groups).

Lemma init_shape a T sch s :
  init a T = Ok (sch, s) →
  ∃ fm sm dm wd,
    let groups :=
      merge_defaults (arg_variant a) (arg_lr a) fm sm dm wd
        <$> arg_params a in
    param_groups sch = groups ∧
    prunable_param_group_clusters sch
    = make_clusters
        (make_target_group_sparsity (arg_target_group_sparsity a))
        groups ∧
    group_divisible sch = arg_group_divisible a ∧
    important_idxes s
    = foldl (λ m g, <[group_id g := Py.range (num_groups g)]> m)
        ∅ groups ∧
    pruned_idxes s = foldl (λ m g, <[group_id g := []]> m) ∅ groups ∧
    active_redundant_idxes s
    = foldl (λ m g, <[group_id g := []]> m) ∅ groups.
Proof.
  unfold init. intros H.
  destruct (Qltb _ _); [discriminate|].
  apply bind_Ok in H as (duration & _ & H).
  apply bind_Ok in H as (fm & _ & H).
  apply bind_Ok in H as (sm & _ & H).
  apply bind_Ok in H as (dm & _ & H).
  apply bind_Ok in H as (wd & _ & H).
  inversion H; subst sch s; clear H. simpl.
  by exists fm, sm, dm, wd.
Qed.

Lemma init_spec a T sch s :
  valid_args a → init a T = Ok (sch, s) →
  well_formed sch ∧ state_inv sch s.
Proof.
  intros [Hids Hnames Hone Hdiv] H.
  apply init_shape in H
    as (fm & sm & dm & wd & Hgroups & Hcl & Hd & Hi & Hp & Ha).
  set (f := merge_defaults (arg_variant a) (arg_lr a) fm sm dm wd) in *.
  assert (Hgid : NoDup (group_id <$> param_groups sch)).
  { rewrite Hgroups. simpl. rewrite <- list_fmap_compose.
    by rewrite (list_fmap_ext (group_id ∘ f) r_id). }
  split.
  - split.
    + exact Hgid.
    + by rewrite Hcl, make_clusters_names.
    + intros c gs Hc. rewrite Hcl in Hc.
      apply elem_of_make_clusters in Hc as [_ ->].
      apply NoDup_filter. rewrite <- Hgroups.
      by apply NoDup_fmap_1 in Hgid.
    + intros c gs g Hc Hg. rewrite Hcl in Hc.
      apply elem_of_make_clusters in Hc as [_ ->].
      apply list_elem_of_filter in Hg as [_ Hg]. by rewrite Hgroups.
    + intros c1 gs1 c2 gs2 g Hc1 Hc2 Hg1 Hg2. rewrite Hcl in Hc1, Hc2.
      apply elem_of_make_clusters in Hc1 as [Hn1 ->].
      apply elem_of_make_clusters in Hc2 as [Hn2 ->].
      apply list_elem_of_filter in Hg1 as [Hm1 Hg1].
      apply list_elem_of_filter in Hg2 as [Hm2 _].
      apply list_elem_of_fmap in Hg1 as (r & -> & Hr).
      apply andb_prop_elim in Hm1 as [_ Hm1].
      apply andb_prop_elim in Hm2 as [_ Hm2].
      apply Is_true_true in Hm1, Hm2.
      by apply (Hone r c1 c2).
    + by rewrite Hd.
  - intros g Hg.
    exists (Py.range (num_groups g)), [], []. split.
    + apply sets_at_inv. rewrite Hi, Hp, Ha, <- Hgroups.
      rewrite (foldl_insert_lookup group_id
                 (λ g, Py.range (num_groups g))) by done.
      rewrite (foldl_insert_lookup group_id (λ _, [])) by done.
      done.
    + simpl. split; [constructor|].
      split; [by intros i Hi'%elem_of_nil|].
      split; [by rewrite filter_notin_nil|].
      split; [done|]. split; [by left|].
      by intros i Hi'%elem_of_nil.
Qed.

End InitFacts.

(** ** The index sets along a run (C4, C5, C6, C7) *)

Lemma total_pruned_mono sch s s' :
  state_inv sch s → pruned_grows sch s s' →
  total_pruned sch s ≤ total_pruned sch s'.
Proof.
  intros Hinv Hgrow. unfold total_pruned.
  assert (Hsub : ∀ g, g ∈ param_groups sch → g ∈ param_groups sch) by done.
  revert Hsub. generalize (param_groups sch) at 1 3 4 as l.
  induction l as [|g l IH]; intros Hsub; simpl; [done|].
  assert (Hg : g ∈ param_groups sch) by (apply Hsub; by left).
  destruct (Hinv g Hg) as (imp & pr & ac & Hsets & _).
  apply sets_at_inv in Hsets as (_ & Hpr & _).
  destruct (Hgrow g pr Hg Hpr) as [ext Hpr'].
  rewrite Hpr, Hpr'. simpl. rewrite len_app.
  pose proof (len_nonneg ext).
  assert (IH' := IH (λ g' Hg', Hsub g' (list_elem_of_further _ _ _ Hg'))).
  lia.
Qed.

Section Invariants.

Context (DEFAULT_OPT_PARAMS : gmap string opt_defaults)
        (overall_importance_score : tensors → param_group → list Q)
        (count_zero_groups : list param_group → tensors → Z)
        (tensor_transformation :
           list bool → TensorTransform → Z → Z → list bool)
        (Qsqrt : Q → Q).

Local Abbreviation init := (init DEFAULT_OPT_PARAMS count_zero_groups).
Local Abbreviation step :=
  (step overall_importance_score count_zero_groups tensor_transformation
        Qsqrt).
Local Abbreviation run :=
  (run overall_importance_score count_zero_groups tensor_transformation
       Qsqrt).

(** Every state reached from the constructor by a run of steps
    satisfies the invariant. *)
Lemma run_from_init a T0 sch s0 grads s T :
  valid_args a →
  init a T0 = Ok (sch, s0) →
  run sch grads (s0, T0) = Ok (s, T) →
  well_formed sch ∧ state_inv sch s.
Proof.
  intros Hva Hinit Hrun.
  destruct (init_spec _ _ a T0 sch s0 Hva Hinit) as [Hwf Hinv].
  split; [done|].
  by destruct (run_spec _ _ _ _ sch grads s0 T0 s T Hwf Hinv Hrun).
Qed.

(** C4.  After construction and after every [step] of a run, the
    index sets important, pruned and active-redundant of every
    parameter group are pairwise disjoint and their union is the full
    index range of the group. *)
Theorem index_sets_partition a T0 sch s0 grads s T g :
  valid_args a →
  init a T0 = Ok (sch, s0) →
  run sch grads (s0, T0) = Ok (s, T) →
  g ∈ param_groups sch →
  ∃ imp pr ac,
    important_idxes s !! group_id g = Some imp ∧
    pruned_idxes s !! group_id g = Some pr ∧
    active_redundant_idxes s !! group_id g = Some ac ∧
    partitions (num_groups g) imp pr ac.
Proof.
  intros Hva Hinit Hrun Hg.
  destruct (run_from_init a T0 sch s0 grads s T Hva Hinit Hrun)
    as [_ Hinv].
  destruct (Hinv g Hg) as (imp & pr & ac & Hsets & Hgi).
  apply sets_at_inv in Hsets as (Hi & Hp & Ha).
  exists imp, pr, ac. repeat (split; [done|]).
  by eapply group_inv_partitions.
Qed.

(** C5.  For a parameter group with at least as many structural groups
    as the divisibility constraint, once an index of the group is pruned
    or active-redundant, the number of its important indices is a
    positive multiple of the divisibility constraint, after every
    [step]. *)
Theorem important_count_divisible a T0 sch s0 grads s T g imp pr ac :
  valid_args a →
  init a T0 = Ok (sch, s0) →
  run sch grads (s0, T0) = Ok (s, T) →
  g ∈ param_groups sch →
  group_divisible sch ≤ num_groups g →
  important_idxes s !! group_id g = Some imp →
  pruned_idxes s !! group_id g = Some pr →
  active_redundant_idxes s !! group_id g = Some ac →
  pr ≠ [] ∨ ac ≠ [] →
  ∃ k, 0 < k ∧ Py.len imp = k * group_divisible sch.
Proof.
  intros Hva Hinit Hrun Hg Hn Hi Hp Ha Hsome.
  destruct (run_from_init a T0 sch s0 grads s T Hva Hinit Hrun)
    as [Hwf Hinv].
  pose proof (wf_divisible sch Hwf) as Hdiv.
  destruct (Hinv g Hg) as (imp' & pr' & ac' & Hsets & Hgi).
  apply sets_at_inv in Hsets as (Hi' & Hp' & Ha').
  rewrite Hi in Hi'. rewrite Hp in Hp'. rewrite Ha in Ha'.
  inversion Hi'; inversion Hp'; inversion Ha'; subst imp' pr' ac'.
  destruct Hgi as (Hnd & Hrange & -> & _ & Hmult & _).
  destruct Hmult as [Hnil|(k & Hk & Hkk)].
  - apply app_eq_nil in Hnil as [-> ->]. by destruct Hsome.
  - exists k. split; [done|].
    rewrite len_filter_notin; [done | lia | done | done].
Qed.

(** A group that is not larger than the divisibility constraint is
    never pruned. *)
Lemma small_group_never_pruned a T0 sch s0 grads s T g :
  valid_args a →
  init a T0 = Ok (sch, s0) →
  run sch grads (s0, T0) = Ok (s, T) →
  g ∈ param_groups sch →
  num_groups g ≤ group_divisible sch →
  pruned_idxes s !! group_id g = Some [] ∧
  active_redundant_idxes s !! group_id g = Some [].
Proof.
  intros Hva Hinit Hrun Hg Hn.
  destruct (run_from_init a T0 sch s0 grads s T Hva Hinit Hrun)
    as [Hwf Hinv].
  pose proof (wf_divisible sch Hwf) as Hdiv.
  destruct (Hinv g Hg) as (imp & pr & ac & Hsets & Hgi).
  apply sets_at_inv in Hsets as (_ & Hp & Ha).
  destruct Hgi as (_ & _ & _ & _ & Hmult & _).
  assert (pr ++ ac = []) as Hnil.
  { destruct Hmult as [Hnil|(k & Hk & Hkk)]; [done|].
    apply len_nil_iff. pose proof (len_nonneg (pr ++ ac)). nia. }
  apply app_eq_nil in Hnil as [-> ->]. done.
Qed.

(** C6.  A parameter group with [num_groups = 4] under
    [group_divisible = 4] keeps empty pruned and active-redundant sets
    after construction and after every [step], whatever the importance
    scores and the target sparsity. *)
Theorem four_of_four_never_pruned a T0 sch s0 grads s T g :
  valid_args a →
  init a T0 = Ok (sch, s0) →
  run sch grads (s0, T0) = Ok (s, T) →
  g ∈ param_groups sch →
  num_groups g = 4 →
  group_divisible sch = 4 →
  pruned_idxes s !! group_id g = Some [] ∧
  active_redundant_idxes s !! group_id g = Some [].
Proof.
  intros Hva Hinit Hrun Hg Hn Hd.
  eapply small_group_never_pruned; eauto. lia.
Qed.

(** C7.  From the state before a [step] to the state after it, the
    total number of permanently pruned structural groups, summed over
    all parameter groups, does not decrease. *)
Theorem total_pruned_monotone a T0 sch s0 grads s T gr s' T' :
  valid_args a →
  init a T0 = Ok (sch, s0) →
  run sch grads (s0, T0) = Ok (s, T) →
  step sch (s, set_grad gr T) = Ok (s', T') →
  total_pruned sch s ≤ total_pruned sch s'.
Proof.
  intros Hva Hinit Hrun Hstep.
  destruct (run_from_init a T0 sch s0 grads s T Hva Hinit Hrun)
    as [Hwf Hinv].
  apply total_pruned_mono; [done|].
  by destruct (step_spec _ _ _ _ sch s _ s' T' Hwf Hinv Hstep).
Qed.

End Invariants.

(** ** Cluster membership under a scalar target (C1) *)

Section ClusterFacts.

Context (DEFAULT_OPT_PARAMS : gmap string opt_defaults)
        (count_zero_groups : list param_group → tensors → Z).

Local Abbreviation init := (init DEFAULT_OPT_PARAMS count_zero_groups).

(** With a scalar target the only cluster is ['overall'], and its
    members are the prunable groups one of whose tensor names contains
    the text "overall". *)
Lemma scalar_target_clusters a T sch s target :
  arg_target_group_sparsity a = Scalar target →
  init a T = Ok (sch, s) →
  prunable_param_group_clusters sch
  = [("overall"%string,
      filter (λ g, is_prunable g && in_cluster "overall" g)
             (param_groups sch))].
Proof.
  intros Ht H. apply init_shape in H as (fm & sm & dm & wd & H).
  destruct H as (-> & -> & _). by rewrite Ht.
Qed.

End ClusterFacts.

(** C1.  The constructor, given the scalar target 0.5 and one prunable
    group whose tensors are named "m.lora_B" and "m.weight", leaves the
    'overall' cluster empty: the group is in no cluster, the total group
    count is 0 and so is the target number of redundant groups. *)
Theorem scalar_target_overall_cluster_empty :
  ∃ sch s,
    Scenario.init (Scenario.args 8 "sgd" (Scalar (1 # 2)) 6 2 1)
      (Scenario.T0 8) = Ok (sch, s) ∧
    is_prunable <$> param_groups sch = [true] ∧
    prunable_param_group_clusters sch = [("overall"%string, [])] ∧
    total_num_groups sch = 0 ∧
    target_num_redundant_groups s = 0.
Proof.
  eexists _, _. split; [vm_compute; reflexivity|]. by vm_compute.
Qed.

(** ** Tensors without gradient (C2) *)

(** In a group without active-redundant groups, a tensor without
    gradient variant keeps its data. *)
Lemma update_plain_skips g gv T name :
  gv !! name = None →
  param_data (update_plain g gv T) name = param_data T name.
Proof.
  intros Hnone. unfold update_plain. generalize (p_names g) as l.
  intros l. revert T. induction l as [|n l IH]; intros T; simpl; [done|].
  rewrite IH. destruct (gv !! n) eqn:Hn; [|done].
  rewrite param_data_store. case_decide; [congruence | done].
Qed.

(** C2.  On the first [step] of the eight-group optimizer no tensor has
    a gradient; the selection round makes two groups active-redundant, and
    the update of the adapter factor "m.lora_B" subscripts the empty
    gradient-variant dictionary: the step raises [KeyError]. *)
Theorem step_without_gradient_raises :
  ∃ sch s,
    Scenario.init (Scenario.lora_args "sgd" 1) (Scenario.T0 8)
    = Ok (sch, s) ∧
    Scenario.step sch (s, set_grad ∅ (Scenario.T0 8))
    = Raise (KeyError "m.lora_B").
Proof.
  eexists _, _. split; [vm_compute; reflexivity|]. by vm_compute.
Qed.

(** ** The selection of one round (C3) *)

(** What the code selects: of the [K] lowest-scoring indices that are
    not pruned yet, the first [quota] in ascending order of index. *)
Lemma select_top_indices_by_index scores pruned quota top :
  select_top_indices scores pruned quota = Ok top →
  ∃ lowest,
    Torch.topk_neg scores (Py.len pruned + quota) = Ok lowest ∧
    top = Py.slice_to (Np.setdiff1d lowest pruned) quota ∧
    StronglySorted Z.lt (Np.setdiff1d lowest pruned) ∧
    ∀ i, i ∈ Np.setdiff1d lowest pruned ↔ i ∈ lowest ∧ i ∉ pruned.
Proof.
  unfold select_top_indices. intros H.
  apply bind_Ok in H as (lowest & Hl & H). inversion H; subst top.
  exists lowest. split; [done|]. split; [done|].
  split; [apply unique_sorted|]. intros i. apply elem_of_setdiff1d.
Qed.

(** C3.  Four groups with scores 3, 2, 1, 10, index 3 pruned already
    and a quota of 1: the two lowest-scoring indices are 2 and 1; the
    code keeps index 1, the first in ascending order of index, where the
    first in ascending order of score is index 2. *)
Theorem selection_keeps_lowest_index :
  Torch.topk_neg [3; 2; 1; 10]%Q 2 = Ok [2; 1] ∧
  select_top_indices [3; 2; 1; 10]%Q [3] 1 = Ok [1] ∧
  select_by_score [3; 2; 1; 10]%Q [3] 1 = Ok [2].
Proof. by vm_compute. Qed.

(** The state of that selection is reached by a run: after the first
    period has pruned index 3, the second round, on the scores above,
    prunes index 1. *)
Lemma selection_by_index_in_a_run :
  ∃ sch s0 s T,
    Scenario.init
      (Scenario.args 4 "sgd" (PerCluster [("lora"%string, 1 # 2)]) 4 2 1)
      (Scenario.T0 4) = Ok (sch, s0) ∧
    run Scenario.score_after_pruning Scenario.no_zero_groups
        Scenario.plain_mask Scenario.no_sqrt sch
        [Scenario.grads 4; Scenario.grads 4; Scenario.grads 4]
        (s0, Scenario.T0 4) = Ok (s, T) ∧
    pruned_idxes s !! "g0"%string = Some [3; 1].
Proof.
  eexists _, _, _, _. split; [vm_compute; reflexivity|].
  split; [vm_compute; reflexivity|]. by vm_compute.
Qed.

(** ** The theorems at the concrete optimizer *)

Lemma scenario_valid n variant c q steps periods divisible :
  1 ≤ divisible →
  valid_args
    (Scenario.args n variant (PerCluster [(c, q)]) steps periods divisible).
Proof.
  intros Hd. split; simpl.
  - apply NoDup_singleton.
  - apply NoDup_singleton.
  - intros r c1 c2 _ H1 H2 _ _.
    apply list_elem_of_singleton in H1, H2. congruence.
  - done.
Defined.




Lemma index_sets_partition_witness :
  valid_args (Scenario.lora_args "sgd" 2) ∧
  ∃ sch s0 s T,
    Scenario.init (Scenario.lora_args "sgd" 2) (Scenario.T0 8)
    = Ok (sch, s0) ∧
    Scenario.run sch (replicate 4 (Scenario.grads 8)) (s0, Scenario.T0 8)
    = Ok (s, T) ∧
    ∀ g, g ∈ param_groups sch →
         ∃ imp pr ac,
           important_idxes s !! group_id g = Some imp ∧
           pruned_idxes s !! group_id g = Some pr ∧
           active_redundant_idxes s !! group_id g = Some ac ∧
           partitions (num_groups g) imp pr ac.
Proof.
  assert (Hva : valid_args (Scenario.lora_args "sgd" 2)).
  { apply scenario_valid. lia. }
  split; [exact Hva|].
  destruct (Scenario.init (Scenario.lora_args "sgd" 2) (Scenario.T0 8))
    as [[sch s0]|e] eqn:Hinit;
    [|exfalso; vm_compute in Hinit; discriminate].
  destruct (Scenario.run sch (replicate 4 (Scenario.grads 8))
              (s0, Scenario.T0 8)) as [[s T]|e] eqn:Hrun.
  - exists sch, s0, s, T. split; [reflexivity|]. split; [exact Hrun|].
    intros g Hg.
    exact (index_sets_partition Scenario.DEFAULT_OPT_PARAMS Scenario.score
             Scenario.no_zero_groups Scenario.plain_mask Scenario.no_sqrt
             _ _ _ _ _ _ _ g Hva Hinit Hrun Hg).
  - exfalso. revert Hrun. vm_compute in Hinit. injection Hinit as <- <-.
    vm_compute. discriminate.
Defined.

Lemma important_count_divisible_witness :
  valid_args (Scenario.lora_args "sgd" 2) ∧
  ∃ sch s0 s T,
    Scenario.init (Scenario.lora_args "sgd" 2) (Scenario.T0 8)
    = Ok (sch, s0) ∧
    Scenario.run sch (replicate 4 (Scenario.grads 8)) (s0, Scenario.T0 8)
    = Ok (s, T) ∧
    pruned_idxes s !! "g0"%string = Some [6; 7] ∧
    active_redundant_idxes s !! "g0"%string = Some [4; 5] ∧
    ∃ imp k,
      important_idxes s !! "g0"%string = Some imp ∧
      0 < k ∧ Py.len imp = k * group_divisible sch.
Proof.
  assert (Hva : valid_args (Scenario.lora_args "sgd" 2)).
  { apply scenario_valid. lia. }
  split; [exact Hva|].
  destruct (Scenario.init (Scenario.lora_args "sgd" 2) (Scenario.T0 8))
    as [[sch s0]|e] eqn:Hinit;
    [|exfalso; vm_compute in Hinit; discriminate].
  destruct (Scenario.run sch (replicate 4 (Scenario.grads 8))
              (s0, Scenario.T0 8)) as [[s T]|e] eqn:Hrun.
  2:{ exfalso. revert Hrun. vm_compute in Hinit. injection Hinit as <- <-.
      vm_compute. discriminate. }
  exists sch, s0, s, T. split; [reflexivity|]. split; [exact Hrun|].
  pose proof Hinit as Hsch. pose proof Hrun as Hs.
  vm_compute in Hsch. injection Hsch as Esch Es0.
  rewrite <- Esch, <- Es0 in Hs. vm_compute in Hs. injection Hs as Es ET.
  assert (Hp : pruned_idxes s !! "g0"%string = Some [6; 7])
    by (rewrite <- Es; reflexivity).
  assert (Ha : active_redundant_idxes s !! "g0"%string = Some [4; 5])
    by (rewrite <- Es; reflexivity).
  assert (Hi : important_idxes s !! "g0"%string = Some [0; 1; 2; 3])
    by (rewrite <- Es; reflexivity).
  split; [exact Hp|]. split; [exact Ha|].
  destruct (important_count_divisible Scenario.DEFAULT_OPT_PARAMS
              Scenario.score Scenario.no_zero_groups Scenario.plain_mask
              Scenario.no_sqrt _ _ _ _ _ _ _
              (merge_defaults "sgd" (1 # 10) 0 0 0 (Some 0%Q)
                 (Scenario.adapter 8))
              [0; 1; 2; 3] [6; 7] [4; 5] Hva Hinit Hrun)
    as (k & Hk & Hlen).
  - rewrite <- Esch. apply list_elem_of_here.
  - rewrite <- Esch. simpl. lia.
  - exact Hi.
  - exact Hp.
  - exact Ha.
  - by left.
  - exists [0; 1; 2; 3], k. done.
Defined.

Lemma four_of_four_never_pruned_witness :
  let a := Scenario.args 4 "sgd" (PerCluster [("lora"%string, 1 # 2)])
             6 2 4 in
  let g := merge_defaults "sgd" (1 # 10) 0 0 0 (Some 0%Q)
             (Scenario.adapter 4) in
  valid_args a ∧
  ∃ sch s0 s T,
    Scenario.init a (Scenario.T0 4) = Ok (sch, s0) ∧
    Scenario.run sch (replicate 4 (Scenario.grads 4)) (s0, Scenario.T0 4)
    = Ok (s, T) ∧
    g ∈ param_groups sch ∧ num_groups g = 4 ∧ group_divisible sch = 4 ∧
    pruned_idxes s !! group_id g = Some [] ∧
    active_redundant_idxes s !! group_id g = Some [].
Proof.
  intros a g.
  assert (Hva : valid_args a) by (apply scenario_valid; lia).
  split; [exact Hva|].
  destruct (Scenario.init a (Scenario.T0 4)) as [[sch s0]|e] eqn:Hinit;
    [|exfalso; vm_compute in Hinit; discriminate].
  pose proof (init_Ok _ _ _ _ _ _ Hinit) as (_ & _ & Hd & _).
  change (group_divisible sch = 4) in Hd.
  assert (Hg : g ∈ param_groups sch).
  { pose proof Hinit as Hsch. vm_compute in Hsch.
    injection Hsch as <- _. apply list_elem_of_here. }
  destruct (Scenario.run sch (replicate 4 (Scenario.grads 4))
              (s0, Scenario.T0 4)) as [[s T]|e] eqn:Hrun.
  - exists sch, s0, s, T. split; [reflexivity|]. split; [exact Hrun|].
    split; [exact Hg|]. split; [reflexivity|]. split; [exact Hd|].
    exact (four_of_four_never_pruned Scenario.DEFAULT_OPT_PARAMS
             Scenario.score Scenario.no_zero_groups Scenario.plain_mask
             Scenario.no_sqrt _ _ _ _ _ _ _ g Hva Hinit Hrun Hg
             eq_refl Hd).
  - exfalso. revert Hrun. vm_compute in Hinit. injection Hinit as <- <-.
    vm_compute. discriminate.
Defined.

Lemma total_pruned_monotone_witness :
  valid_args (Scenario.lora_args "sgd" 1) ∧
  ∃ sch s0 s T s' T',
    Scenario.init (Scenario.lora_args "sgd" 1) (Scenario.T0 8)
    = Ok (sch, s0) ∧
    Scenario.run sch [Scenario.grads 8] (s0, Scenario.T0 8) = Ok (s, T) ∧
    Scenario.step sch (s, set_grad (Scenario.grads 8) T) = Ok (s', T') ∧
    total_pruned sch s ≤ total_pruned sch s'.
Proof.
  assert (Hva : valid_args (Scenario.lora_args "sgd" 1)).
  { apply scenario_valid. lia. }
  split; [exact Hva|].
  destruct (Scenario.init (Scenario.lora_args "sgd" 1) (Scenario.T0 8))
    as [[sch s0]|e] eqn:Hinit;
    [|exfalso; vm_compute in Hinit; discriminate].
  destruct (Scenario.run sch [Scenario.grads 8] (s0, Scenario.T0 8))
    as [[s T]|e] eqn:Hrun.
  2:{ exfalso. revert Hrun. vm_compute in Hinit. injection Hinit as <- <-.
      vm_compute. discriminate. }
  destruct (Scenario.step sch (s, set_grad (Scenario.grads 8) T))
    as [[s' T']|e] eqn:Hstep.
  - exists sch, s0, s, T, s', T'.
    split; [reflexivity|]. split; [exact Hrun|]. split; [exact Hstep|].
    exact (total_pruned_monotone Scenario.DEFAULT_OPT_PARAMS
             Scenario.score Scenario.no_zero_groups Scenario.plain_mask
             Scenario.no_sqrt _ _ _ _ _ _ _ _ _ _ Hva Hinit Hrun Hstep).
  - exfalso. revert Hstep. vm_compute in Hinit. injection Hinit as <- <-.
    vm_compute in Hrun. injection Hrun as <- <-. vm_compute. discriminate.
Defined.

(** * Further properties of the optimizer *)

(** ** What the index-set invariant gives *)

Lemma sorted_lt_sublist (l k : list Z) :
  l `sublist_of` k → StronglySorted Z.lt k → StronglySorted Z.lt l.
Proof.
  induction 1 as [|x l k Hs IH|x l k Hs IH]; intros Hk.
  - constructor.
  - apply StronglySorted_inv in Hk as [Hk Hx].
    constructor; [by apply IH|].
    apply Forall_forall. intros y Hy.
    eapply Forall_forall in Hx; [exact Hx|].
    by eapply elem_of_sublist.
  - apply StronglySorted_inv in Hk as [Hk _]. by apply IH.
Qed.

Lemma range_sorted n : StronglySorted Z.lt (Py.range n).
Proof.
  unfold Py.range, seqZ. generalize (Z.to_nat n) as k. intros k.
  generalize 0%nat as j. generalize 0 as m.
  induction k as [|k IH]; intros m j; simpl; [constructor|].
  constructor; [apply IH|].
  apply Forall_fmap, Forall_forall. intros x Hx%elem_of_seq. simpl. lia.
Qed.

Section InvariantConsequences.

Context (DEFAULT_OPT_PARAMS : gmap string opt_defaults)
        (overall_importance_score : tensors → param_group → list Q)
        (count_zero_groups : list param_group → tensors → Z)
        (tensor_transformation :
           list bool → TensorTransform → Z → Z → list bool)
        (Qsqrt : Q → Q).

Local Abbreviation init := (init DEFAULT_OPT_PARAMS count_zero_groups).
Local Abbreviation step :=
  (step overall_importance_score count_zero_groups tensor_transformation
        Qsqrt).
Local Abbreviation run :=
  (run overall_importance_score count_zero_groups tensor_transformation
       Qsqrt).

(** X1.  After construction and after every step, the important list of
    a group is exactly the ascending list of the indices of its range that
    are neither pruned nor active-redundant. *)
Theorem important_idxes_ascending_rest a T0 sch s0 grads s T g :
  valid_args a →
  init a T0 = Ok (sch, s0) →
  run sch grads (s0, T0) = Ok (s, T) →
  g ∈ param_groups sch →
  ∃ imp pr ac,
    important_idxes s !! group_id g = Some imp ∧
    pruned_idxes s !! group_id g = Some pr ∧
    active_redundant_idxes s !! group_id g = Some ac ∧
    imp = filter (λ i, i ∉ pr ++ ac) (Py.range (num_groups g)) ∧
    StronglySorted Z.lt imp.
Proof.
  intros Hva Hinit Hrun Hg.
  destruct (run_from_init _ _ _ _ _ a T0 sch s0 grads s T Hva Hinit Hrun)
    as [_ Hinv].
  destruct (Hinv g Hg) as (imp & pr & ac & Hsets & Hgi).
  apply sets_at_inv in Hsets as (Hi & Hp & Ha).
  exists imp, pr, ac. split; [done|]. split; [done|]. split; [done|].
  destruct Hgi as (_ & _ & -> & _). split; [done|].
  eapply sorted_lt_sublist; [apply sublist_filter | apply range_sorted].
Qed.

Lemma reached_sets a T0 sch s0 grads s T g :
  valid_args a →
  init a T0 = Ok (sch, s0) →
  run sch grads (s0, T0) = Ok (s, T) →
  g ∈ param_groups sch →
  ∃ imp pr ac,
    important_idxes s !! group_id g = Some imp ∧
    pruned_idxes s !! group_id g = Some pr ∧
    active_redundant_idxes s !! group_id g = Some ac ∧
    group_inv sch (pruned_group_idx_by_cluster s) g imp (pr ++ ac).
Proof.
  intros Hva Hinit Hrun Hg.
  destruct (run_from_init _ _ _ _ _ a T0 sch s0 grads s T Hva Hinit Hrun)
    as [_ Hinv].
  destruct (Hinv g Hg) as (imp & pr & ac & Hsets & Hgi).
  apply sets_at_inv in Hsets as (Hi & Hp & Ha). eauto 10.
Qed.

Lemma untouched_sets sch pbc g imp pr ac :
  group_inv sch pbc g imp (pr ++ ac) → pr ++ ac = [] →
  imp = Py.range (num_groups g) ∧ pr = [] ∧ ac = [].
Proof.
  intros (_ & _ & -> & _) Hnil. rewrite Hnil, filter_notin_nil.
  by apply app_eq_nil in Hnil as [-> ->].
Qed.

(** X2.  A group that is not prunable, or is auxiliary, keeps its full
    range important and is never pruned, after construction and after
    every step. *)
Theorem ineligible_group_never_pruned a T0 sch s0 grads s T g :
  valid_args a →
  init a T0 = Ok (sch, s0) →
  run sch grads (s0, T0) = Ok (s, T) →
  g ∈ param_groups sch →
  eligible g = false →
  important_idxes s !! group_id g = Some (Py.range (num_groups g)) ∧
  pruned_idxes s !! group_id g = Some [] ∧
  active_redundant_idxes s !! group_id g = Some [].
Proof.
  intros Hva Hinit Hrun Hg Hel.
  destruct (reached_sets a T0 sch s0 grads s T g Hva Hinit Hrun Hg)
    as (imp & pr & ac & Hi & Hp & Ha & Hgi).
  destruct (untouched_sets _ _ _ _ _ _ Hgi) as (-> & -> & ->); [|done].
  destruct Hgi as (_ & _ & _ & Hne & _). by apply Hne.
Qed.

(** X3.  A group none of whose tensor names contains the name of a
    cluster of the target dictionary (the text "overall" for a scalar
    target) is in no cluster and is never pruned. *)
Theorem unmatched_group_never_pruned a T0 sch s0 grads s T g :
  valid_args a →
  init a T0 = Ok (sch, s0) →
  run sch grads (s0, T0) = Ok (s, T) →
  g ∈ param_groups sch →
  (∀ c, c ∈ (make_target_group_sparsity (arg_target_group_sparsity a)).*1 →
        in_cluster c g = false) →
  important_idxes s !! group_id g = Some (Py.range (num_groups g)) ∧
  pruned_idxes s !! group_id g = Some [] ∧
  active_redundant_idxes s !! group_id g = Some [].
Proof.
  intros Hva Hinit Hrun Hg Hno.
  destruct (reached_sets a T0 sch s0 grads s T g Hva Hinit Hrun Hg)
    as (imp & pr & ac & Hi & Hp & Ha & Hgi).
  destruct (untouched_sets _ _ _ _ _ _ Hgi) as (-> & -> & ->); [|done].
  destruct Hgi as (_ & _ & _ & _ & _ & Hlink).
  destruct (pr ++ ac) as [|i l] eqn:Hgone; [done|]. exfalso.
  destruct (Hlink i) as (c & gs & l' & start & Hc & Hgs & _); [by left|].
  apply init_shape in Hinit as (fm & sm & dm & wd & _ & Hcl & _).
  rewrite Hcl in Hc. apply elem_of_make_clusters in Hc as [Hname ->].
  apply list_elem_of_filter in Hgs as [Hm _].
  apply andb_prop_elim in Hm as [_ Hm]. apply Is_true_true in Hm.
  rewrite (Hno c Hname) in Hm. discriminate.
Qed.

(** X4.  Committing twice is committing once: on a state reached by a
    run, a second [commit_redundant_idxes] changes nothing. *)
Theorem commit_twice a T0 sch s0 grads s T s1 :
  valid_args a →
  init a T0 = Ok (sch, s0) →
  run sch grads (s0, T0) = Ok (s, T) →
  commit_redundant_idxes sch s = Ok s1 →
  commit_redundant_idxes sch s1 = Ok s1.
Proof.
  intros Hva Hinit Hrun Hc.
  destruct (run_from_init _ _ _ _ _ a T0 sch s0 grads s T Hva Hinit Hrun)
    as [Hwf Hinv].
  apply commit_redundant_idxes_spec in Hc as (Hinv1 & Hcom & _);
    [|by apply wf_ids|done].
  unfold commit_redundant_idxes.
  assert (Hsub : ∀ g, g ∈ param_groups sch → g ∈ param_groups sch) by done.
  revert Hsub. generalize (param_groups sch) at 1 3 as l.
  induction l as [|g l IH]; intros Hsub; simpl; [done|].
  assert (Hg : g ∈ param_groups sch) by (apply Hsub; by left).
  assert (Hstep : commit_group g s1 = Ok s1).
  { unfold commit_group. destruct (eligible g); [|done].
    destruct (Hinv1 g Hg) as (imp & pr & ac & Hsets & Hgi).
    apply sets_at_inv in Hsets as (Hi & Hp & Ha).
    rewrite (Hcom g Hg) in Ha. inversion Ha; subst ac.
    unfold getitem. rewrite Hp, (Hcom g Hg). simpl.
    destruct Hgi as (_ & _ & Himp & _).
    rewrite <- Himp, app_nil_r. f_equal.
    rewrite (insert_id _ _ _ Hi), (insert_id _ _ _ Hp),
      (insert_id _ _ _ (Hcom g Hg)).
    by destruct s1. }
  rewrite Hstep. simpl. apply IH. intros g' Hg'. apply Hsub. by right.
Qed.

End InvariantConsequences.

(** ** The scheduler's counters *)

(** The fields that commit leaves alone. *)
Lemma commit_group_frame g s s' :
  commit_group g s = Ok s' →
  num_steps s' = num_steps s ∧
  curr_pruning_period s' = curr_pruning_period s ∧
  target_num_redundant_groups s' = target_num_redundant_groups s ∧
  curr_num_zero_groups s' = curr_num_zero_groups s ∧
  pruned_group_idx_by_cluster s' = pruned_group_idx_by_cluster s.
Proof.
  unfold commit_group. destruct (eligible g).
  - intros H. apply bind_Ok in H as (pr & _ & H).
    apply bind_Ok in H as (ac & _ & H). by inversion H.
  - intros H. by inversion H.
Qed.

Lemma commit_redundant_idxes_frame sch s s' :
  commit_redundant_idxes sch s = Ok s' →
  num_steps s' = num_steps s ∧
  curr_pruning_period s' = curr_pruning_period s ∧
  target_num_redundant_groups s' = target_num_redundant_groups s ∧
  curr_num_zero_groups s' = curr_num_zero_groups s ∧
  pruned_group_idx_by_cluster s' = pruned_group_idx_by_cluster s.
Proof.
  unfold commit_redundant_idxes. intros H.
  eapply (for_each_inv
            (λ s1, num_steps s1 = num_steps s ∧
                   curr_pruning_period s1 = curr_pruning_period s ∧
                   target_num_redundant_groups s1
                   = target_num_redundant_groups s ∧
                   curr_num_zero_groups s1 = curr_num_zero_groups s ∧
                   pruned_group_idx_by_cluster s1
                   = pruned_group_idx_by_cluster s));
    [done | | exact H].
  intros g s1 s2 _ (H1 & H2 & H3 & H4 & H5) Hb.
  apply commit_group_frame in Hb as (-> & -> & -> & -> & ->). done.
Qed.

Lemma refine_group_frame sch top g s s' :
  refine_group sch top g s = Ok s' →
  num_steps s' = num_steps s ∧
  curr_pruning_period s' = curr_pruning_period s ∧
  curr_num_zero_groups s' = curr_num_zero_groups s.
Proof.
  unfold refine_group. destruct (eligible g); [|by inversion 1].
  intros H. apply bind_Ok in H as (start & _ & H).
  apply bind_Ok in H as (imp & _ & H).
  apply bind_Ok in H as ([[ac pm] delta] & _ & H).
  apply bind_Ok in H as (pr & _ & H). by inversion H.
Qed.

Lemma identify_redundant_groups_frame sch s s' :
  identify_redundant_groups sch s = Ok s' →
  num_steps s' = num_steps s ∧
  curr_pruning_period s' = curr_pruning_period s ∧
  curr_num_zero_groups s' = curr_num_zero_groups s.
Proof.
  unfold identify_redundant_groups. intros H.
  eapply (for_each_inv
            (λ s1, num_steps s1 = num_steps s ∧
                   curr_pruning_period s1 = curr_pruning_period s ∧
                   curr_num_zero_groups s1 = curr_num_zero_groups s));
    [done | | exact H].
  intros c s1 s2 _ (H1 & H2 & H3) Hb. unfold identify_cluster in Hb.
  apply bind_Ok in Hb as (scores & _ & Hb).
  case_decide; [by inversion Hb; subst|].
  apply bind_Ok in Hb as (quotas & _ & Hb).
  apply bind_Ok in Hb as (quota & _ & Hb).
  apply bind_Ok in Hb as (l0 & _ & Hb).
  apply bind_Ok in Hb as (top & _ & Hb).
  eapply (for_each_inv
            (λ s3, num_steps s3 = num_steps s ∧
                   curr_pruning_period s3 = curr_pruning_period s ∧
                   curr_num_zero_groups s3 = curr_num_zero_groups s));
    [| | exact Hb]; [done|].
  intros g s3 s4 _ (H1' & H2' & H3') Hr.
  apply refine_group_frame in Hr as (-> & -> & ->). done.
Qed.

Section ClockFacts.

Context (DEFAULT_OPT_PARAMS : gmap string opt_defaults)
        (overall_importance_score : tensors → param_group → list Q)
        (count_zero_groups : list param_group → tensors → Z)
        (tensor_transformation :
           list bool → TensorTransform → Z → Z → list bool)
        (Qsqrt : Q → Q).

Local Abbreviation init := (init DEFAULT_OPT_PARAMS count_zero_groups).
Local Abbreviation select_round := (select_round overall_importance_score).
Local Abbreviation step :=
  (step overall_importance_score count_zero_groups tensor_transformation
        Qsqrt).
Local Abbreviation run :=
  (run overall_importance_score count_zero_groups tensor_transformation
       Qsqrt).

(** A selection round advances the period counter by one; it runs only
    while the counter is below the period count. *)
Lemma select_round_clock sch T s s' :
  select_round sch T s = Ok s' →
  num_steps s' = num_steps s ∧
  curr_num_zero_groups s' = curr_num_zero_groups s ∧
  (s' = s ∨
   (curr_pruning_period s < pruning_periods sch ∧
    curr_pruning_period s' = curr_pruning_period s + 1)).
Proof.
  unfold select_round.
  destruct (start_pruning_step sch <=? num_steps s); simpl;
    [|intros H; inversion H; subst; auto].
  destruct (negb (reach_target_group_sparsity s)); simpl;
    [|intros H; inversion H; subst; auto].
  destruct (Z.ltb_spec (curr_pruning_period s) (pruning_periods sch))
    as [Hlt|_]; [|intros H; inversion H; subst; auto].
  intros H. apply bind_Ok in H as (r & _ & H).
  destruct (r =? 0); [|inversion H; subst; auto].
  apply bind_Ok in H as (s1 & H1 & H).
  apply commit_redundant_idxes_frame in H1 as (E1 & E2 & _ & E4 & _).
  apply bind_Ok in H as (s2 & H2 & H).
  apply identify_redundant_groups_frame in H2 as (F1 & F2 & F3).
  destruct (compute_importance_scores_spec overall_importance_score
              sch T s1) as (_ & _ & _ & _ & G1 & G2 & G3 & _).
  inversion H; subst s'; clear H. simpl.
  split; [congruence|]. split; [congruence|]. right.
  split; [done|]. congruence.
Qed.

(** The counters across one step. *)
Lemma step_clock sch s T s' T' :
  step sch (s, T) = Ok (s', T') →
  num_steps s' = num_steps s + 1 ∧
  curr_pruning_period s ≤ curr_pruning_period s'
    ≤ curr_pruning_period s + 1 ∧
  (curr_pruning_period s ≤ pruning_periods sch →
   curr_pruning_period s' ≤ pruning_periods sch) ∧
  curr_num_zero_groups s' = count_zero_groups (param_groups sch) T'.
Proof.
  unfold step. simpl. intros H.
  apply bind_Ok in H as (s1 & H1 & H).
  apply select_round_clock in H1 as (N1 & _ & Hsel). simpl in N1.
  apply bind_Ok in H as (t & _ & H).
  apply bind_Ok in H as (T1 & _ & H).
  apply bind_Ok in H as (s2 & H2 & H).
  assert (E : num_steps s2 = num_steps s1 ∧
              curr_pruning_period s2 = curr_pruning_period s1).
  { unfold end_of_period_commit in H2. destruct (_ && _).
    - by apply commit_redundant_idxes_frame in H2 as (-> & -> & _).
    - by inversion H2. }
  destruct E as [E1 E2]. inversion H; subst s' T'; clear H. simpl.
  rewrite E1, E2, N1.
  destruct Hsel as [->|[Hlt ->]]; simpl in *; repeat split; lia.
Qed.

(** X5.  A step advances the step counter by exactly one, and the period
    counter by at most one and never beyond the period count; the
    zero-group count it leaves is the one measured on the updated
    tensors. *)
Theorem step_counters sch s T s' T' :
  step sch (s, T) = Ok (s', T') →
  num_steps s' = num_steps s + 1 ∧
  curr_pruning_period s ≤ curr_pruning_period s'
    ≤ curr_pruning_period s + 1 ∧
  (curr_pruning_period s ≤ pruning_periods sch →
   curr_pruning_period s' ≤ pruning_periods sch) ∧
  curr_num_zero_groups s' = count_zero_groups (param_groups sch) T'.
Proof. apply step_clock. Qed.

Lemma init_clock a T sch s :
  init a T = Ok (sch, s) →
  num_steps s = 0 ∧ curr_pruning_period s = 0 ∧
  curr_num_zero_groups s = count_zero_groups (param_groups sch) T.
Proof.
  unfold init. intros H.
  destruct (Qltb _ _); [discriminate|].
  repeat (apply bind_Ok in H as (? & _ & H)).
  by inversion H.
Qed.

(** The counters along a run. *)
Lemma run_clock sch grads s1 T1 s T :
  run sch grads (s1, T1) = Ok (s, T) →
  0 ≤ curr_pruning_period s1 ≤ pruning_periods sch →
  num_steps s = num_steps s1 + Z.of_nat (length grads) ∧
  0 ≤ curr_pruning_period s ≤ pruning_periods sch.
Proof.
  revert s1 T1.
  induction grads as [|gr grads IH]; intros s1 T1 H Hb; simpl in H.
  - inversion H; subst. simpl. split; [lia|done].
  - apply bind_Ok in H as ([s2 T2] & H1 & H).
    apply step_clock in H1 as (E1 & E2 & E3 & _).
    apply IH in H as [F1 F2]; [|lia].
    split; [|done]. rewrite F1, E1. simpl length. lia.
Qed.

(** X6.  Along a run from the constructor the step counter is the number
    of steps taken, and the period counter, which counts the selection
    rounds, stays between 0 and the period count. *)
Theorem run_counters a T0 sch s0 grads s T :
  init a T0 = Ok (sch, s0) →
  run sch grads (s0, T0) = Ok (s, T) →
  num_steps s = Z.of_nat (length grads) ∧
  0 ≤ curr_pruning_period s ≤ pruning_periods sch.
Proof.
  intros Hinit Hrun.
  pose proof (init_periods_positive _ _ _ _ _ _ Hinit) as Hpos.
  apply init_clock in Hinit as (Hn & Hc & _).
  destruct (run_clock _ _ _ _ _ _ Hrun) as [G1 G2]; [lia|].
  split; [lia|done].
Qed.

(** X7.  Before [start_pruning_step] a step changes nothing of the
    bookkeeping but the step counter and the measured zero-group count:
    no selection, no commit. *)
Theorem step_before_start sch s T s' T' :
  num_steps s + 1 < start_pruning_step sch →
  step sch (s, T) = Ok (s', T') →
  s' = set_curr_num_zero_groups (count_zero_groups (param_groups sch) T')
         (set_num_steps (num_steps s + 1) s).
Proof.
  intros Hlt. unfold step, select_round, end_of_period_commit. simpl.
  assert (Hb : (start_pruning_step sch <=? num_steps s + 1) = false)
    by lia.
  rewrite Hb. simpl. rewrite Hb. simpl. intros H.
  apply bind_Ok in H as (t & _ & H).
  apply bind_Ok in H as (T1 & _ & H).
  by inversion H.
Qed.

(** When a selection round runs, and what it leaves otherwise. *)
Lemma select_round_fires sch T s s' :
  select_round sch T s = Ok s' →
  (start_pruning_step sch ≤ num_steps s ∧
   curr_num_zero_groups s < target_num_redundant_groups s ∧
   curr_pruning_period s < pruning_periods sch ∧
   (num_steps s - start_pruning_step sch - 1)
     mod pruning_period_duration sch = 0 ∧
   curr_pruning_period s' = curr_pruning_period s + 1) ∨
  (¬ (start_pruning_step sch ≤ num_steps s ∧
      curr_num_zero_groups s < target_num_redundant_groups s ∧
      curr_pruning_period s < pruning_periods sch ∧
      (num_steps s - start_pruning_step sch - 1)
        mod pruning_period_duration sch = 0) ∧
   s' = s).
Proof.
  unfold select_round, reach_target_group_sparsity.
  rewrite negb_involutive.
  destruct (Z.leb_spec (start_pruning_step sch) (num_steps s))
    as [Hs|Hs]; simpl;
    [|intros E; inversion E; subst; right; split; [lia|done]].
  destruct (Z.ltb_spec (curr_num_zero_groups s)
              (target_num_redundant_groups s)) as [Hz|Hz]; simpl;
    [|intros E; inversion E; subst; right; split; [lia|done]].
  destruct (Z.ltb_spec (curr_pruning_period s) (pruning_periods sch))
    as [Hp|Hp];
    [|intros E; inversion E; subst; right; split; [lia|done]].
  unfold Py.mod_. destruct (_ =? 0); [discriminate|]. simpl.
  destruct (Z.eqb_spec
              ((num_steps s - start_pruning_step sch - 1)
                 mod pruning_period_duration sch) 0) as [Hr|Hr];
    [|intros E; inversion E; subst; right; split; [lia|done]].
  intros E. left.
  apply bind_Ok in E as (s1 & H1 & E).
  apply bind_Ok in E as (s2 & H2 & E).
  apply commit_redundant_idxes_frame in H1 as (_ & E2 & _).
  apply identify_redundant_groups_frame in H2 as (_ & F2 & _).
  destruct (compute_importance_scores_spec overall_importance_score
              sch T s1) as (_ & _ & _ & _ & _ & G2 & _).
  inversion E; subst s'; clear E. simpl.
  repeat split; [lia|lia|lia|done|]. congruence.
Qed.

(** X8.  The period counter advances in a step exactly when the step is
    at or after [start_pruning_step], the zero-group count is below the
    target, periods remain, and the step is the first of a period; in any
    other step the cluster-wide pruned lists and the target stay as they
    are. *)
Theorem selection_round_timing sch s T s' T' :
  step sch (s, T) = Ok (s', T') →
  (curr_pruning_period s' = curr_pruning_period s + 1 ↔
   start_pruning_step sch ≤ num_steps s + 1 ∧
   curr_num_zero_groups s < target_num_redundant_groups s ∧
   curr_pruning_period s < pruning_periods sch ∧
   (num_steps s + 1 - start_pruning_step sch - 1)
     mod pruning_period_duration sch = 0) ∧
  (curr_pruning_period s' ≠ curr_pruning_period s + 1 →
   curr_pruning_period s' = curr_pruning_period s ∧
   pruned_group_idx_by_cluster s' = pruned_group_idx_by_cluster s ∧
   target_num_redundant_groups s' = target_num_redundant_groups s).
Proof.
  unfold step. simpl. intros H.
  apply bind_Ok in H as (s1 & H1 & H).
  apply select_round_fires in H1. simpl in H1.
  apply bind_Ok in H as (t & _ & H).
  apply bind_Ok in H as (T1 & _ & H).
  apply bind_Ok in H as (s2 & H2 & H).
  assert (E : curr_pruning_period s2 = curr_pruning_period s1 ∧
              pruned_group_idx_by_cluster s2
              = pruned_group_idx_by_cluster s1 ∧
              target_num_redundant_groups s2
              = target_num_redundant_groups s1).
  { unfold end_of_period_commit in H2. destruct (_ && _).
    - by apply commit_redundant_idxes_frame in H2 as (_ & -> & -> & _ & ->).
    - by inversion H2. }
  destruct E as (E1 & E2 & E3). inversion H; subst s' T'; clear H. simpl.
  rewrite E1, E2, E3.
  destruct H1 as [(G1 & G2 & G3 & G4 & G5)|[Hn ->]]; simpl.
  - rewrite G5. split; [tauto|]. intros Hne. done.
  - split; [|done]. split; [lia|tauto].
Qed.

(** X9.  The step that ends a period, at or after [start_pruning_step],
    leaves no active-redundant index in any group: the period's selection
    is committed. *)
Theorem period_end_commits a T0 sch s0 grads s T gr s' T' :
  valid_args a →
  init a T0 = Ok (sch, s0) →
  run sch grads (s0, T0) = Ok (s, T) →
  step sch (s, set_grad gr T) = Ok (s', T') →
  start_pruning_step sch ≤ num_steps s + 1 →
  (num_steps s + 1 - start_pruning_step sch)
    mod pruning_period_duration sch = pruning_period_duration sch - 1 →
  committed sch s'.
Proof.
  intros Hva Hinit Hrun Hstep Hs Ht.
  destruct (run_from_init _ _ _ _ _ a T0 sch s0 grads s T Hva Hinit Hrun)
    as [Hwf Hinv].
  revert Hstep. unfold step. simpl. intros H.
  apply bind_Ok in H as (s1 & H1 & H).
  pose proof (select_round_clock _ _ _ _ H1) as (N1 & _). simpl in N1.
  apply (select_round_spec overall_importance_score) in H1 as [Hi1 _];
    [|done|].
  2:{ intros g Hg. destruct (Hinv g Hg) as (imp & pr & ac & Hsets & Hgi).
      by exists imp, pr, ac. }
  apply bind_Ok in H as (t & Ht' & H).
  apply bind_Ok in H as (T1 & _ & H).
  apply bind_Ok in H as (s2 & H2 & H).
  unfold Py.mod_ in Ht'. destruct (_ =? 0); [discriminate|].
  inversion Ht' as [Ht'']; clear Ht'. rewrite N1 in Ht''.
  unfold end_of_period_commit in H2. rewrite N1 in H2.
  destruct (Z.leb_spec (start_pruning_step sch) (num_steps s + 1))
    as [_|Hlt]; [|lia].
  destruct (Z.eqb_spec t (pruning_period_duration sch - 1)) as [_|Hne];
    [|lia].
  simpl in H2.
  apply commit_redundant_idxes_spec in H2 as (_ & Hc & _);
    [|apply (wf_ids sch Hwf)|done].
  inversion H; subst s' T'; clear H.
  intros g Hg. simpl. by apply Hc.
Qed.

(** X10.  With a period length of zero, which the constructor stores
    when [pruning_steps] is non-negative and below the period count, every
    call of [step] raises [ZeroDivisionError]: the modulo of the second
    pass is evaluated on all paths. *)
Theorem step_zero_duration a T0 sch s0 st :
  init a T0 = Ok (sch, s0) →
  0 ≤ arg_pruning_steps a < Z.max 1 (arg_pruning_periods a) →
  step sch st = Raise ZeroDivisionError.
Proof.
  intros Hinit Hsteps.
  apply init_Ok in Hinit as (_ & Hd & _).
  rewrite Z.div_small in Hd by done.
  unfold step, select_round, Py.mod_. rewrite Hd. simpl.
  destruct (_ && _); reflexivity.
Qed.

End ClockFacts.

(** ** The constructor *)

(** The loop of lines 116-124 after [k] periods that are not the last. *)
Lemma make_quotas_prefix target periods (k : nat) :
  Z.of_nat k ≤ periods - 1 →
  ∃ m : gmap Z Z,
    foldl (λ '(m, groups_sum) p,
             if p =? periods - 1
             then (<[p := target - groups_sum]> m, groups_sum)
             else (<[p := target / periods]> m,
                   groups_sum + target / periods))
          (∅, 0) (seqZ 0 (Z.of_nat k))
    = (m, Z.of_nat k * (target / periods)) ∧
    ∀ p, m !! p = if decide (0 ≤ p < Z.of_nat k)
                  then Some (target / periods) else None.
Proof.
  induction k as [|k IH]; intros Hk.
  - exists ∅. split; [done|]. intros p. rewrite lookup_empty.
    case_decide; [lia|done].
  - destruct IH as (m & Hm & Hl); [lia|].
    rewrite seqZ_S, foldl_app, Hm. simpl.
    destruct (Z.eqb_spec (0 + Z.of_nat k) (periods - 1)) as [|_]; [lia|].
    eexists. split; [f_equal; lia|]. intros p.
    destruct (decide (p = 0 + Z.of_nat k)) as [->|Hne].
    + rewrite lookup_insert_eq. case_decide; [done|lia].
    + rewrite lookup_insert_ne by done. rewrite Hl.
      repeat case_decide; (done || lia).
Qed.

Lemma range_snoc periods :
  1 ≤ periods →
  Py.range periods
  = seqZ 0 (Z.of_nat (Z.to_nat (periods - 1))) ++ [periods - 1].
Proof.
  intros Hp. unfold Py.range.
  replace periods with (Z.of_nat (S (Z.to_nat (periods - 1)))) at 1 by lia.
  rewrite seqZ_S. f_equal. f_equal. lia.
Qed.

Lemma make_quotas_lookup target periods p :
  1 ≤ periods →
  make_quotas target periods !! p
  = if decide (0 ≤ p < periods - 1) then Some (target / periods)
    else if decide (p = periods - 1)
         then Some (target - (periods - 1) * (target / periods))
         else None.
Proof.
  intros Hp. unfold make_quotas.
  rewrite range_snoc, foldl_app by done.
  destruct (make_quotas_prefix target periods (Z.to_nat (periods - 1)))
    as (m & Hm & Hl); [lia|].
  rewrite Hm. simpl.
  rewrite Z.eqb_refl. simpl. rewrite Z2Nat.id by lia.
  destruct (decide (p = periods - 1)) as [->|Hne].
  - rewrite lookup_insert_eq. repeat case_decide; (done || lia).
  - rewrite lookup_insert_ne by lia. rewrite Hl.
    rewrite Z2Nat.id by lia. repeat case_decide; (done || lia).
Qed.

(** The quotas of a cluster in closed form. *)
Lemma make_quotas_spec target periods :
  1 ≤ periods →
  (∀ p, 0 ≤ p < periods - 1 →
        make_quotas target periods !! p = Some (target / periods)) ∧
  make_quotas target periods !! (periods - 1)
  = Some (target - (periods - 1) * (target / periods)) ∧
  (∀ p, is_Some (make_quotas target periods !! p) ↔ 0 ≤ p < periods) ∧
  foldr (λ p acc, default 0 (make_quotas target periods !! p) + acc)
        0 (Py.range periods) = target ∧
  (0 ≤ target →
   ∀ p q, make_quotas target periods !! p = Some q → 0 ≤ q).
Proof.
  intros Hp.
  assert (H1 : ∀ p, 0 ≤ p < periods - 1 →
                    make_quotas target periods !! p
                    = Some (target / periods)).
  { intros p Hr. rewrite make_quotas_lookup by done.
    case_decide; [done|lia]. }
  assert (H2 : make_quotas target periods !! (periods - 1)
               = Some (target - (periods - 1) * (target / periods))).
  { rewrite make_quotas_lookup by done.
    case_decide; [lia|]. case_decide; [done|lia]. }
  split; [exact H1|]. split; [exact H2|]. split; [|split].
  - intros p. rewrite make_quotas_lookup by done.
    repeat case_decide; split; intros Hx;
      first [lia | by eexists | by destruct Hx].
  - rewrite range_snoc, foldr_app by done.
    simpl. rewrite H2. simpl.
    assert (G : ∀ (k : nat) acc,
               Z.of_nat k ≤ periods - 1 →
               foldr (λ p acc, default 0 (make_quotas target periods !! p)
                               + acc) acc (seqZ 0 (Z.of_nat k))
               = Z.of_nat k * (target / periods) + acc).
    { induction k as [|k IH]; intros acc Hk; [simpl; lia|].
      rewrite seqZ_S, foldr_app. simpl. rewrite H1 by lia. simpl.
      rewrite IH by lia. lia. }
    rewrite G by lia. rewrite Z2Nat.id by lia. lia.
  - intros Ht p q. rewrite make_quotas_lookup by done.
    pose proof (Z.div_pos target periods Ht ltac:(lia)).
    pose proof (Z.mul_div_le target periods ltac:(lia)).
    repeat case_decide; intros E; inversion E; subst; nia.
Qed.

(** X11.  The per-period quotas of a cluster (lines 116-124): every
    period but the last receives [target // periods], the last receives
    the rest, there is no other entry, and the quotas add up to the
    target; for a non-negative target no quota is negative. *)
Theorem quotas_sum_to_target target periods :
  1 ≤ periods →
  (∀ p, 0 ≤ p < periods - 1 →
        make_quotas target periods !! p = Some (target / periods)) ∧
  make_quotas target periods !! (periods - 1)
  = Some (target - (periods - 1) * (target / periods)) ∧
  (∀ p, is_Some (make_quotas target periods !! p) ↔ 0 ≤ p < periods) ∧
  foldr (λ p acc, default 0 (make_quotas target periods !! p) + acc)
        0 (Py.range periods) = target ∧
  (0 ≤ target →
   ∀ p q, make_quotas target periods !! p = Some q → 0 ≤ q).
Proof. apply make_quotas_spec. Qed.

(** [int] of a non-negative rational below an integer. *)
Lemma int_bounds (x : Q) (n : Z) :
  (0 <= x)%Q → (x <= inject_Z n)%Q →
  0 ≤ Py.int x ≤ n.
Proof.
  unfold Py.int, Qle, inject_Z. destruct x as [num den]. simpl.
  intros H0 Hn. rewrite Z.mul_1_r in *.
  split.
  - apply Z.quot_pos; lia.
  - apply Z.quot_le_upper_bound; lia.
Qed.

Lemma int_below (x : Q) (n : Z) :
  (0 <= x)%Q → (x < inject_Z n)%Q → Py.int x < n.
Proof.
  unfold Py.int, Qle, Qlt, inject_Z. destruct x as [num den]. simpl.
  intros H0 Hn. rewrite Z.mul_1_r in *.
  apply Z.quot_lt_upper_bound; lia.
Qed.

Lemma make_target_of_cluster_value total s gs :
  make_target_of_cluster total s gs
  = match gs with
    | [] => 0
    | _ => Py.int (inject_Z total * Qmin s (999 # 1000))
    end.
Proof.
  unfold make_target_of_cluster. destruct gs as [|g gs]; [done|]. simpl.
  generalize (Py.int (inject_Z total * Qmin s (999 # 1000))) as v.
  induction gs as [|g' gs IH]; intros v; simpl; [done|]. apply IH.
Qed.

Lemma make_target_of_cluster_bounds total s gs :
  0 ≤ total → (0 <= s)%Q →
  0 ≤ make_target_of_cluster total s gs ≤ total ∧
  (0 < total → make_target_of_cluster total s gs < total).
Proof.
  intros Ht Hs. rewrite make_target_of_cluster_value.
  destruct gs as [|g gs]; [lia|].
  set (x := (inject_Z total * Qmin s (999 # 1000))%Q).
  assert (Hm0 : (0 <= Qmin s (999 # 1000))%Q).
  { apply Q.min_glb; [done|]. unfold Qle. simpl. lia. }
  assert (Hm1 : (Qmin s (999 # 1000) <= 999 # 1000)%Q)
    by apply Q.le_min_r.
  assert (Ht' : (0 <= inject_Z total)%Q).
  { unfold Qle, inject_Z. simpl. lia. }
  assert (Hx0 : (0 <= x)%Q) by (unfold x; nra).
  split.
  - apply int_bounds; [done|]. unfold x. nra.
  - intros Hpos. apply int_below; [done|].
    assert ((0 < inject_Z total)%Q).
    { unfold Qlt, inject_Z. simpl. lia. }
    unfold x. nra.
Qed.

(** X12.  The target of a cluster (lines 101-107) with a non-negative
    sparsity lies between 0 and the cluster's number of groups, and is
    below it when the cluster has any group: the cap 0.999 keeps a cluster
    from being pruned completely. *)
Theorem cluster_target_below_total total s gs :
  0 ≤ total → (0 <= s)%Q →
  0 ≤ make_target_of_cluster total s gs ≤ total ∧
  (0 < total → make_target_of_cluster total s gs < total).
Proof. apply make_target_of_cluster_bounds. Qed.

Lemma foldr_sum_le {A} (f g : A → Z) (l : list A) :
  (∀ x, x ∈ l → f x ≤ g x) →
  foldr (λ x acc, f x + acc) 0 l ≤ foldr (λ x acc, g x + acc) 0 l.
Proof.
  induction l as [|x l IH]; intros H; simpl; [lia|].
  pose proof (H x ltac:(left)).
  pose proof (IH (λ y Hy, H y ltac:(by right))). lia.
Qed.

Lemma foldr_sum_lt {A} (f g : A → Z) (l : list A) :
  (∀ x, x ∈ l → f x ≤ g x) →
  (∀ x, x ∈ l → 0 < g x → f x < g x) →
  (∀ x, x ∈ l → 0 ≤ g x) →
  0 < foldr (λ x acc, g x + acc) 0 l →
  foldr (λ x acc, f x + acc) 0 l < foldr (λ x acc, g x + acc) 0 l.
Proof.
  induction l as [|x l IH]; intros Hle Hlt H0 Hpos; simpl in *; [lia|].
  pose proof (Hle x ltac:(left)). pose proof (H0 x ltac:(left)).
  pose proof (foldr_sum_le f g l (λ y Hy, Hle y ltac:(by right))).
  destruct (decide (0 < g x)) as [Hg|Hg].
  - pose proof (Hlt x ltac:(left) Hg). lia.
  - assert (foldr (λ x acc, f x + acc) 0 l
            < foldr (λ x acc, g x + acc) 0 l); [|lia].
    apply IH; [intros y Hy; apply Hle; by right
              |intros y Hy; apply Hlt; by right
              |intros y Hy; apply H0; by right | lia].
Qed.

Lemma sum_num_groups_nonneg gs :
  Forall (λ g, 0 ≤ num_groups g) gs → 0 ≤ sum_num_groups gs.
Proof.
  unfold sum_num_groups. induction 1 as [|g gs Hg _ IH]; simpl; lia.
Qed.

Section ConstructorFacts.

Context (DEFAULT_OPT_PARAMS : gmap string opt_defaults)
        (count_zero_groups : list param_group → tensors → Z).

Local Abbreviation init := (init DEFAULT_OPT_PARAMS count_zero_groups).


(** What the constructor stores: the totals, the targets and the initial
    state, over the merged groups. *)
Lemma init_tables a T sch s :
  init a T = Ok (sch, s) →
  let cl := prunable_param_group_clusters sch in
  let tgs := make_target_group_sparsity (arg_target_group_sparsity a) in
  total_num_groups sch = make_total_num_groups cl ∧
  total_num_groups_by_clusters sch = make_total_num_groups_by_clusters cl ∧
  target_num_redundant_groups_by_clusters sch
  = foldl (λ m c, <[c.1 := make_target_of_cluster
                             (default 0 (total_num_groups_by_clusters sch
                                         !! c.1))
                             (default 0%Q
                                ((list_to_map tgs : gmap string Q) !! c.1))
                             c.2]> m) ∅ cl ∧
  target_num_redundant_groups s
  = foldr (λ c acc,
             default 0 (target_num_redundant_groups_by_clusters sch !! c.1)
             + acc) 0 cl ∧
  active_num_redundant_groups_by_clusters sch
  = foldl (λ m c,
             <[c.1 := make_quotas
                        (default 0
                           (target_num_redundant_groups_by_clusters sch
                            !! c.1))
                        (pruning_periods sch)]> m) ∅ cl ∧
  pruned_group_idx_by_cluster s = foldl (λ m c, <[c.1 := []]> m) ∅ cl.
Proof.
  unfold init. intros H.
  destruct (Qltb _ _); [discriminate|].
  apply bind_Ok in H as (duration & _ & H).
  apply bind_Ok in H as (fm & _ & H).
  apply bind_Ok in H as (sm & _ & H).
  apply bind_Ok in H as (dm & _ & H).
  apply bind_Ok in H as (wd & _ & H).
  inversion H; subst sch s; clear H. simpl. done.
Qed.

(** X14.  The constructor starts every group, under unique group ids,
    with its whole index range important and nothing pruned or
    active-redundant, and every cluster with an empty pruned list. *)
Theorem init_index_sets a T sch s :
  NoDup (r_id <$> arg_params a) →
  NoDup (make_target_group_sparsity (arg_target_group_sparsity a)).*1 →
  init a T = Ok (sch, s) →
  (∀ g, g ∈ param_groups sch →
        important_idxes s !! group_id g = Some (Py.range (num_groups g)) ∧
        pruned_idxes s !! group_id g = Some [] ∧
        active_redundant_idxes s !! group_id g = Some []) ∧
  (∀ c gs, (c, gs) ∈ prunable_param_group_clusters sch →
           pruned_group_idx_by_cluster s !! c = Some []).
Proof.
  intros Hids Hnames Hinit.
  pose proof (init_tables _ _ _ _ Hinit) as (_ & _ & _ & _ & _ & Hpbc).
  apply init_shape in Hinit
    as (fm & sm & dm & wd & Hgroups & Hcl & Hd & Hi & Hp & Ha).
  set (f := merge_defaults (arg_variant a) (arg_lr a) fm sm dm wd) in *.
  assert (Hgid : NoDup (group_id <$> param_groups sch)).
  { rewrite Hgroups. simpl. rewrite <- list_fmap_compose.
    by rewrite (list_fmap_ext (group_id ∘ f) r_id). }
  split.
  - intros g Hg. rewrite Hi, Hp, Ha. simpl in Hgroups.
    rewrite <- Hgroups.
    rewrite (foldl_insert_lookup group_id
               (λ g, Py.range (num_groups g))) by done.
    by rewrite !(foldl_insert_lookup group_id (λ _, [])).
  - intros c gs Hc. rewrite Hpbc.
    apply (foldl_insert_lookup fst (λ _, []) _ _ (c, gs)); [|done].
    simpl in Hcl. by rewrite Hcl, make_clusters_names.
Qed.

(** X15.  For non-negative sparsities and group counts and distinct
    cluster names, the number of groups the constructor sets out to prune
    lies between 0 and the number of groups in the clusters, and is below
    it when there is any group. *)
Theorem initial_target_within_total a T sch s :
  NoDup (make_target_group_sparsity (arg_target_group_sparsity a)).*1 →
  Forall (λ x, (0 <= x.2)%Q)
         (make_target_group_sparsity (arg_target_group_sparsity a)) →
  Forall (λ r, 0 ≤ r_num_groups r) (arg_params a) →
  init a T = Ok (sch, s) →
  0 ≤ target_num_redundant_groups s ≤ total_num_groups sch ∧
  (0 < total_num_groups sch →
   target_num_redundant_groups s < total_num_groups sch).
Proof.
  intros Hnames Hsp Hng Hinit.
  pose proof (init_tables _ _ _ _ Hinit)
    as (Htot & Htots & Htargets & Htarget & _).
  apply init_shape in Hinit
    as (fm & sm & dm & wd & Hgroups & Hcl & _).
  simpl in *.
  set (tgs := make_target_group_sparsity (arg_target_group_sparsity a))
    in *.
  set (cl := prunable_param_group_clusters sch) in *.
  assert (Hcn : NoDup cl.*1) by (by rewrite Hcl, make_clusters_names).
  assert (Hgn : Forall (λ g, 0 ≤ num_groups g) (param_groups sch)).
  { rewrite Hgroups. apply Forall_fmap.
    eapply Forall_impl; [exact Hng|]. by intros r Hr. }
  assert (Hc : ∀ c, c ∈ cl →
             0 ≤ sum_num_groups c.2 ∧
             ∃ t, target_num_redundant_groups_by_clusters sch !! c.1
                  = Some t ∧
                  0 ≤ t ≤ sum_num_groups c.2 ∧
                  (0 < sum_num_groups c.2 → t < sum_num_groups c.2)).
  { intros c Hc.
    assert (H0 : 0 ≤ sum_num_groups c.2).
    { apply sum_num_groups_nonneg. destruct c as [n gs].
      rewrite Hcl in Hc. apply elem_of_make_clusters in Hc as [_ ->].
      simpl. apply Forall_forall. intros g [_ Hg]%list_elem_of_filter.
      rewrite <- Hgroups in Hg.
      exact (proj1 (Forall_forall _ _) Hgn g Hg). }
    split; [done|].
    rewrite Htargets.
    rewrite (foldl_insert_lookup fst
               (λ c, make_target_of_cluster
                       (default 0 (total_num_groups_by_clusters sch !! c.1))
                       (default 0%Q ((list_to_map tgs : gmap string Q)
                                     !! c.1)) c.2)) by done.
    eexists. split; [done|].
    rewrite Htots. unfold make_total_num_groups_by_clusters.
    rewrite (foldl_insert_lookup fst (λ c, sum_num_groups c.2)) by done.
    simpl. apply make_target_of_cluster_bounds; [done|].
    destruct ((list_to_map tgs : gmap string Q) !! c.1) as [q|] eqn:Hq;
      simpl; [|done].
    apply elem_of_list_to_map_2 in Hq.
    eapply Forall_forall in Hsp; [|exact Hq]. done. }
  rewrite Htarget, Htot. unfold make_total_num_groups.
  assert (Hle : ∀ c, c ∈ cl →
            default 0 (target_num_redundant_groups_by_clusters sch !! c.1)
            ≤ sum_num_groups c.2).
  { intros c Hin. destruct (Hc c Hin) as (_ & t & -> & Ht & _).
    simpl. lia. }
  split; [split|].
  - assert (G : ∀ l : list (string * list param_group),
               (∀ c, c ∈ l → c ∈ cl) →
               0 ≤ foldr (λ c acc,
                            default 0
                              (target_num_redundant_groups_by_clusters sch
                               !! c.1) + acc) 0 l).
    { induction l as [|c l IH]; intros Hsub; simpl; [lia|].
      destruct (Hc c (Hsub c ltac:(left))) as (_ & t & -> & Ht & _).
      pose proof (IH (λ y Hy, Hsub y ltac:(by right))). simpl. lia. }
    by apply G.
  - by apply (foldr_sum_le
                (λ c, default 0
                        (target_num_redundant_groups_by_clusters sch
                         !! c.1))
                (λ c, sum_num_groups c.2)).
  - apply (foldr_sum_lt
             (λ c, default 0
                     (target_num_redundant_groups_by_clusters sch !! c.1))
             (λ c, sum_num_groups c.2)); [done| |].
    + intros c Hin Hpos. destruct (Hc c Hin) as (_ & t & -> & _ & Ht).
      simpl. by apply Ht.
    + intros c Hin. by destruct (Hc c Hin).
Qed.

End ConstructorFacts.

(** ** The selection of one round *)

Lemma insert_by_score_perm x l : Torch.insert_by_score x l ≡ₚ x :: l.
Proof.
  induction l as [|y l IH]; simpl; [done|].
  destruct (Qle_bool x.1 y.1); [done|].
  rewrite IH. apply Permutation_swap.
Qed.

(** The sort of [argsort] is a rearrangement of the positions. *)
Lemma argsort_perm scores :
  Torch.argsort scores ≡ₚ seqZ 0 (Py.len scores).
Proof.
  unfold Torch.argsort.
  assert (G : ∀ l : list (Q * Z),
             foldr Torch.insert_by_score [] l ≡ₚ l).
  { induction l as [|x l IH]; simpl; [done|].
    by rewrite insert_by_score_perm, IH. }
  rewrite G. rewrite snd_zip; [done|].
  rewrite length_seqZ. unfold Py.len. lia.
Qed.

Lemma argsort_NoDup scores : NoDup (Torch.argsort scores).
Proof.
  rewrite argsort_perm. apply sorted_lt_NoDup. apply range_sorted.
Qed.

Lemma elem_of_argsort scores i :
  i ∈ Torch.argsort scores ↔ 0 ≤ i < Py.len scores.
Proof. rewrite argsort_perm. apply elem_of_range. Qed.

Lemma argsort_length scores :
  length (Torch.argsort scores) = length scores.
Proof.
  rewrite argsort_perm, length_seqZ. unfold Py.len. lia.
Qed.

Lemma topk_neg_spec scores k lowest :
  Torch.topk_neg scores k = Ok lowest →
  0 ≤ k ≤ Py.len scores ∧ Py.len lowest = k ∧ NoDup lowest ∧
  ∀ i, i ∈ lowest → 0 ≤ i < Py.len scores.
Proof.
  unfold Torch.topk_neg.
  destruct (Z.ltb_spec k 0) as [|Hk0]; [discriminate|].
  destruct (Z.ltb_spec (Py.len scores) k) as [|Hk1]; [discriminate|].
  simpl. intros H. inversion H; subst lowest; clear H.
  split; [lia|]. split; [|split].
  - unfold Py.len in *. rewrite length_take, argsort_length. lia.
  - eapply sublist_NoDup; [apply argsort_NoDup|apply sublist_take].
  - intros i Hi. apply elem_of_argsort.
    eapply elem_of_sublist; [exact Hi|apply sublist_take].
Qed.

Lemma unique_perm l : NoDup l → Np.unique l ≡ₚ l.
Proof.
  intros Hl. apply NoDup_Permutation; [apply NoDup_unique|done|].
  intros x. apply elem_of_unique.
Qed.

Lemma length_filter_notin_sub (l p : list Z) :
  NoDup l → NoDup p → (∀ x, x ∈ p → x ∈ l) →
  (length (filter (λ x, x ∉ p) l) + length p = length l)%nat.
Proof.
  intros Hl Hp Hsub.
  pose proof (Permutation_length (filter_app_complement (λ x, x ∉ p) l))
    as Hlen.
  rewrite length_app in Hlen. rewrite <- Hlen. f_equal.
  apply Permutation_length. symmetry.
  apply NoDup_Permutation; [by apply NoDup_filter|done|].
  intros x. rewrite list_elem_of_filter. split.
  - intros [Hx _]. destruct (decide (x ∈ p)); [done|]. by destruct Hx.
  - intros Hx. split; [|by apply Hsub]. by intros Hn.
Qed.

Lemma select_top_indices_bound scores pruned quota top :
  0 ≤ quota →
  select_top_indices scores pruned quota = Ok top →
  StronglySorted Z.lt top ∧
  (∀ i, i ∈ top → 0 ≤ i < Py.len scores ∧ i ∉ pruned) ∧
  Py.len top ≤ quota.
Proof.
  intros Hq H.
  apply select_top_indices_by_index in H
    as (lowest & Hl & -> & Hsorted & Hmem).
  apply topk_neg_spec in Hl as (_ & _ & _ & Hrange).
  rewrite slice_to_nonneg by done.
  split; [|split].
  - eapply sorted_lt_sublist; [apply sublist_take|done].
  - intros i Hi.
    assert (Hi' : i ∈ Np.setdiff1d lowest pruned).
    { eapply elem_of_sublist; [exact Hi|apply sublist_take]. }
    apply Hmem in Hi' as [Hi1 Hi2]. split; [by apply Hrange|done].
  - unfold Py.len. rewrite length_take. lia.
Qed.

(** X16.  What one round selects (lines 218-223), for a non-negative
    quota: indices of the score vector in strictly ascending order, none
    of them pruned already, and at most as many as the quota. *)
Theorem select_top_indices_wf scores pruned quota top :
  0 ≤ quota →
  select_top_indices scores pruned quota = Ok top →
  StronglySorted Z.lt top ∧
  (∀ i, i ∈ top → 0 ≤ i < Py.len scores ∧ i ∉ pruned) ∧
  Py.len top ≤ quota.
Proof. apply select_top_indices_bound. Qed.

(** X17.  When every index pruned so far is among the [K] lowest scores
    (and is listed once), the round selects exactly [quota] indices, the
    unpruned ones among the [K] lowest; this is the set that a selection in
    ascending order of score returns, so the two differ in order only. *)
Theorem selection_agrees_when_pruned_lowest scores pruned quota lowest top :
  NoDup pruned → 0 ≤ quota →
  Torch.topk_neg scores (Py.len pruned + quota) = Ok lowest →
  (∀ i, i ∈ pruned → i ∈ lowest) →
  select_top_indices scores pruned quota = Ok top →
  Py.len top = quota ∧
  (∀ i, i ∈ top ↔ i ∈ lowest ∧ i ∉ pruned) ∧
  ∃ by_score, select_by_score scores pruned quota = Ok by_score ∧
              top ≡ₚ by_score.
Proof.
  intros Hp Hq Hl Hsub H.
  pose proof (topk_neg_spec _ _ _ Hl) as (_ & Hlen & Hnd & _).
  unfold select_top_indices in H. unfold select_by_score.
  rewrite Hl in *. simpl in *. inversion H; subst top; clear H.
  pose proof (length_filter_notin_sub lowest pruned Hnd Hp Hsub) as Hcount.
  assert (Hfl : Py.len (filter (λ x, x ∉ pruned) lowest) = quota).
  { unfold Py.len in *. lia. }
  assert (Hperm : Np.setdiff1d lowest pruned
                  ≡ₚ filter (λ x, x ∉ pruned) lowest).
  { apply unique_perm. by apply NoDup_filter. }
  assert (Hul : Py.len (Np.setdiff1d lowest pruned) = quota).
  { unfold Py.len. by rewrite (Permutation_length Hperm). }
  rewrite !slice_to_nonneg by done.
  rewrite !take_ge by (unfold Py.len in *; lia).
  split; [done|]. split.
  - intros i. apply elem_of_setdiff1d.
  - eexists. split; [done|]. exact Hperm.
Qed.

(** ** Gradient variants *)

Lemma enumerate_snoc {A} (l : list A) x :
  enumerate (l ++ [x]) = enumerate l ++ [(length l, x)].
Proof.
  unfold enumerate. rewrite length_app. simpl.
  rewrite Nat.add_1_r, seq_S. simpl.
  rewrite zip_with_app by (by rewrite length_seq). done.
Qed.

Lemma get_first_momentum_grad_frame name fm dm gr T :
  let T' := (get_first_momentum_grad name fm dm gr T).2 in
  data T' = data T ∧ grad T' = grad T ∧ grad_variant T' = grad_variant T.
Proof.
  unfold get_first_momentum_grad.
  destruct (Qltb 0 fm); [|done].
  by destruct (first_moment_grads T !! name).
Qed.

Lemma get_second_momentum_grad_square_frame name sm dm gr T :
  let T' := (get_second_momentum_grad_square name sm dm gr T).2 in
  data T' = data T ∧ grad T' = grad T ∧ grad_variant T' = grad_variant T.
Proof.
  unfold get_second_momentum_grad_square.
  destruct (Qltb 0 sm); [|done].
  by destruct (second_moment_grads T !! name).
Qed.

Section GradVariantFacts.

Context (Qsqrt : Q → Q).

Local Abbreviation grad_variant_param := (grad_variant_param Qsqrt).
Local Abbreviation compute_grad_variant := (compute_grad_variant Qsqrt).

(** One tensor of the inner loop: an entry is written exactly when the
    tensor has a gradient; parameter data and gradients are only read. *)
Lemma grad_variant_param_spec n i g j p_name gv T :
  let r := grad_variant_param n i g (j, p_name) (gv, T) in
  data r.2 = data T ∧ grad r.2 = grad T ∧
  grad_variant r.2 = grad_variant T ∧
  (grad T !! p_name = None → r.1 = gv) ∧
  (is_Some (grad T !! p_name) →
   ∃ x, r.1 = <[p_name := x]> gv).
Proof.
  unfold grad_variant_param.
  destruct (grad T !! p_name) as [gr|] eqn:Hgr; simpl.
  2:{ repeat split; try done; by intros [? [=]]. }
  set (rg := match weight_decay g with
             | Some wd => if negb (String.eqb (variant g) "adamw")
                          then add_ gr (param_data T p_name) wd else gr
             | None => gr
             end).
  destruct (negb (is_adam g)).
  - destruct (Qltb 0 (first_momentum g) || Qltb 0 (dampening g)).
    + pose proof (get_first_momentum_grad_frame (i, j) (first_momentum g)
                    (dampening g) rg T) as (F1 & F2 & F3).
      destruct (get_first_momentum_grad _ _ _ _ _) as [x T1]. simpl in *.
      repeat split; try done. intros _. by eexists.
    + simpl. repeat split; try done. intros _. by eexists.
  - pose proof (get_first_momentum_grad_frame (i, j) (first_momentum g)
                  (first_momentum g) rg T) as (F1 & F2 & F3).
    destruct (get_first_momentum_grad _ _ _ _ _) as [x T1]. simpl in *.
    pose proof (get_second_momentum_grad_square_frame (i, j)
                  (second_momentum g) (second_momentum g) rg T1)
      as (G1 & G2 & G3).
    destruct (get_second_momentum_grad_square _ _ _ _ _) as [y T2].
    simpl in *.
    repeat split; try congruence. intros _. by eexists.
Qed.

(** The inner loop over the tensors of one group. *)
Lemma grad_variant_group_spec n i g (l : list (nat * string)) gv T :
  let r := foldl (λ acc jp, grad_variant_param n i g jp acc) (gv, T) l in
  data r.2 = data T ∧ grad r.2 = grad T ∧
  grad_variant r.2 = grad_variant T ∧
  ∀ name, is_Some (r.1 !! name) ↔
          is_Some (gv !! name) ∨
          (name ∈ l.*2 ∧ is_Some (grad T !! name)).
Proof.
  revert gv T. induction l as [|[j p_name] l IH]; intros gv T.
  - simpl. split; [done|]. split; [done|]. split; [done|].
    intros name. split; [by left|].
    intros [H|[H _]]; [done|]. by apply elem_of_nil in H.
  - cbn [foldl]. rewrite fmap_cons. cbn [snd].
    pose proof (grad_variant_param_spec n i g j p_name gv T)
      as (F1 & F2 & F3 & Fn & Fs).
    destruct (grad_variant_param n i g (j, p_name) (gv, T)) as [gv1 T1].
    cbn [fst snd] in *.
    destruct (IH gv1 T1) as (G1 & G2 & G3 & G4).
    cbv zeta. rewrite G1, G2, G3.
    split; [done|]. split; [done|]. split; [done|].
    intros name. rewrite G4, F2. clear G4.
    destruct (grad T !! p_name) as [gr|] eqn:Hgr.
    + destruct Fs as [x ->]; [by eexists|].
      rewrite lookup_insert_is_Some. rewrite elem_of_cons.
      split.
      * intros [[<-|[_ H]]|[H1 H2]]; [right|by left|right].
        -- split; [by left|]. rewrite Hgr. by eexists.
        -- split; [by right|done].
      * intros [H|[[->|H1] H2]].
        -- destruct (decide (p_name = name)); [left; by left|].
           left. right. done.
        -- left. by left.
        -- right. done.
    + rewrite Fn by done. rewrite elem_of_cons. split.
      * intros [H|[H1 H2]]; [by left|]. right. split; [by right|done].
      * intros [H|[[->|H1] H2]]; [by left| |by right].
        rewrite Hgr in H2. by destruct H2 as [? [=]].
Qed.

(** The loop over a list of groups. *)
Lemma grad_variant_groups_spec n (gs : list param_group) T :
  let T' :=
    foldl (λ T ig,
             let '(gv, T) :=
               foldl (λ acc jp, grad_variant_param n ig.1 ig.2 jp acc)
                     (∅, T) (enumerate (p_names ig.2)) in
             set_grad_variant (<[ig.1 := gv]> (grad_variant T)) T)
          T (enumerate gs) in
  data T' = data T ∧ grad T' = grad T ∧
  (∀ i, (length gs ≤ i)%nat →
        grad_variant T' !! i = grad_variant T !! i) ∧
  ∀ i g, gs !! i = Some g →
         ∃ gv, grad_variant T' !! i = Some gv ∧
               ∀ name, is_Some (gv !! name) ↔
                       name ∈ p_names g ∧ is_Some (grad T !! name).
Proof.
  induction gs as [|g gs IH] using rev_ind; simpl.
  - split; [done|]. split; [done|]. split; [done|].
    intros i g H. by rewrite lookup_nil in H.
  - destruct IH as (I1 & I2 & I3 & I4).
    rewrite enumerate_snoc, foldl_app. simpl.
    set (T1 := foldl _ T (enumerate gs)) in *.
    pose proof (grad_variant_group_spec n (length gs) g
                  (enumerate (p_names g)) ∅ T1) as (F1 & F2 & F3 & F4).
    destruct (foldl _ (∅, T1) (enumerate (p_names g))) as [gv T2].
    simpl in *.
    split; [congruence|]. split; [congruence|]. split.
    + intros i Hi. rewrite length_app in Hi. simpl in Hi.
      rewrite lookup_insert_ne by lia. rewrite F3. apply I3. lia.
    + intros i g' Hi.
      destruct (decide (i = length gs)) as [->|Hne].
      * rewrite lookup_app_r in Hi by done. rewrite Nat.sub_diag in Hi.
        simpl in Hi. inversion Hi; subst g'.
        exists gv. rewrite lookup_insert_eq. split; [done|].
        intros name. rewrite F4, I2. rewrite lookup_empty.
        unfold enumerate. rewrite snd_zip by (by rewrite length_seq).
        split; [intros [[? [=]]|H]; done|]. by right.
      * assert (Hlt : (i < length gs)%nat).
        { apply lookup_lt_Some in Hi. rewrite length_app in Hi.
          simpl in Hi. lia. }
        rewrite lookup_app_l in Hi by done.
        rewrite lookup_insert_ne by done. rewrite F3. by apply I4.
Qed.

(** X18.  [compute_grad_variant] only reads parameter data and
    gradients, and leaves for every group a dictionary with an entry for
    exactly those of its tensors that have a gradient. *)
Theorem grad_variant_entries sch n T i g :
  param_groups sch !! i = Some g →
  data (compute_grad_variant sch n T) = data T ∧
  grad (compute_grad_variant sch n T) = grad T ∧
  ∃ gv, grad_variant (compute_grad_variant sch n T) !! i = Some gv ∧
        ∀ name, is_Some (gv !! name) ↔
                name ∈ p_names g ∧ is_Some (grad T !! name).
Proof.
  intros Hi. unfold compute_grad_variant.
  destruct (grad_variant_groups_spec n (param_groups sch) T)
    as (H1 & H2 & _ & H4).
  split; [done|]. split; [done|]. by apply H4.
Qed.

End GradVariantFacts.

(** ** The update and masking pass *)

Lemma foldl_update_plain g (gv : gmap string tensor) (l : list string) T
  name :
  NoDup l →
  param_data
    (foldl (λ T p_name,
              match gv !! p_name with
              | None => T
              | Some x =>
                  store p_name
                    (add_ (decay_adamw g (param_data T p_name)) x
                          (- lr g)%Q) T
              end) T l) name
  = match gv !! name with
    | Some x =>
        if decide (name ∈ l)
        then add_ (decay_adamw g (param_data T name)) x (- lr g)%Q
        else param_data T name
    | None => param_data T name
    end.
Proof.
  revert T. induction l as [|n l IH]; intros T Hnd; simpl.
  - destruct (gv !! name); [|done].
    destruct (decide (name ∈ [])) as [Hin|_]; [|done].
    by apply elem_of_nil in Hin.
  - apply NoDup_cons in Hnd as [Hn Hnd]. rewrite IH by done.
    destruct (decide (name = n)) as [->|Hne].
    + destruct (gv !! n) as [x|] eqn:Hx; [|done].
      rewrite decide_False by done.
      rewrite decide_True by (by left).
      rewrite param_data_store. by rewrite decide_True.
    + assert (Hsame : param_data
                (match gv !! n with
                 | Some x => store n (add_ (decay_adamw g (param_data T n))
                                           x (- lr g)%Q) T
                 | None => T
                 end) name = param_data T name).
      { destruct (gv !! n); [|done]. rewrite param_data_store.
        by rewrite decide_False. }
      rewrite Hsame. destruct (gv !! name); [|done].
      destruct (decide (name ∈ l)) as [Hin|Hin].
      * by rewrite decide_True by (by right).
      * rewrite decide_False; [done|].
        intros [?|?]%elem_of_cons; done.
Qed.

(** X19.  The update of a group without active-redundant indices (lines
    313-318), for distinct tensor names: a tensor of the group with a
    gradient variant takes one step, decoupled decay first; every other
    tensor keeps its data. *)
Theorem update_plain_effect g gv T name :
  NoDup (p_names g) →
  param_data (update_plain g gv T) name
  = match gv !! name with
    | Some x =>
        if decide (name ∈ p_names g)
        then add_ (decay_adamw g (param_data T name)) x (- lr g)%Q
        else param_data T name
    | None => param_data T name
    end.
Proof. apply foldl_update_plain. Qed.

Lemma param_data_update_unguarded g gv p_name T T' name :
  update_unguarded g gv p_name T = Ok T' →
  name ≠ p_name → param_data T' name = param_data T name.
Proof.
  unfold update_unguarded. intros H Hne.
  apply bind_Ok in H as (x & _ & H). inversion H; subst T'.
  rewrite param_data_store. by rewrite decide_False.
Qed.

Lemma param_data_scale_param b mask f n T T' name :
  scale_param b mask f n T = Ok T' →
  name ≠ n → param_data T' name = param_data T name.
Proof.
  unfold scale_param. intros H Hne.
  apply bind_Ok in H as (x & _ & H). inversion H; subst T'.
  rewrite param_data_store. by rewrite decide_False.
Qed.

Section UpdateFacts.

Context (tensor_transformation :
           list bool → TensorTransform → Z → Z → list bool).

Local Abbreviation update_lora_B := (update_lora_B tensor_transformation).
Local Abbreviation update_active := (update_active tensor_transformation).

Lemma param_data_update_lora_B sch t g gv mask p_name p_tr T T' name :
  update_lora_B sch t g gv mask p_name p_tr T = Ok T' →
  name ≠ p_name →
  name ≠ (Py.split_head "lora_B" p_name ++ "weight")%string →
  name ≠ (Py.split_head "lora_B" p_name ++ "bias")%string →
  param_data T' name = param_data T name.
Proof.
  unfold update_lora_B. intros H N1 N2 N3.
  apply bind_Ok in H as (T1 & H1 & H).
  apply bind_Ok in H as (w & _ & H).
  apply bind_Ok in H as (T2 & H2 & H).
  apply bind_Ok in H as (T3 & H3 & H).
  rewrite <- (param_data_update_unguarded _ _ _ _ _ name H1) by done.
  rewrite <- (param_data_scale_param _ _ _ _ _ _ name H2) by done.
  rewrite <- (param_data_scale_param _ _ _ _ _ _ name H3) by done.
  destruct (data T3 !! _).
  - by rewrite (param_data_scale_param _ _ _ _ _ _ name H).
  - by inversion H.
Qed.

(** X20.  In a group with active-redundant indices and no embedding
    factor (lines 320-343), the pass writes the adapter "up" factors, whose
    names contain "lora_B", and their base weights and biases, and nothing
    else: any other tensor keeps its data, gradient or not. *)
Theorem update_active_writes_adapters_only sch t g gv mask l T T' name :
  update_active sch t g gv mask l T = Ok T' →
  (∀ d, d ∈ l → Py.contains "lora_embedding_B" d.1 = false) →
  (∀ d, d ∈ l → Py.contains "lora_B" d.1 = true →
        name ≠ d.1 ∧
        name ≠ (Py.split_head "lora_B" d.1 ++ "weight")%string ∧
        name ≠ (Py.split_head "lora_B" d.1 ++ "bias")%string) →
  param_data T' name = param_data T name.
Proof.
  revert T. induction l as [|[p_name p_tr] l IH]; intros T H He Hn.
  - by inversion H.
  - simpl in H. apply bind_Ok in H as (T1 & H1 & H).
    pose proof (He (p_name, p_tr) ltac:(by left)) as He0. simpl in He0.
    rewrite He0 in H.
    rewrite (IH T1 H).
    2:{ intros d Hd. apply He. by right. }
    2:{ intros d Hd. apply Hn. by right. }
    destruct (Py.contains "lora_B" p_name) eqn:Hc; [|by inversion H1].
    destruct (Hn (p_name, p_tr)) as (N1 & N2 & N3); [by left|done|].
    by apply (param_data_update_lora_B _ _ _ _ _ _ _ _ _ _ H1).
Qed.

End UpdateFacts.

(** *** The hard zero of committed groups *)

Lemma py_index_spec n i k :
  py_index n i = Ok k → (k < n)%nat ∧ (0 ≤ i → k = Z.to_nat i).
Proof.
  unfold py_index.
  destruct (Z.leb_spec 0 i) as [H0|H0],
    (Z.ltb_spec i (Z.of_nat n)) as [H1|H1]; simpl;
    try (intros E; inversion E; subst; split; lia).
  all: destruct (Z.leb_spec (- Z.of_nat n) i) as [H2|H2],
    (Z.ltb_spec i 0) as [H3|H3]; simpl;
    intros E; inversion E; subst; split; lia.
Qed.

(** Assignment at a list of positions: the length stays, a property that
    the assigned value has and keeps holds at every listed position, and
    holds wherever it held before. *)
Lemma assign_at_spec {A} (P : A → Prop) (a : A → A) (idxes : list Z)
  (l l' : list A) :
  (∀ x, P (a x)) →
  assign_at a idxes l = Ok l' →
  length l' = length l ∧
  (∀ k x, l !! k = Some x → P x → ∃ y, l' !! k = Some y ∧ P y) ∧
  (∀ i, i ∈ idxes → 0 ≤ i →
        ∃ y, l' !! Z.to_nat i = Some y ∧ P y).
Proof.
  intros Ha. unfold assign_at. revert l.
  induction idxes as [|i idxes IH]; intros l H; simpl in H.
  - inversion H; subst l'. split; [done|]. split; [eauto|].
    intros i Hi. by apply elem_of_nil in Hi.
  - apply bind_Ok in H as (l1 & H1 & H).
    apply bind_Ok in H1 as (k & Hk & H1). inversion H1; subst l1; clear H1.
    apply py_index_spec in Hk as [Hlt Hk].
    destruct (IH _ H) as (Hlen & Hkeep & Hnew).
    rewrite length_alter in Hlen. split; [done|]. split.
    + intros j x Hj Hx.
      destruct (decide (j = k)) as [->|Hne].
      * apply (Hkeep k (a x)); [|apply Ha].
        by rewrite list_lookup_alter_eq, Hj.
      * apply (Hkeep j x); [|done].
        by rewrite list_lookup_alter_ne.
    + intros j [->|Hj]%elem_of_cons Hj0; [|by apply Hnew].
      rewrite <- (Hk Hj0).
      destruct (lookup_lt_is_Some_2 l k Hlt) as [x Hx].
      apply (Hkeep k (a x)); [|apply Ha].
      by rewrite list_lookup_alter_eq, Hx.
Qed.

Lemma zero_rows_spec idxes I x x' :
  zero_rows idxes x = Ok x' →
  zero_at idxes x' ∧ (zero_at I x → zero_at I x').
Proof.
  destruct x as [v|m]; simpl; intros H.
  - apply bind_Ok in H as (v' & Hv & H). inversion H; subst x'.
    destruct (assign_at_spec (λ u, u = 0%Q) _ _ _ _ (λ _, eq_refl) Hv)
      as (Hlen & Hkeep & Hnew).
    split; simpl.
    + intros i u Hi Hi0 Hu. destruct (Hnew i Hi Hi0) as (y & Hy & ->).
      congruence.
    + intros Hz i u Hi Hi0 Hu.
      destruct (lookup_lt_is_Some_2 v (Z.to_nat i)) as [w Hw].
      { rewrite <- Hlen. by eapply lookup_lt_Some. }
      destruct (Hkeep _ _ Hw (Hz i w Hi Hi0 Hw)) as (y & Hy & ->).
      congruence.
  - apply bind_Ok in H as (m' & Hm & H). inversion H; subst x'.
    destruct (assign_at_spec (Forall (λ u, u = 0%Q)) _ _ _ _
                (λ row, proj2 (Forall_fmap _ _ row)
                          (Forall_true _ row (λ _, eq_refl))) Hm)
      as (Hlen & Hkeep & Hnew).
    split; simpl.
    + intros i row Hi Hi0 Hr. destruct (Hnew i Hi Hi0) as (y & Hy & Hz).
      congruence.
    + intros Hz i row Hi Hi0 Hr.
      destruct (lookup_lt_is_Some_2 m (Z.to_nat i)) as [w Hw].
      { rewrite <- Hlen. by eapply lookup_lt_Some. }
      destruct (Hkeep _ _ Hw (Hz i w Hi Hi0 Hw)) as (y & Hy & Hy').
      congruence.
Qed.

Lemma assign_at_zero idxes (row row' : list Q) :
  assign_at (λ _, 0%Q) idxes row = Ok row' →
  Forall (λ u, u = 0%Q) row → Forall (λ u, u = 0%Q) row'.
Proof.
  intros H Hz.
  destruct (assign_at_spec (λ u, u = 0%Q) _ _ _ _ (λ _, eq_refl) H)
    as (Hlen & Hkeep & _).
  apply Forall_lookup. intros k y Hy.
  destruct (lookup_lt_is_Some_2 row k) as [x Hx].
  { rewrite <- Hlen. by eapply lookup_lt_Some. }
  destruct (Hkeep k x Hx) as (y' & Hy' & Hz').
  { by eapply Forall_lookup_1 in Hz. }
  congruence.
Qed.

Lemma for_each_collect {A B} (f : A → result B) (l : list A)
  (acc r : list B) :
  for_each l (λ x acc, y ← f x; Ok (acc ++ [y])) acc = Ok r →
  ∃ ys, r = acc ++ ys ∧ Forall2 (λ x y, f x = Ok y) l ys.
Proof.
  revert acc. induction l as [|x l IH]; intros acc H; simpl in H.
  - inversion H; subst r. exists []. by rewrite app_nil_r.
  - apply bind_Ok in H as (acc1 & H1 & H).
    apply bind_Ok in H1 as (y & Hy & H1). inversion H1; subst acc1.
    destruct (IH _ H) as (ys & -> & Hys).
    exists (y :: ys). rewrite <- app_assoc. split; [done|].
    by constructor.
Qed.

Lemma zero_cols_keeps idxes I x x' :
  zero_cols idxes x = Ok x' → zero_at I x → zero_at I x'.
Proof.
  destruct x as [v|m]; simpl; [discriminate|]. intros H Hz.
  apply bind_Ok in H as (m' & Hm & H). inversion H; subst x'; clear H.
  apply for_each_collect in Hm as (ys & -> & Hys). simpl.
  intros i row' Hi Hi0 Hr.
  destruct (Forall2_lookup_r _ _ _ _ _ Hys Hr) as (row & Hrow & Hrr).
  eapply assign_at_zero; [exact Hrr|]. by eapply Hz.
Qed.

Lemma zero_param_spec b idxes name T T' :
  zero_param b idxes name T = Ok T' →
  (∀ I n, zero_at I (param_data T n) → zero_at I (param_data T' n)) ∧
  (b = true → zero_at idxes (param_data T' name)).
Proof.
  unfold zero_param. intros H. apply bind_Ok in H as (x & Hx & H).
  inversion H; subst T'; clear H. split.
  - intros I n Hz. rewrite param_data_store.
    destruct (decide (n = name)) as [->|]; [|done].
    destruct b.
    + destruct (zero_rows_spec idxes I _ _ Hx) as [_ Hk]. by apply Hk.
    + by eapply zero_cols_keeps.
  - intros ->. rewrite param_data_store, decide_True by done.
    by destruct (zero_rows_spec idxes [] _ _ Hx) as [Hn _].
Qed.

Lemma zero_bias_spec idxes name T T' :
  zero_bias idxes name T = Ok T' →
  (∀ I n, zero_at I (param_data T n) → zero_at I (param_data T' n)) ∧
  zero_at idxes (param_data T' name).
Proof.
  unfold zero_bias. destruct (data T !! name) eqn:Hd.
  - intros H. apply zero_param_spec in H as [Hk Hn]. split; [done|].
    by apply Hn.
  - intros H. inversion H; subst T'. split; [done|].
    unfold param_data. rewrite Hd. simpl. intros i u _ _ E.
    by rewrite lookup_nil in E.
Qed.

(** The three assignments of lines 358-386 over dimension 0. *)
Lemma zero_by_rows_spec idxes p_name w_name b_name T T' :
  (T1 ← zero_param true idxes p_name T;
   T2 ← zero_param true idxes w_name T1;
   zero_bias idxes b_name T2) = Ok T' →
  (∀ I n, zero_at I (param_data T n) → zero_at I (param_data T' n)) ∧
  zero_at idxes (param_data T' p_name) ∧
  zero_at idxes (param_data T' w_name) ∧
  zero_at idxes (param_data T' b_name).
Proof.
  intros H. apply bind_Ok in H as (T1 & H1 & H).
  apply bind_Ok in H as (T2 & H2 & H).
  apply zero_param_spec in H1 as [K1 N1].
  apply zero_param_spec in H2 as [K2 N2].
  apply zero_bias_spec in H as [K3 N3].
  split; [|split; [|split]].
  - intros I n Hz. by apply K3, K2, K1.
  - by apply K3, K2, N1.
  - by apply K3, N2.
  - done.
Qed.

Lemma zero_lora_B_spec g pruned p_name p_tr T T' :
  zero_lora_B g pruned p_name p_tr T = Ok T' →
  (∀ I n, zero_at I (param_data T n) → zero_at I (param_data T' n)) ∧
  (p_tr ≠ MULTIHEAD_HEADDIM → p_tr ≠ MULTIHEAD_NUMHEAD →
   p_tr ≠ TRANSPOSE →
   zero_at pruned (param_data T' p_name) ∧
   zero_at pruned
     (param_data T' (Py.split_head "lora_B" p_name ++ "weight")%string) ∧
   zero_at pruned
     (param_data T' (Py.split_head "lora_B" p_name ++ "bias")%string)).
Proof.
  unfold zero_lora_B. intros H. apply bind_Ok in H as (w & _ & H).
  destruct p_tr; simpl in H;
    try (apply zero_by_rows_spec in H as (K & N1 & N2 & N3);
         split; [done|]; by intros).
  destruct (is_matrix (param_data T p_name)).
  - apply bind_Ok in H as (T1 & H1 & H).
    apply zero_param_spec in H1 as [K1 _].
    apply zero_param_spec in H as [K2 _].
    split; [|done]. intros I n Hz. by apply K2, K1.
  - apply zero_by_rows_spec in H as (K & N1 & N2 & N3).
    split; [done|]. done.
Qed.

Lemma zero_lora_embedding_B_spec pruned p_name T T' :
  zero_lora_embedding_B pruned p_name T = Ok T' →
  ∀ I n, zero_at I (param_data T n) → zero_at I (param_data T' n).
Proof.
  unfold zero_lora_embedding_B. intros H.
  apply bind_Ok in H as (w & _ & H).
  apply bind_Ok in H as (T1 & H1 & H).
  apply zero_param_spec in H1 as [K1 _].
  apply zero_param_spec in H as [K2 _].
  intros I n Hz. by apply K2, K1.
Qed.

(** X21.  After the hard zero of a group (lines 356-392), for every
    adapter "up" factor of the group that is masked along dimension 0
    (any transform but the multi-head ones and [TRANSPOSE]): the slices of
    the factor, of its base weight and of its base bias at the pruned
    indices are zero. *)
Theorem hard_zero_rows g pruned T T' p_name p_tr :
  zero_pruned g pruned T = Ok T' →
  (p_name, p_tr) ∈ zip (p_names g) (p_transform g) →
  Py.contains "lora_B" p_name = true →
  p_tr ≠ MULTIHEAD_HEADDIM → p_tr ≠ MULTIHEAD_NUMHEAD →
  p_tr ≠ TRANSPOSE →
  zero_at pruned (param_data T' p_name) ∧
  zero_at pruned
    (param_data T' (Py.split_head "lora_B" p_name ++ "weight")%string) ∧
  zero_at pruned
    (param_data T' (Py.split_head "lora_B" p_name ++ "bias")%string).
Proof.
  unfold zero_pruned. intros H Hin Hc N1 N2 N3.
  set (w := (Py.split_head "lora_B" p_name ++ "weight")%string).
  set (b := (Py.split_head "lora_B" p_name ++ "bias")%string).
  set (body := λ (d : string * TensorTransform) (T : tensors),
         T ← (if Py.contains "lora_B" d.1
              then zero_lora_B g pruned d.1 d.2 T
              else Ok T);
         if Py.contains "lora_embedding_B" d.1
         then zero_lora_embedding_B pruned d.1 T
         else Ok T) in H.
  assert (Hbody : ∀ d T1 T2, body d T1 = Ok T2 →
            (∀ I n, zero_at I (param_data T1 n) →
                    zero_at I (param_data T2 n)) ∧
            (d = (p_name, p_tr) →
             zero_at pruned (param_data T2 p_name) ∧
             zero_at pruned (param_data T2 w) ∧
             zero_at pruned (param_data T2 b))).
  { intros d T1 T2 Hb. unfold body in Hb.
    apply bind_Ok in Hb as (T3 & H3 & Hb).
    assert (K2 : ∀ I n, zero_at I (param_data T3 n) →
                        zero_at I (param_data T2 n)).
    { destruct (Py.contains "lora_embedding_B" d.1).
      - exact (zero_lora_embedding_B_spec _ _ _ _ Hb).
      - by inversion Hb. }
    split.
    - intros I n Hz. apply K2.
      destruct (Py.contains "lora_B" d.1).
      + apply zero_lora_B_spec in H3 as [K _]. by apply K.
      + by inversion H3; subst.
    - intros ->. simpl in H3. rewrite Hc in H3.
      apply zero_lora_B_spec in H3 as [_ N].
      destruct (N N1 N2 N3) as (Z1 & Z2 & Z3).
      split; [|split]; by apply K2. }
  revert Hin.
  eapply (for_each_ind
            (λ pre T1, (p_name, p_tr) ∈ pre →
                       zero_at pruned (param_data T1 p_name) ∧
                       zero_at pruned (param_data T1 w) ∧
                       zero_at pruned (param_data T1 b)) body);
    [| |exact H].
  - intros Hnil. by apply elem_of_nil in Hnil.
  - intros pre x post T1 T2 _ IH Hb Hx.
    apply Hbody in Hb as [K N].
    apply elem_of_app in Hx as [Hx|Hx%list_elem_of_singleton].
    + destruct (IH Hx) as (Z1 & Z2 & Z3). split; [|split]; by apply K.
    + by apply N.
Qed.

(** ** The mask of the decay ramp *)

Lemma commit_group_masks sch g0 s s' :
  masks_agree sch s → commit_group g0 s = Ok s' → masks_agree sch s'.
Proof.
  unfold commit_group. intros Hm H.
  destruct (eligible g0); [|by inversion H; subst].
  apply bind_Ok in H as (pr & _ & H). apply bind_Ok in H as (ac0 & _ & H).
  inversion H; subst s'; clear H.
  intros g ac Hg Ha Hne. simpl in *.
  destruct (decide (group_id g = group_id g0)) as [E|E].
  - rewrite E, lookup_insert_eq in Ha. by inversion Ha; subst.
  - rewrite lookup_insert_ne in Ha by done. by apply Hm.
Qed.

Lemma commit_redundant_idxes_masks sch s s' :
  masks_agree sch s → commit_redundant_idxes sch s = Ok s' →
  masks_agree sch s'.
Proof.
  intros Hm H. unfold commit_redundant_idxes in H.
  eapply (for_each_inv (masks_agree sch)); [exact Hm| |exact H].
  intros g s1 s2 _ H1 H2. by eapply commit_group_masks.
Qed.

Lemma refine_group_masks sch top g0 s s' :
  NoDup (group_id <$> param_groups sch) → g0 ∈ param_groups sch →
  masks_agree sch s → refine_group sch top g0 s = Ok s' →
  masks_agree sch s'.
Proof.
  unfold refine_group. intros Hnd Hg0 Hm H.
  destruct (eligible g0); [|by inversion H; subst].
  apply bind_Ok in H as (start & _ & H).
  apply bind_Ok in H as (imp & _ & H).
  apply bind_Ok in H as ([[ac0 pm] delta] & _ & H).
  apply bind_Ok in H as (pr & _ & H).
  inversion H; subst s'; clear H.
  intros g ac Hg Ha Hne. simpl in *.
  destruct (decide (group_id g = group_id g0)) as [E|E].
  - assert (g = g0) by (by eapply ids_inj). subst g.
    rewrite lookup_insert_eq in Ha. inversion Ha; subst ac.
    by rewrite lookup_insert_eq.
  - rewrite lookup_insert_ne in Ha by done.
    rewrite lookup_insert_ne by done. by apply Hm.
Qed.

Lemma identify_redundant_groups_masks sch s s' :
  well_formed sch → masks_agree sch s →
  identify_redundant_groups sch s = Ok s' → masks_agree sch s'.
Proof.
  intros Hwf Hm H. unfold identify_redundant_groups in H.
  eapply (for_each_inv (masks_agree sch)); [exact Hm| |exact H].
  intros [c gs] s1 s2 Hc H1 Hb. unfold identify_cluster in Hb. simpl in Hb.
  apply bind_Ok in Hb as (scores & _ & Hb).
  case_decide; [by inversion Hb; subst|].
  apply bind_Ok in Hb as (quotas & _ & Hb).
  apply bind_Ok in Hb as (quota & _ & Hb).
  apply bind_Ok in Hb as (l0 & _ & Hb).
  apply bind_Ok in Hb as (top & _ & Hb).
  eapply (for_each_inv (masks_agree sch)); [| |exact Hb]; [exact H1|].
  intros g s3 s4 Hg H3 Hr.
  eapply refine_group_masks; [apply (wf_ids sch Hwf)| |exact H3|exact Hr].
  by eapply (wf_members sch Hwf).
Qed.

Section MaskFacts.

Context (DEFAULT_OPT_PARAMS : gmap string opt_defaults)
        (overall_importance_score : tensors → param_group → list Q)
        (count_zero_groups : list param_group → tensors → Z)
        (tensor_transformation :
           list bool → TensorTransform → Z → Z → list bool)
        (Qsqrt : Q → Q).

Local Abbreviation init := (init DEFAULT_OPT_PARAMS count_zero_groups).
Local Abbreviation compute_importance_scores :=
  (compute_importance_scores overall_importance_score).
Local Abbreviation select_round := (select_round overall_importance_score).
Local Abbreviation step :=
  (step overall_importance_score count_zero_groups tensor_transformation
        Qsqrt).
Local Abbreviation run :=
  (run overall_importance_score count_zero_groups tensor_transformation
       Qsqrt).

Lemma compute_importance_scores_bool sch T s :
  active_redundant_bool (compute_importance_scores sch T s)
  = active_redundant_bool s.
Proof.
  unfold compute_importance_scores.
  change (active_redundant_bool s)
    with (active_redundant_bool (set_cluster_importance_scores ∅ s)).
  generalize (set_cluster_importance_scores ∅ s) as s1.
  induction (prunable_param_group_clusters sch) as [|c cl IH];
    intros s1; simpl; [done|].
  rewrite IH. unfold score_cluster.
  by destruct (foldl _ _ c.2) as [[st sc] gsi].
Qed.

Lemma select_round_masks sch T s s' :
  well_formed sch → masks_agree sch s →
  select_round sch T s = Ok s' → masks_agree sch s'.
Proof.
  intros Hwf Hm. unfold select_round.
  destruct (_ && _); [|by inversion 1; subst].
  intros H. apply bind_Ok in H as (r & _ & H).
  destruct (r =? 0); [|by inversion H; subst].
  apply bind_Ok in H as (s1 & H1 & H).
  apply bind_Ok in H as (s2 & H2 & H).
  inversion H; subst s'; clear H.
  apply commit_redundant_idxes_masks in H1; [|done].
  apply identify_redundant_groups_masks in H2; [by destruct s2|done|].
  intros g ac Hg Ha Hne. rewrite compute_importance_scores_bool.
  destruct (compute_importance_scores_spec overall_importance_score
              sch T s1) as (_ & _ & Ea & _).
  rewrite Ea in Ha. by apply H1.
Qed.

Lemma step_masks sch s T s' T' :
  well_formed sch → masks_agree sch s →
  step sch (s, T) = Ok (s', T') → masks_agree sch s'.
Proof.
  intros Hwf Hm. unfold step. simpl. intros H.
  apply bind_Ok in H as (s1 & H1 & H).
  apply select_round_masks in H1; [|done|by destruct s].
  apply bind_Ok in H as (t & _ & H).
  apply bind_Ok in H as (T1 & _ & H).
  apply bind_Ok in H as (s2 & H2 & H).
  inversion H; subst s' T'; clear H.
  assert (masks_agree sch s2); [|by destruct s2].
  unfold end_of_period_commit in H2. destruct (_ && _).
  - by eapply commit_redundant_idxes_masks.
  - by inversion H2; subst.
Qed.

Lemma run_masks sch grads s T s' T' :
  well_formed sch → masks_agree sch s →
  run sch grads (s, T) = Ok (s', T') → masks_agree sch s'.
Proof.
  intros Hwf. revert s T.
  induction grads as [|gr grads IH]; intros s T Hm H; simpl in H.
  - by inversion H; subst.
  - apply bind_Ok in H as ([s1 T1] & H1 & H).
    apply step_masks in H1; [|done|done]. by eapply IH.
Qed.

Lemma foldl_insert_const_lookup {A B} (key : A → string) (v : B)
  (l : list A) (m : gmap string B) k x :
  foldl (λ m y, <[key y := v]> m) m l !! k = Some x →
  x = v ∨ m !! k = Some x.
Proof.
  revert m. induction l as [|y l IH]; intros m; simpl; [by right|].
  intros H. apply IH in H as [->|H]; [by left|].
  destruct (decide (key y = k)) as [<-|Hne].
  - rewrite lookup_insert_eq in H. left. by inversion H.
  - rewrite lookup_insert_ne in H by done. by right.
Qed.

(** X22.  After construction and after every step of a run, whenever a
    group has active-redundant indices, its boolean mask
    [active_redundant_bool], which the decay ramp subscripts with, has
    length [num_groups] and is true exactly at those indices. *)
Theorem mask_marks_active a T0 sch s0 grads s T g ac :
  valid_args a →
  init a T0 = Ok (sch, s0) →
  run sch grads (s0, T0) = Ok (s, T) →
  g ∈ param_groups sch →
  active_redundant_idxes s !! group_id g = Some ac → ac ≠ [] →
  active_redundant_bool s !! group_id g
  = Some (mask_of (num_groups g) ac).
Proof.
  intros Hva Hinit Hrun.
  destruct (init_spec _ _ a T0 sch s0 Hva Hinit) as [Hwf _].
  apply (run_masks sch grads s0 T0 s T Hwf); [|done].
  clear g ac. intros g ac Hg Ha Hne.
  apply init_shape in Hinit as (fm & sm & dm & wd & _ & _ & _ & _ & _ & E).
  rewrite E in Ha.
  apply foldl_insert_const_lookup in Ha as [->|Ha]; [done|].
  by rewrite lookup_empty in Ha.
Qed.

End MaskFacts.

(** ** Global indices of a cluster *)

Lemma sum_num_groups_app gs1 gs2 :
  sum_num_groups (gs1 ++ gs2) = sum_num_groups gs1 + sum_num_groups gs2.
Proof.
  unfold sum_num_groups. induction gs1 as [|g gs1 IH]; simpl; lia.
Qed.

(** The loop over the groups of one cluster: the running start index and
    the entries written. *)
Lemma starts_fold_spec gs st (m : gmap string Z) :
  let r := foldl (λ acc g, starts_group g acc) (st, m) gs in
  r.1 = st + sum_num_groups (filter (λ g, eligible g) gs) ∧
  (∀ k, (∀ g, g ∈ gs → eligible g = true → group_id g ≠ k) →
        r.2 !! k = m !! k) ∧
  (NoDup (group_id <$> filter (λ g, eligible g) gs) →
   ∀ i g, filter (λ g, eligible g) gs !! i = Some g →
          r.2 !! group_id g
          = Some (st + sum_num_groups
                         (take i (filter (λ g, eligible g) gs)))).
Proof.
  revert st m. induction gs as [|g0 gs IH]; intros st m; cbn [foldl].
  - rewrite filter_nil.
    split; [simpl; unfold sum_num_groups; simpl; lia|].
    split; [done|]. intros _ i g H. by rewrite lookup_nil in H.
  - unfold starts_group at 2 4 6. destruct (eligible g0) eqn:Hel.
    + cbn [fst snd].
      destruct (IH (st + num_groups g0) (<[group_id g0 := st]> m))
        as (I1 & I2 & I3).
      rewrite filter_cons_True by (by rewrite Hel).
      split; [|split].
      * rewrite I1. unfold sum_num_groups. simpl. lia.
      * intros k Hk. rewrite I2.
        -- rewrite lookup_insert_ne; [done|].
           apply (Hk g0); [by left|done].
        -- intros g Hg. apply Hk. by right.
      * intros Hnd i g Hi. rewrite fmap_cons in Hnd.
        apply NoDup_cons in Hnd as [Hn0 Hnd].
        destruct i as [|i]; simpl in Hi.
        -- inversion Hi; subst g. rewrite I2.
           ++ rewrite lookup_insert_eq. simpl. unfold sum_num_groups.
              simpl. f_equal. lia.
           ++ intros g Hg Hge Heq. apply Hn0.
              apply list_elem_of_fmap. exists g. split; [congruence|].
              apply list_elem_of_filter. split; [by rewrite Hge|done].
        -- rewrite (I3 Hnd i g Hi). simpl. unfold sum_num_groups.
           simpl. f_equal. lia.
    + rewrite filter_cons_False by (rewrite Hel; exact id).
      destruct (IH st m) as (I1 & I2 & I3).
      split; [done|]. split; [|done].
      intros k Hk. apply I2. intros g Hg. apply Hk. by right.
Qed.

Lemma starts_cluster_lookup gs i g :
  NoDup (group_id <$> filter (λ g, eligible g) gs) →
  filter (λ g, eligible g) gs !! i = Some g →
  starts_cluster gs ∅ !! group_id g
  = Some (sum_num_groups (take i (filter (λ g, eligible g) gs))).
Proof.
  intros Hnd Hi. unfold starts_cluster.
  destruct (starts_fold_spec gs 0 ∅) as (_ & _ & H).
  by rewrite (H Hnd i g Hi).
Qed.

Lemma starts_cluster_other gs k :
  (∀ g, g ∈ gs → eligible g = true → group_id g ≠ k) →
  starts_cluster gs ∅ !! k = None.
Proof.
  intros Hk. unfold starts_cluster.
  destruct (starts_fold_spec gs 0 ∅) as (_ & H & _).
  by rewrite (H k Hk).
Qed.

Lemma starts_all_other (cl : list (string * list param_group)) k :
  (∀ c gs g, (c, gs) ∈ cl → g ∈ gs → eligible g = true →
             group_id g ≠ k) →
  starts_all cl ∅ !! k = None.
Proof.
  induction cl as [|c0 cl IH]; intros Hk; [done|].
  unfold starts_all in *. simpl.
  fold (starts_all cl (starts_cluster c0.2 ∅)).
  rewrite starts_all_union. apply lookup_union_None. split.
  - apply IH. intros c gs g Hc. apply (Hk c). by right.
  - apply starts_cluster_other. intros g Hg. destruct c0 as [c gs].
    apply (Hk c gs); [by left|done].
Qed.

Lemma starts_all_app (l1 l2 : list (string * list param_group)) m :
  starts_all (l1 ++ l2) m = starts_all l2 (starts_all l1 m).
Proof. unfold starts_all. apply foldl_app. Qed.

(** The start index of a cluster member, in a well-formed schedule: no
    other cluster writes the entry of its id. *)
Lemma static_starts_lookup sch c gs i g :
  well_formed sch →
  (c, gs) ∈ prunable_param_group_clusters sch →
  filter (λ g, eligible g) gs !! i = Some g →
  static_starts sch !! group_id g
  = Some (sum_num_groups (take i (filter (λ g, eligible g) gs))).
Proof.
  intros Hwf Hc Hi. unfold static_starts.
  assert (Hg : g ∈ gs ∧ eligible g = true).
  { apply list_elem_of_lookup_2 in Hi.
    apply list_elem_of_filter in Hi as [He Hg]. split; [done|].
    by apply Is_true_true. }
  destruct Hg as [Hg Hel].
  assert (Hids : NoDup (group_id <$> filter (λ g, eligible g) gs)).
  { apply NoDup_fmap_2_strong.
    - intros g1 g2 H1 H2 Hid.
      apply list_elem_of_filter in H1 as [_ H1].
      apply list_elem_of_filter in H2 as [_ H2].
      eapply ids_inj; [apply (wf_ids sch Hwf)| | |done];
        by eapply (wf_members sch Hwf).
    - apply NoDup_filter. by eapply (wf_cluster_nodup sch Hwf). }
  pose proof (wf_cluster_names sch Hwf) as Hnames.
  apply list_elem_of_split in Hc as (pre & post & Hcl).
  rewrite Hcl in Hnames |- *.
  rewrite starts_all_app. unfold starts_all at 1. simpl.
  fold (starts_all post (starts_cluster gs (starts_all pre ∅))).
  rewrite starts_all_union, starts_cluster_union.
  rewrite lookup_union_r.
  - erewrite lookup_union_Some_l; [done|].
    by apply starts_cluster_lookup.
  - apply starts_all_other. intros c' gs' g' Hc' Hg' Hel' Hid.
    assert (Hin1 : (c, gs) ∈ prunable_param_group_clusters sch).
    { rewrite Hcl. apply elem_of_app. right. by left. }
    assert (Hin2 : (c', gs') ∈ prunable_param_group_clusters sch).
    { rewrite Hcl. apply elem_of_app. right. by right. }
    assert (g' = g).
    { exact (ids_inj sch g' g (wf_ids sch Hwf)
               (wf_members sch Hwf c' gs' g' Hin2 Hg')
               (wf_members sch Hwf c gs g Hin1 Hg) Hid). }
    subst g'.
    assert (c' = c)
      by exact (wf_one_cluster sch Hwf c' gs' c gs g Hin2 Hin1 Hg' Hg).
    subst c'.
    rewrite fmap_app, fmap_cons in Hnames.
    apply NoDup_app in Hnames as (_ & _ & Hnames).
    apply NoDup_cons in Hnames as [Hn _]. apply Hn.
    apply list_elem_of_fmap. by exists (c, gs').
Qed.

Section StartFacts.

Context (DEFAULT_OPT_PARAMS : gmap string opt_defaults)
        (overall_importance_score : tensors → param_group → list Q)
        (count_zero_groups : list param_group → tensors → Z).

Local Abbreviation init := (init DEFAULT_OPT_PARAMS count_zero_groups).
Local Abbreviation score_group := (score_group overall_importance_score).
Local Abbreviation score_cluster :=
  (score_cluster overall_importance_score).
Local Abbreviation compute_importance_scores :=
  (compute_importance_scores overall_importance_score).

Lemma score_fold_scores T gs st sc (m : gmap string Z) :
  (foldl (λ acc g, score_group T g acc) (st, sc, m) gs).1.2
  = sc ++ (overall_importance_score T <$> filter (λ g, eligible g) gs).
Proof.
  revert st sc m. induction gs as [|g gs IH]; intros st sc m; cbn [foldl].
  - simpl. by rewrite app_nil_r.
  - unfold score_group at 2. destruct (eligible g) eqn:Hel.
    + rewrite IH. rewrite filter_cons_True by (by rewrite Hel).
      rewrite fmap_cons. by rewrite <- app_assoc.
    + rewrite IH. by rewrite filter_cons_False by (rewrite Hel; exact id).
Qed.

Lemma score_cluster_scores T c s :
  cluster_importance_scores (score_cluster T c s)
  = <[c.1 := overall_importance_score T <$> filter (λ g, eligible g) c.2]>
      (cluster_importance_scores s).
Proof.
  unfold score_cluster.
  pose proof (score_fold_scores T c.2 0 [] (global_start_idx s)) as H.
  destruct (foldl _ _ c.2) as [[st sc] gsi]. simpl in *. by rewrite H.
Qed.

Lemma score_clusters_scores T (cl : list (string * list param_group)) s c gs :
  NoDup cl.*1 → (c, gs) ∈ cl →
  cluster_importance_scores (foldl (λ s c, score_cluster T c s) s cl) !! c
  = Some (overall_importance_score T <$> filter (λ g, eligible g) gs).
Proof.
  revert s. induction cl as [|c0 cl IH] using rev_ind; intros s Hnd Hc.
  - by apply elem_of_nil in Hc.
  - rewrite foldl_app. simpl. rewrite score_cluster_scores.
    rewrite fmap_app in Hnd. apply NoDup_app in Hnd as (Hnd & Hdis & _).
    apply elem_of_app in Hc as [Hc|Hc%list_elem_of_singleton].
    + rewrite lookup_insert_ne; [by apply IH|].
      intros E. apply (Hdis c); [|rewrite <- E; simpl; by left].
      apply list_elem_of_fmap. by exists (c, gs).
    + subst c0. simpl. by rewrite lookup_insert_eq.
Qed.

(** X23.  What [compute_importance_scores] leaves for a cluster of a
    constructed optimizer: the score vectors of its eligible groups in
    order, and for the [i]-th of them a global start index that is the
    number of groups of the eligible members before it, so that the
    members' global index ranges lie side by side. *)
Theorem global_start_idx_contiguous a T0 sch s0 T s c gs i g :
  valid_args a →
  init a T0 = Ok (sch, s0) →
  (c, gs) ∈ prunable_param_group_clusters sch →
  filter (λ g, eligible g) gs !! i = Some g →
  cluster_importance_scores (compute_importance_scores sch T s) !! c
  = Some (overall_importance_score T <$> filter (λ g, eligible g) gs) ∧
  global_start_idx (compute_importance_scores sch T s) !! group_id g
  = Some (sum_num_groups (take i (filter (λ g, eligible g) gs))).
Proof.
  intros Hva Hinit Hc Hi.
  destruct (init_spec _ _ a T0 sch s0 Hva Hinit) as [Hwf _].
  split.
  - unfold compute_importance_scores.
    apply score_clusters_scores; [apply (wf_cluster_names sch Hwf)|done].
  - destruct (compute_importance_scores_spec overall_importance_score
                sch T s) as (_ & _ & _ & _ & _ & _ & _ & ->).
    erewrite lookup_union_Some_l; [done|].
    by eapply static_starts_lookup.
Qed.

End StartFacts.

Section ClusterRecord.

Context (DEFAULT_OPT_PARAMS : gmap string opt_defaults)
        (overall_importance_score : tensors → param_group → list Q)
        (count_zero_groups : list param_group → tensors → Z)
        (tensor_transformation :
           list bool → TensorTransform → Z → Z → list bool)
        (Qsqrt : Q → Q).

Local Abbreviation init := (init DEFAULT_OPT_PARAMS count_zero_groups).
Local Abbreviation run :=
  (run overall_importance_score count_zero_groups tensor_transformation
       Qsqrt).

(** X24.  Every pruned or active-redundant index of a group is on
    record in the pruned list of the group's cluster, as a global index:
    the local index plus the number of groups of the eligible cluster
    members before the group. *)
Theorem pruned_recorded_in_cluster a T0 sch s0 grads s T g pr ac i :
  valid_args a →
  init a T0 = Ok (sch, s0) →
  run sch grads (s0, T0) = Ok (s, T) →
  g ∈ param_groups sch →
  pruned_idxes s !! group_id g = Some pr →
  active_redundant_idxes s !! group_id g = Some ac →
  i ∈ pr ++ ac →
  ∃ c gs k l,
    (c, gs) ∈ prunable_param_group_clusters sch ∧
    filter (λ g, eligible g) gs !! k = Some g ∧
    pruned_group_idx_by_cluster s !! c = Some l ∧
    i + sum_num_groups (take k (filter (λ g, eligible g) gs)) ∈ l.
Proof.
  intros Hva Hinit Hrun Hg Hp Ha Hi.
  destruct (init_spec _ _ a T0 sch s0 Hva Hinit) as [Hwf _].
  destruct (reached_sets _ _ _ _ _ a T0 sch s0 grads s T g
              Hva Hinit Hrun Hg)
    as (imp & pr' & ac' & _ & Hp' & Ha' & Hgi).
  rewrite Hp in Hp'. rewrite Ha in Ha'.
  inversion Hp'; inversion Ha'; subst pr' ac'.
  destruct Hgi as (_ & _ & _ & Hel & _ & Hlink).
  destruct (Hlink i Hi) as (c & gs & l & start & Hc & Hgs & Hl & Hst & Hin).
  assert (He : eligible g = true).
  { destruct (eligible g); [done|]. rewrite Hel in Hi by done.
    by apply elem_of_nil in Hi. }
  assert (Hf : g ∈ filter (λ g, eligible g) gs).
  { apply list_elem_of_filter. split; [by rewrite He|done]. }
  apply list_elem_of_lookup in Hf as [k Hk].
  exists c, gs, k, l. split; [done|]. split; [done|]. split; [done|].
  rewrite (static_starts_lookup sch c gs k g Hwf Hc Hk) in Hst.
  by inversion Hst; subst start.
Qed.

End ClusterRecord.

(** ** Group norms *)

Lemma index_select_in_range (v : list Q) (idxes : list Z) :
  (∀ i, i ∈ idxes → 0 ≤ i < Py.len v) →
  ∃ r, index_select v idxes = Ok r.
Proof.
  unfold index_select. intros Hr.
  cut (∀ acc : list Q,
         ∃ r, for_each idxes
                (λ i acc,
                   k ← py_index (length v) i;
                   match v !! k with
                   | Some x => Ok (acc ++ [x])
                   | None => Raise IndexError
                   end) acc = Ok r); [by intros H|].
  revert Hr.
  induction idxes as [|i idxes IH]; intros Hr acc; simpl; [by eexists|].
  assert (Hi : 0 ≤ i < Py.len v) by (apply Hr; by left).
  unfold py_index. unfold Py.len in Hi.
  destruct (Z.leb_spec 0 i) as [_|]; [|lia].
  destruct (Z.ltb_spec i (Z.of_nat (length v))) as [_|]; [|lia].
  simpl.
  destruct (lookup_lt_is_Some_2 v (Z.to_nat i)) as [x ->]; [lia|].
  apply IH. intros j Hj. apply Hr. by right.
Qed.

Section NormFacts.

Context (DEFAULT_OPT_PARAMS : gmap string opt_defaults)
        (overall_importance_score : tensors → param_group → list Q)
        (count_zero_groups : list param_group → tensors → Z)
        (tensor_transformation :
           list bool → TensorTransform → Z → Z → list bool)
        (Qsqrt : Q → Q)
        (group_norm : tensors → param_group → result (list Q)).

Local Abbreviation init := (init DEFAULT_OPT_PARAMS count_zero_groups).
Local Abbreviation run :=
  (run overall_importance_score count_zero_groups tensor_transformation
       Qsqrt).

(** X25.  On a state reached by a run, when the norm vector of every
    eligible group has one entry per structural group,
    [compute_norm_groups] returns without [KeyError] or [IndexError], and
    the two counts it returns add up to the number of structural groups
    of the eligible parameter groups. *)
Theorem norm_group_counts a T0 sch s0 grads s T Tn :
  valid_args a →
  init a T0 = Ok (sch, s0) →
  run sch grads (s0, T0) = Ok (s, T) →
  (∀ g, g ∈ param_groups sch → eligible g = true →
        ∃ v, group_norm Tn g = Ok v ∧ Py.len v = num_groups g) →
  ∃ r, compute_norm_groups group_norm sch s Tn = Ok r ∧
       num_important_groups r + num_redundant_groups r
       = sum_num_groups (filter (λ g, eligible g) (param_groups sch)).
Proof.
  intros Hva Hinit Hrun Hnorm.
  destruct (run_from_init _ _ _ _ _ a T0 sch s0 grads s T Hva Hinit Hrun)
    as [_ Hinv].
  unfold compute_norm_groups.
  assert (Hstep : ∀ g acc,
             g ∈ param_groups sch →
             ∃ acc', norm_groups_of group_norm s Tn g acc = Ok acc' ∧
                     num_important_groups acc' + num_redundant_groups acc'
                     = num_important_groups acc + num_redundant_groups acc
                       + (if eligible g then num_groups g else 0)).
  { intros g acc Hg. unfold norm_groups_of.
    destruct (eligible g) eqn:Hel; [|exists acc; split; [done|lia]].
    destruct (Hinv g Hg) as (imp & pr & ac & Hsets & Hgi).
    apply sets_at_inv in Hsets as (Hi & Hp & Ha).
    unfold getitem. rewrite Hi, Hp, Ha. simpl.
    destruct (Hnorm g Hg Hel) as (v & -> & Hlen). simpl.
    destruct Hgi as (Hnd & Hrange & Himp & _).
    assert (Hn0 : 0 ≤ num_groups g).
    { rewrite <- Hlen. apply len_nonneg. }
    destruct (index_select_in_range v imp) as [vi ->].
    { intros i Hin. rewrite Himp in Hin.
      apply list_elem_of_filter in Hin as [_ Hin].
      apply elem_of_range in Hin. lia. }
    destruct (index_select_in_range v (pr ++ ac)) as [vr ->].
    { intros i Hin. apply Hrange in Hin. lia. }
    simpl. eexists. split; [done|]. simpl.
    assert (Hl : Py.len imp = num_groups g - Py.len (pr ++ ac)).
    { rewrite Himp. by apply len_filter_notin. }
    lia. }
  assert (G : ∀ l acc,
             (∀ g, g ∈ l → g ∈ param_groups sch) →
             ∃ r, for_each l (norm_groups_of group_norm s Tn) acc = Ok r ∧
                  num_important_groups r + num_redundant_groups r
                  = num_important_groups acc + num_redundant_groups acc
                    + sum_num_groups (filter (λ g, eligible g) l)).
  { induction l as [|g l IH]; intros acc Hsub.
    - exists acc. split; [done|]. rewrite filter_nil.
      unfold sum_num_groups. simpl. lia.
    - assert (Hg : g ∈ param_groups sch) by (apply Hsub; by left).
      cbn [for_each].
      destruct (Hstep g acc Hg) as (acc1 & -> & Hc1).
      destruct (IH acc1) as (r & Hr & Hc).
      { intros g' Hg'. apply Hsub. by right. }
      exists r. split; [done|]. rewrite Hc, Hc1.
      destruct (eligible g) eqn:Hel.
      + rewrite filter_cons_True by (by rewrite Hel).
        unfold sum_num_groups at 2. simpl.
        fold (sum_num_groups (filter (λ g, eligible g) l)). lia.
      + rewrite filter_cons_False by (rewrite Hel; exact id). lia. }
  destruct (G (param_groups sch)
              {| norm_important_groups := 0; norm_redundant_groups := 0;
                 num_important_groups := 0; num_redundant_groups := 0 |})
    as (r & Hr & Hc); [done|].
  exists r. split; [done|]. rewrite Hc. simpl. lia.
Qed.

End NormFacts.

Lemma count_zeros_bounds v : 0 ≤ count_zeros v ≤ Py.len v.
Proof.
  unfold count_zeros, Py.len.
  pose proof (length_filter (λ x, Qeq_bool x 0 = true) v). lia.
Qed.

Section SparsityFacts.

Context (group_norm : tensors → param_group → result (list Q)).

(** X26.  When the norm vector of every eligible group has one entry
    per structural group, [compute_group_sparsity_param_norm] returns, and
    the number of zero groups it reports lies between 0 and the number of
    structural groups of the eligible parameter groups. *)
Theorem zero_groups_bounded sch T :
  (∀ g, g ∈ param_groups sch → eligible g = true →
        ∃ v, group_norm T g = Ok v ∧ Py.len v = num_groups g) →
  ∃ sparsity norm_x zeros,
    compute_group_sparsity_param_norm group_norm sch T
    = Ok (sparsity, norm_x, zeros) ∧
    0 ≤ zeros
      ≤ sum_num_groups (filter (λ g, eligible g) (param_groups sch)).
Proof.
  intros Hnorm. unfold compute_group_sparsity_param_norm.
  assert (G : ∀ l z nx,
             (∀ g, g ∈ l → g ∈ param_groups sch) →
             ∃ z' nx',
               for_each l
                 (λ g '(zeros, norm_x),
                    if eligible g then
                      norm_group ← group_norm T g;
                      Ok (zeros + count_zeros norm_group,
                          (norm_x + Qsum norm_group)%Q)
                    else Ok (zeros, norm_x)) (z, nx) = Ok (z', nx') ∧
               z ≤ z' ≤ z + sum_num_groups (filter (λ g, eligible g) l)).
  { induction l as [|g l IH]; intros z nx Hsub.
    - exists z, nx. split; [done|]. rewrite filter_nil.
      unfold sum_num_groups. simpl. lia.
    - assert (Hg : g ∈ param_groups sch) by (apply Hsub; by left).
      simpl. destruct (eligible g) eqn:Hel.
      + destruct (Hnorm g Hg Hel) as (v & -> & Hlen). simpl.
        destruct (IH (z + count_zeros v) (nx + Qsum v)%Q)
          as (z' & nx' & Hr & Hb).
        { intros g' Hg'. apply Hsub. by right. }
        exists z', nx'. split; [done|].
        rewrite filter_cons_True by (by rewrite Hel).
        pose proof (count_zeros_bounds v).
        unfold sum_num_groups at 1. simpl.
        fold (sum_num_groups (filter (λ g, eligible g) l)). lia.
      + simpl. destruct (IH z nx) as (z' & nx' & Hr & Hb).
        { intros g' Hg'. apply Hsub. by right. }
        exists z', nx'. split; [done|].
        by rewrite filter_cons_False by (rewrite Hel; exact id). }
  destruct (G (param_groups sch) 0 0%Q) as (z' & nx' & -> & Hb); [done|].
  simpl. eexists _, _, _. split; [done|]. lia.
Qed.

End SparsityFacts.

(** ** Calls that cannot raise *)

Lemma for_each_succeeds {A S} (P : S → Prop) (body : A → S → result S)
  (l : list A) s :
  P s →
  (∀ x s1, x ∈ l → P s1 → ∃ s2, body x s1 = Ok s2 ∧ P s2) →
  ∃ s', for_each l body s = Ok s' ∧ P s'.
Proof.
  revert s. induction l as [|x l IH]; intros s Hs Hb; simpl.
  - by exists s.
  - destruct (Hb x s) as (s2 & -> & Hs2); [by left|done|]. simpl.
    apply IH; [done|]. intros y s1 Hy. apply Hb. by right.
Qed.

Section Totality.

Context (DEFAULT_OPT_PARAMS : gmap string opt_defaults)
        (overall_importance_score : tensors → param_group → list Q)
        (count_zero_groups : list param_group → tensors → Z)
        (tensor_transformation :
           list bool → TensorTransform → Z → Z → list bool)
        (Qsqrt : Q → Q).

Local Abbreviation init := (init DEFAULT_OPT_PARAMS count_zero_groups).
Local Abbreviation update_group := (update_group tensor_transformation).
Local Abbreviation step :=
  (step overall_importance_score count_zero_groups tensor_transformation
        Qsqrt).
Local Abbreviation run :=
  (run overall_importance_score count_zero_groups tensor_transformation
       Qsqrt).

(** X27.  On a state reached by a run, [commit_redundant_idxes] finds
    every dictionary entry it subscripts: it returns, without
    [KeyError]. *)
Theorem commit_never_raises a T0 sch s0 grads s T :
  valid_args a →
  init a T0 = Ok (sch, s0) →
  run sch grads (s0, T0) = Ok (s, T) →
  ∃ s1, commit_redundant_idxes sch s = Ok s1.
Proof.
  intros Hva Hinit Hrun.
  destruct (run_from_init _ _ _ _ _ a T0 sch s0 grads s T Hva Hinit Hrun)
    as [Hwf Hinv].
  unfold commit_redundant_idxes.
  destruct (for_each_succeeds (state_inv sch) commit_group
              (param_groups sch) s Hinv) as (s1 & Hs1 & _); [|by exists s1].
  intros g s1 Hg Hinv1.
  assert (Hok : ∃ s2, commit_group g s1 = Ok s2).
  { unfold commit_group. destruct (eligible g); [|by eexists].
    destruct (Hinv1 g Hg) as (imp & pr & ac & Hsets & _).
    apply sets_at_inv in Hsets as (_ & Hp & Ha).
    unfold getitem. rewrite Hp, Ha. simpl. by eexists. }
  destruct Hok as [s2 Hs2]. exists s2. split; [done|].
  by destruct (commit_group_spec sch g s1 s2 (wf_ids sch Hwf) Hg Hinv1 Hs2).
Qed.

(** No group has a pruned or an active-redundant index. *)
Lemma update_group_untouched sch t s ig T :
  active_redundant_idxes s !! group_id ig.2 = Some [] →
  pruned_idxes s !! group_id ig.2 = Some [] →
  update_group sch t s ig T
  = Ok (update_plain ig.2 (default ∅ (grad_variant T !! ig.1)) T).
Proof.
  intros Ha Hp. unfold update_group, getitem. rewrite Ha, Hp. simpl.
  by destruct (negb (is_prunable ig.2)).
Qed.

Lemma update_pass_untouched sch t s T :
  (∀ g, g ∈ param_groups sch →
        active_redundant_idxes s !! group_id g = Some [] ∧
        pruned_idxes s !! group_id g = Some []) →
  ∃ T', for_each (enumerate (param_groups sch)) (update_group sch t s) T
        = Ok T'.
Proof.
  intros Hun.
  destruct (for_each_succeeds (λ _, True) (update_group sch t s)
              (enumerate (param_groups sch)) T I) as (T' & HT & _);
    [|by exists T'].
  intros [i g] T1 Hig _. unfold enumerate in Hig.
  apply elem_of_zip_r in Hig. destruct (Hun g Hig) as [Ha Hp].
  rewrite update_group_untouched by done. by eexists.
Qed.

(** X28.  The steps before [start_pruning_step] cannot raise: for a
    non-zero period length, fewer than [start_pruning_step] steps from
    construction all return, and leave the index sets, the cluster-wide
    pruned lists, the target and the period counter as constructed. *)
Theorem warmup_steps_succeed a T0 sch s0 grads :
  init a T0 = Ok (sch, s0) →
  pruning_period_duration sch ≠ 0 →
  Z.of_nat (length grads) < start_pruning_step sch →
  ∃ s T,
    run sch grads (s0, T0) = Ok (s, T) ∧
    important_idxes s = important_idxes s0 ∧
    pruned_idxes s = pruned_idxes s0 ∧
    active_redundant_idxes s = active_redundant_idxes s0 ∧
    pruned_group_idx_by_cluster s = pruned_group_idx_by_cluster s0 ∧
    target_num_redundant_groups s = target_num_redundant_groups s0 ∧
    curr_pruning_period s = 0.
Proof.
  intros Hinit Hd Hlen.
  pose proof (init_clock _ _ _ _ _ _ Hinit) as (Hn0 & Hc0 & _).
  assert (Hun : ∀ g, g ∈ param_groups sch →
                     active_redundant_idxes s0 !! group_id g = Some [] ∧
                     pruned_idxes s0 !! group_id g = Some []).
  { apply init_shape in Hinit
      as (fm & sm & dm & wd & Hgroups & _ & _ & _ & Hp & Ha).
    simpl in Hgroups. rewrite <- Hgroups in Hp, Ha.
    intros g Hg. rewrite Hp, Ha. clear -Hg.
    assert (G : ∀ (l : list param_group) (m : gmap string (list Z)),
               g ∈ l ∨ m !! group_id g = Some [] →
               foldl (λ m g, <[group_id g := []]> m) m l !! group_id g
               = Some []).
    { induction l as [|x l IH]; intros m H; simpl.
      - destruct H as [H|H]; [by apply elem_of_nil in H|done].
      - apply IH. destruct H as [[->|H]%elem_of_cons|H].
        + right. by rewrite lookup_insert_eq.
        + by left.
        + right. destruct (decide (group_id x = group_id g)) as [->|Hne].
          * by rewrite lookup_insert_eq.
          * by rewrite lookup_insert_ne. }
    split; apply G; by left. }
  assert (G : ∀ grads s1 T1,
             num_steps s1 + Z.of_nat (length grads)
               < start_pruning_step sch →
             (∀ g, g ∈ param_groups sch →
                   active_redundant_idxes s1 !! group_id g = Some [] ∧
                   pruned_idxes s1 !! group_id g = Some []) →
             ∃ s T,
               run sch grads (s1, T1) = Ok (s, T) ∧
               important_idxes s = important_idxes s1 ∧
               pruned_idxes s = pruned_idxes s1 ∧
               active_redundant_idxes s = active_redundant_idxes s1 ∧
               pruned_group_idx_by_cluster s
               = pruned_group_idx_by_cluster s1 ∧
               target_num_redundant_groups s
               = target_num_redundant_groups s1 ∧
               curr_pruning_period s = curr_pruning_period s1).
  { clear -Hd. induction grads as [|gr grads IH]; intros s1 T1 Hlt Hun.
    - exists s1, T1. done.
    - simpl length in Hlt. simpl.
      assert (Hb : (start_pruning_step sch <=? num_steps s1 + 1) = false)
        by lia.
      assert (Hstep : ∃ T2,
                 step sch (s1, set_grad gr T1)
                 = Ok (set_curr_num_zero_groups
                         (count_zero_groups (param_groups sch) T2)
                         (set_num_steps (num_steps s1 + 1) s1), T2)).
      { unfold step, select_round, end_of_period_commit, Py.mod_. simpl.
        rewrite Hb. simpl. rewrite Hb. simpl.
        destruct (Z.eqb_spec (pruning_period_duration sch) 0) as [|_];
          [done|].
        simpl.
        destruct (update_pass_untouched sch
                    ((num_steps s1 + 1 - start_pruning_step sch)
                       mod pruning_period_duration sch)
                    (set_num_steps (num_steps s1 + 1) s1)
                    (compute_grad_variant Qsqrt sch (num_steps s1 + 1)
                       (set_grad gr T1))) as [T2 HT2].
        { intros g Hg. simpl. by apply Hun. }
        rewrite HT2. simpl. by exists T2. }
      destruct Hstep as [T2 ->]. simpl.
      destruct (IH (set_curr_num_zero_groups
                      (count_zero_groups (param_groups sch) T2)
                      (set_num_steps (num_steps s1 + 1) s1)) T2)
        as (s & T & Hrun & E1 & E2 & E3 & E4 & E5 & E6).
      + simpl. lia.
      + intros g Hg. simpl. by apply Hun.
      + exists s, T. split; [done|]. simpl in *. done. }
  destruct (G grads s0 T0) as (s & T & Hrun & E1 & E2 & E3 & E4 & E5 & E6);
    [lia|done|].
  exists s, T. rewrite E6. done.
Qed.

End Totality.

(** ** The budget of a cluster *)

Lemma quota_sum_succ sch c k :
  0 ≤ k → quota_sum sch c (k + 1) = quota_sum sch c k + quota_of sch c k.
Proof.
  intros Hk. unfold quota_sum.
  rewrite (range_snoc (k + 1)) by lia.
  replace (k + 1 - 1) with k by lia. rewrite Z2Nat.id by lia.
  rewrite foldr_app. simpl. unfold Py.range.
  generalize (seqZ 0 k) as l. intros l.
  induction l as [|p l IH]; simpl; [lia|]. rewrite IH. lia.
Qed.

Lemma quota_sum_mono sch c k1 k2 :
  (∀ p, 0 ≤ quota_of sch c p) → 0 ≤ k1 ≤ k2 →
  quota_sum sch c k1 ≤ quota_sum sch c k2.
Proof.
  intros Hq [H1 H2].
  replace k2 with (k1 + Z.of_nat (Z.to_nat (k2 - k1))) by lia.
  induction (Z.to_nat (k2 - k1)) as [|n IH]; [by rewrite Z.add_0_r|].
  replace (k1 + Z.of_nat (S n)) with (k1 + Z.of_nat n + 1) by lia.
  rewrite quota_sum_succ by lia.
  pose proof (Hq (k1 + Z.of_nat n)). lia.
Qed.

Lemma refine_group_cluster_lists sch top g s s' :
  refine_group sch top g s = Ok s' →
  pruned_group_idx_by_cluster s' = pruned_group_idx_by_cluster s.
Proof.
  unfold refine_group. destruct (eligible g); [|by inversion 1].
  intros H. apply bind_Ok in H as (start & _ & H).
  apply bind_Ok in H as (imp & _ & H).
  apply bind_Ok in H as ([[ac pm] delta] & _ & H).
  apply bind_Ok in H as (pr & _ & H). by inversion H.
Qed.

(** One cluster of a round: its pruned list grows by at most its quota
    of the period, by indices not listed before. *)
Lemma identify_cluster_quota sch c gs s s' l0 :
  0 ≤ quota_of sch c (curr_pruning_period s) →
  pruned_group_idx_by_cluster s !! c = Some l0 → NoDup l0 →
  identify_cluster sch (c, gs) s = Ok s' →
  curr_pruning_period s' = curr_pruning_period s ∧
  (∀ c', c' ≠ c →
         pruned_group_idx_by_cluster s' !! c'
         = pruned_group_idx_by_cluster s !! c') ∧
  ∃ l, pruned_group_idx_by_cluster s' !! c = Some l ∧ NoDup l ∧
       Py.len l ≤ Py.len l0 + quota_of sch c (curr_pruning_period s).
Proof.
  intros Hq Hl0 Hnd. unfold identify_cluster. simpl. intros H.
  apply bind_Ok in H as (scores & _ & H).
  case_decide.
  { inversion H; subst s'. split; [done|]. split; [done|].
    exists l0. split; [done|]. split; [done|]. lia. }
  apply bind_Ok in H as (quotas & Hqs & H). apply getitem_Ok in Hqs.
  apply bind_Ok in H as (quota & Hqu & H).
  assert (Equ : quota = quota_of sch c (curr_pruning_period s)).
  { unfold quota_of. rewrite Hqs. simpl. unfold getitem_Z in Hqu.
    destruct (quotas !! curr_pruning_period s); by inversion Hqu. }
  apply bind_Ok in H as (l0' & Hl0' & H). apply getitem_Ok in Hl0'.
  rewrite Hl0 in Hl0'. inversion Hl0'; subst l0'; clear Hl0'.
  apply bind_Ok in H as (top & Htop & H).
  pose proof (select_top_indices_fresh _ _ _ _ Htop) as [Hnt Hfresh].
  apply select_top_indices_bound in Htop as (_ & _ & Hlen); [|lia].
  assert (E : curr_pruning_period s' = curr_pruning_period s ∧
              pruned_group_idx_by_cluster s'
              = <[c := l0 ++ top]> (pruned_group_idx_by_cluster s)).
  { eapply (for_each_inv
              (λ s2, curr_pruning_period s2 = curr_pruning_period s ∧
                     pruned_group_idx_by_cluster s2
                     = <[c := l0 ++ top]> (pruned_group_idx_by_cluster s)));
      [| |exact H]; [done|].
    intros g s2 s3 _ [E1 E2] Hr.
    pose proof (refine_group_cluster_lists _ _ _ _ _ Hr) as ->.
    apply refine_group_frame in Hr as (_ & -> & _). done. }
  destruct E as [E1 E2]. split; [done|]. rewrite E2. split.
  - intros c' Hne. by rewrite lookup_insert_ne.
  - exists (l0 ++ top). rewrite lookup_insert_eq. split; [done|]. split.
    + apply NoDup_app. split; [done|]. split; [|done].
      intros x Hx Hx'. by apply (Hfresh x Hx').
    + rewrite len_app. lia.
Qed.

Lemma identify_redundant_groups_quota sch s s' :
  NoDup (prunable_param_group_clusters sch).*1 →
  (∀ c gs p, (c, gs) ∈ prunable_param_group_clusters sch →
              0 ≤ quota_of sch c p) →
  within_quota sch s →
  identify_redundant_groups sch s = Ok s' →
  curr_pruning_period s' = curr_pruning_period s ∧
  ∀ c gs, (c, gs) ∈ prunable_param_group_clusters sch →
          ∃ l, pruned_group_idx_by_cluster s' !! c = Some l ∧ NoDup l ∧
               Py.len l ≤ quota_sum sch c (curr_pruning_period s + 1).
Proof.
  intros Hnames Hq [Hc0 Hw] H. unfold identify_redundant_groups in H.
  pose (P := λ (pre : list (string * list param_group)) s2,
          curr_pruning_period s2 = curr_pruning_period s ∧
          ∀ c gs, (c, gs) ∈ prunable_param_group_clusters sch →
                  ∃ l, pruned_group_idx_by_cluster s2 !! c = Some l ∧
                       NoDup l ∧
                       Py.len l
                       ≤ quota_sum sch c (curr_pruning_period s)
                         + (if decide (c ∈ pre.*1)
                            then quota_of sch c (curr_pruning_period s)
                            else 0)).
  assert (HP : P (prunable_param_group_clusters sch) s').
  { eapply (for_each_ind P); [| |exact H].
    - split; [done|]. intros c gs Hc.
      destruct (Hw c gs Hc) as (l & Hl & Hnd & Hlen).
      exists l. split; [done|]. split; [done|].
      rewrite decide_False; [lia|]. by intros ?%elem_of_nil.
    - intros pre [c0 gs0] post s2 s3 Hcl [Ec HP2] Hb.
      assert (Hin0 : (c0, gs0) ∈ prunable_param_group_clusters sch).
      { rewrite Hcl. apply elem_of_app. right. by left. }
      assert (Hnot : c0 ∉ pre.*1).
      { rewrite Hcl, fmap_app, fmap_cons in Hnames.
        apply NoDup_app in Hnames as (_ & Hdis & _).
        intros Hp. apply (Hdis c0 Hp). by left. }
      destruct (HP2 c0 gs0 Hin0) as (l0 & Hl0 & Hnd0 & Hlen0).
      rewrite decide_False in Hlen0 by done.
      apply (identify_cluster_quota sch c0 gs0 s2 s3 l0) in Hb
        as (Ec3 & Hother & l3 & Hl3 & Hnd3 & Hlen3);
        [|by apply (Hq c0 gs0)|done|done].
      split; [congruence|]. intros c gs Hc.
      destruct (decide (c = c0)) as [->|Hne].
      + exists l3. split; [done|]. split; [done|].
        rewrite decide_True.
        * rewrite Ec in Hlen3. lia.
        * rewrite fmap_app. apply elem_of_app. right. by left.
      + destruct (HP2 c gs Hc) as (l & Hl & Hnd & Hlen).
        exists l. rewrite Hother by done. split; [done|]. split; [done|].
        destruct (decide (c ∈ pre.*1)) as [Hp|Hp].
        * rewrite decide_True; [done|].
          rewrite fmap_app. apply elem_of_app. by left.
        * rewrite decide_False; [done|].
          rewrite fmap_app, elem_of_app. intros [?|Hx]; [done|].
          apply list_elem_of_singleton in Hx. done. }
  destruct HP as [Ec HP]. split; [done|]. intros c gs Hc.
  destruct (HP c gs Hc) as (l & Hl & Hnd & Hlen).
  exists l. split; [done|]. split; [done|].
  rewrite quota_sum_succ by done.
  rewrite decide_True in Hlen; [done|].
  apply list_elem_of_fmap. by exists (c, gs).
Qed.

Lemma commit_within_quota sch s s' :
  within_quota sch s → commit_redundant_idxes sch s = Ok s' →
  within_quota sch s'.
Proof.
  intros [H0 Hw] H.
  apply commit_redundant_idxes_frame in H as (_ & Ec & _ & _ & Ep).
  unfold within_quota. by rewrite Ec, Ep.
Qed.

Section QuotaFacts.

Context (DEFAULT_OPT_PARAMS : gmap string opt_defaults)
        (overall_importance_score : tensors → param_group → list Q)
        (count_zero_groups : list param_group → tensors → Z)
        (tensor_transformation :
           list bool → TensorTransform → Z → Z → list bool)
        (Qsqrt : Q → Q).

Local Abbreviation init := (init DEFAULT_OPT_PARAMS count_zero_groups).
Local Abbreviation select_round := (select_round overall_importance_score).
Local Abbreviation step :=
  (step overall_importance_score count_zero_groups tensor_transformation
        Qsqrt).
Local Abbreviation run :=
  (run overall_importance_score count_zero_groups tensor_transformation
       Qsqrt).

Lemma select_round_within_quota sch T s s' :
  NoDup (prunable_param_group_clusters sch).*1 →
  (∀ c gs p, (c, gs) ∈ prunable_param_group_clusters sch →
              0 ≤ quota_of sch c p) →
  within_quota sch s → select_round sch T s = Ok s' →
  within_quota sch s'.
Proof.
  intros Hnames Hq Hw. unfold select_round.
  destruct (_ && _); [|by inversion 1; subst].
  intros H. apply bind_Ok in H as (r & _ & H).
  destruct (r =? 0); [|by inversion H; subst].
  apply bind_Ok in H as (s1 & H1 & H).
  apply bind_Ok in H as (s2 & H2 & H).
  inversion H; subst s'; clear H.
  apply commit_within_quota in H1; [|done].
  destruct (compute_importance_scores_spec overall_importance_score
              sch T s1) as (_ & _ & _ & Ep & _ & Ec & _).
  apply identify_redundant_groups_quota in H2 as [Ec2 Hw2]; [|done|done|].
  2:{ destruct H1 as [H0 Hw1]. split; [by rewrite Ec|].
      rewrite Ec, Ep. done. }
  destruct H1 as [H0 _]. rewrite Ec in Ec2, Hw2.
  split; simpl; [lia|]. by rewrite Ec2.
Qed.

Lemma step_within_quota sch s T s' T' :
  NoDup (prunable_param_group_clusters sch).*1 →
  (∀ c gs p, (c, gs) ∈ prunable_param_group_clusters sch →
              0 ≤ quota_of sch c p) →
  within_quota sch s → step sch (s, T) = Ok (s', T') →
  within_quota sch s'.
Proof.
  intros Hnames Hq Hw. unfold step. simpl. intros H.
  apply bind_Ok in H as (s1 & H1 & H).
  apply select_round_within_quota in H1; [|done|done|by destruct s].
  apply bind_Ok in H as (t & _ & H).
  apply bind_Ok in H as (T1 & _ & H).
  apply bind_Ok in H as (s2 & H2 & H).
  inversion H; subst s' T'; clear H.
  assert (within_quota sch s2); [|by destruct s2].
  unfold end_of_period_commit in H2. destruct (_ && _).
  - by eapply commit_within_quota.
  - by inversion H2; subst.
Qed.

Lemma run_within_quota sch grads s T s' T' :
  NoDup (prunable_param_group_clusters sch).*1 →
  (∀ c gs p, (c, gs) ∈ prunable_param_group_clusters sch →
              0 ≤ quota_of sch c p) →
  within_quota sch s → run sch grads (s, T) = Ok (s', T') →
  within_quota sch s'.
Proof.
  intros Hnames Hq. revert s T.
  induction grads as [|gr grads IH]; intros s T Hw H; simpl in H.
  - by inversion H; subst.
  - apply bind_Ok in H as ([s1 T1] & H1 & H).
    apply step_within_quota in H1; [|done|done|done]. by eapply IH.
Qed.

(** The targets and quotas that the constructor stores for a cluster. *)
Lemma init_cluster_budget a T sch s c gs :
  NoDup (make_target_group_sparsity (arg_target_group_sparsity a)).*1 →
  Forall (λ x, (0 <= x.2)%Q)
         (make_target_group_sparsity (arg_target_group_sparsity a)) →
  Forall (λ r, 0 ≤ r_num_groups r) (arg_params a) →
  init a T = Ok (sch, s) →
  (c, gs) ∈ prunable_param_group_clusters sch →
  ∃ t, target_num_redundant_groups_by_clusters sch !! c = Some t ∧
       0 ≤ t ≤ sum_num_groups gs ∧
       active_num_redundant_groups_by_clusters sch !! c
       = Some (make_quotas t (pruning_periods sch)).
Proof.
  intros Hnames Hsp Hng Hinit Hc.
  pose proof (init_tables _ _ _ _ _ _ Hinit)
    as (_ & Htots & Htargets & _ & Hquotas & _).
  apply init_shape in Hinit as (fm & sm & dm & wd & Hgroups & Hcl & _).
  simpl in *.
  set (tgs := make_target_group_sparsity (arg_target_group_sparsity a))
    in *.
  set (cl := prunable_param_group_clusters sch) in *.
  assert (Hcn : NoDup cl.*1) by (by rewrite Hcl, make_clusters_names).
  assert (H0 : 0 ≤ sum_num_groups gs).
  { apply sum_num_groups_nonneg.
    rewrite Hcl in Hc. apply elem_of_make_clusters in Hc as [_ ->].
    apply Forall_forall. intros g [_ Hg]%list_elem_of_filter.
    apply list_elem_of_fmap in Hg as (r & -> & Hr).
    exact (proj1 (Forall_forall _ _) Hng r Hr). }
  assert (Ht : target_num_redundant_groups_by_clusters sch !! c
               = Some (make_target_of_cluster (sum_num_groups gs)
                         (default 0%Q ((list_to_map tgs : gmap string Q)
                                       !! c)) gs)).
  { rewrite Htargets.
    rewrite (foldl_insert_lookup fst
               (λ c, make_target_of_cluster
                       (default 0 (total_num_groups_by_clusters sch !! c.1))
                       (default 0%Q ((list_to_map tgs : gmap string Q)
                                     !! c.1)) c.2) _ _ (c, gs)) by done.
    simpl. rewrite Htots. unfold make_total_num_groups_by_clusters.
    by rewrite (foldl_insert_lookup fst (λ c, sum_num_groups c.2)
                  _ _ (c, gs)) by done. }
  eexists. split; [exact Ht|]. split.
  - apply make_target_of_cluster_bounds; [done|].
    destruct ((list_to_map tgs : gmap string Q) !! c) as [q|] eqn:Hq;
      simpl; [|done].
    apply elem_of_list_to_map_2 in Hq.
    exact (proj1 (Forall_forall _ _) Hsp _ Hq).
  - rewrite Hquotas.
    rewrite (foldl_insert_lookup fst
               (λ c, make_quotas
                       (default 0
                          (target_num_redundant_groups_by_clusters sch
                           !! c.1)) (pruning_periods sch)) _ _ (c, gs))
      by done.
    simpl. by rewrite Ht.
Qed.

Lemma init_within_quota a T sch s :
  NoDup (make_target_group_sparsity (arg_target_group_sparsity a)).*1 →
  init a T = Ok (sch, s) → within_quota sch s.
Proof.
  intros Hnames Hinit.
  pose proof (init_clock _ _ _ _ _ _ Hinit) as (_ & Hc0 & _).
  pose proof (init_tables _ _ _ _ _ _ Hinit) as (_ & _ & _ & _ & _ & Hp).
  apply init_shape in Hinit as (fm & sm & dm & wd & _ & Hcl & _).
  simpl in *. split; [lia|]. intros c gs Hc. exists [].
  rewrite Hp, Hc0.
  rewrite (foldl_insert_lookup fst (λ _, []) _ _ (c, gs));
    [|by rewrite Hcl, make_clusters_names|done].
  split; [done|]. split; [constructor|]. done.
Qed.

(** X29.  No cluster is pruned beyond its target: for non-negative
    sparsities and group counts, after any run the pruned list of a
    cluster has no duplicates and at most as many entries as the cluster's
    target count, and so has the list of pruned and active-redundant
    indices of each of its groups. *)
Theorem cluster_pruned_within_target a T0 sch s0 grads s T c gs :
  valid_args a →
  Forall (λ x, (0 <= x.2)%Q)
         (make_target_group_sparsity (arg_target_group_sparsity a)) →
  Forall (λ r, 0 ≤ r_num_groups r) (arg_params a) →
  init a T0 = Ok (sch, s0) →
  run sch grads (s0, T0) = Ok (s, T) →
  (c, gs) ∈ prunable_param_group_clusters sch →
  ∃ l t,
    pruned_group_idx_by_cluster s !! c = Some l ∧
    target_num_redundant_groups_by_clusters sch !! c = Some t ∧
    NoDup l ∧ Py.len l ≤ t ∧
    ∀ g pr ac, g ∈ gs →
               pruned_idxes s !! group_id g = Some pr →
               active_redundant_idxes s !! group_id g = Some ac →
               Py.len (pr ++ ac) ≤ t.
Proof.
  intros Hva Hsp Hng Hinit Hrun Hc.
  destruct (run_from_init _ _ _ _ _ a T0 sch s0 grads s T Hva Hinit Hrun)
    as [Hwf Hinv].
  pose proof (init_periods_positive _ _ _ _ _ _ Hinit) as Hpos.
  pose proof (init_clock _ _ _ _ _ _ Hinit) as (_ & Hc0 & _).
  assert (Hbud : ∀ c gs, (c, gs) ∈ prunable_param_group_clusters sch →
             ∃ t, target_num_redundant_groups_by_clusters sch !! c
                  = Some t ∧ 0 ≤ t ∧
                  active_num_redundant_groups_by_clusters sch !! c
                  = Some (make_quotas t (pruning_periods sch))).
  { intros c' gs' Hc'.
    destruct (init_cluster_budget a T0 sch s0 c' gs' (va_names a Hva)
                Hsp Hng Hinit Hc') as (t & Ht & [Ht0 _] & Hq).
    by exists t. }
  assert (Hq : ∀ c gs p, (c, gs) ∈ prunable_param_group_clusters sch →
                         0 ≤ quota_of sch c p).
  { intros c' gs' p Hc'. unfold quota_of.
    destruct (Hbud c' gs' Hc') as (t & _ & Ht0 & ->). simpl.
    destruct (make_quotas t (pruning_periods sch) !! p) as [q|] eqn:Hp;
      simpl; [|done].
    destruct (make_quotas_spec t (pruning_periods sch) Hpos)
      as (_ & _ & _ & _ & Hnn).
    by eapply Hnn. }
  pose proof (init_within_quota a T0 sch s0 (va_names a Hva) Hinit) as Hw0.
  pose proof (run_within_quota sch grads s0 T0 s T
                (wf_cluster_names sch Hwf) Hq Hw0 Hrun) as [Hcur Hw].
  destruct (run_clock overall_importance_score count_zero_groups
              tensor_transformation Qsqrt sch grads s0 T0 s T Hrun)
    as [_ [_ Hle]]; [lia|].
  destruct (Hw c gs Hc) as (l & Hl & Hnd & Hlen).
  destruct (Hbud c gs Hc) as (t & Ht & Ht0 & Hqs).
  assert (Hsum : quota_sum sch c (pruning_periods sch) = t).
  { unfold quota_sum, quota_of. rewrite Hqs. simpl.
    by destruct (make_quotas_spec t (pruning_periods sch) Hpos)
      as (_ & _ & _ & -> & _). }
  assert (Hlt : Py.len l ≤ t).
  { rewrite <- Hsum.
    pose proof (quota_sum_mono sch c (curr_pruning_period s)
                  (pruning_periods sch) (λ p, Hq c gs p Hc)
                  (conj Hcur Hle)). lia. }
  exists l, t. split; [done|]. split; [done|]. split; [done|].
  split; [done|].
  intros g pr ac Hg Hp Ha.
  assert (Hgp : g ∈ param_groups sch)
    by exact (wf_members sch Hwf c gs g Hc Hg).
  destruct (Hinv g Hgp) as (imp & pr' & ac' & Hsets & Hgi).
  apply sets_at_inv in Hsets as (_ & Hp' & Ha').
  rewrite Hp in Hp'. rewrite Ha in Ha'.
  inversion Hp'; inversion Ha'; subst pr' ac'.
  destruct Hgi as (Hndg & _ & _ & _ & _ & Hlink).
  destruct (pr ++ ac) as [|i0 gone] eqn:Hgone; [unfold Py.len; simpl; lia|].
  rewrite <- Hgone in *.
  destruct (Hlink i0) as (c1 & gs1 & l1 & start & Hc1 & Hg1 & Hl1 & Hst & _).
  { rewrite Hgone. by left. }
  transitivity (Py.len l); [|done].
  transitivity (Py.len ((λ i, i + start) <$> (pr ++ ac))).
  { unfold Py.len. by rewrite length_fmap. }
  apply len_le_of_subset.
  - apply NoDup_fmap_2; [|done]. intros x y. lia.
  - intros x Hx. apply list_elem_of_fmap in Hx as (i & -> & Hi).
    destruct (Hlink i Hi)
      as (c2 & gs2 & l2 & start2 & Hc2 & Hg2 & Hl2 & Hst2 & Hin).
    assert (c2 = c)
      by exact (wf_one_cluster sch Hwf c2 gs2 c gs g Hc2 Hc Hg2 Hg).
    subst c2. rewrite Hl in Hl2. inversion Hl2; subst l2.
    rewrite Hst in Hst2. by inversion Hst2; subst start2.
Qed.

End QuotaFacts.

(** ** The further properties at the concrete optimizers *)

Lemma mixed_valid : valid_args Mixed.args.
Proof.
  split; simpl.
  - eapply bool_decide_unpack. vm_compute. exact I.
  - apply NoDup_singleton.
  - intros r c1 c2 _ H1 H2 _ _.
    apply list_elem_of_singleton in H1, H2. congruence.
  - lia.
Defined.

Lemma mixed_nonneg :
  Forall (λ x : string * Q, (0 <= x.2)%Q)
         (make_target_group_sparsity
            (arg_target_group_sparsity Mixed.args)) ∧
  Forall (λ r, 0 ≤ r_num_groups r) (arg_params Mixed.args).
Proof.
  split; simpl.
  - constructor; [|constructor]. unfold Qle. simpl. lia.
  - repeat constructor; simpl; lia.
Defined.

(** *** The runs *)

Lemma mixed_init :
  init Scenario.DEFAULT_OPT_PARAMS Scenario.no_zero_groups
    Mixed.args Mixed.T0 = Ok (Runs.mixed_sch, Runs.mixed_s0).
Proof. vm_compute. reflexivity. Qed.

Lemma mixed_step_1 :
  step Scenario.score Scenario.no_zero_groups Scenario.plain_mask
    Scenario.no_sqrt Runs.mixed_sch
    (Runs.mixed_s0, set_grad Mixed.grads Mixed.T0)
  = Ok (Runs.mixed_1.1, Runs.mixed_1.2).
Proof. vm_compute. reflexivity. Qed.

Lemma mixed_run_4 :
  run Scenario.score Scenario.no_zero_groups Scenario.plain_mask
    Scenario.no_sqrt Runs.mixed_sch (replicate 4 Mixed.grads)
    (Runs.mixed_s0, Mixed.T0)
  = Ok (Runs.mixed_4.1, Runs.mixed_4.2).
Proof. vm_compute. reflexivity. Qed.

Lemma mixed_run_8 :
  run Scenario.score Scenario.no_zero_groups Scenario.plain_mask
    Scenario.no_sqrt Runs.mixed_sch (replicate 8 Mixed.grads)
    (Runs.mixed_s0, Mixed.T0)
  = Ok (Runs.mixed_8.1, Runs.mixed_8.2).
Proof. vm_compute. reflexivity. Qed.

Lemma mixed_commit_4 :
  commit_redundant_idxes Runs.mixed_sch Runs.mixed_4.1
  = Ok Runs.mixed_4_committed.
Proof. vm_compute. reflexivity. Qed.

Lemma mixed_pair_updated :
  update_active Scenario.plain_mask Runs.mixed_sch 1 Mixed.pair
    Mixed.pair_gv Mixed.pair_mask
    (zip (p_names Mixed.pair) (p_transform Mixed.pair)) Mixed.pair_T
  = Ok Runs.pair_updated.
Proof. vm_compute. reflexivity. Qed.

Lemma mixed_groups : param_groups Runs.mixed_sch = Mixed.groups.
Proof. vm_compute. reflexivity. Qed.

Lemma mixed_clusters :
  prunable_param_group_clusters Runs.mixed_sch
  = [("lora"%string, take 2 Mixed.groups)].
Proof. vm_compute. reflexivity. Qed.

Lemma lora_init :
  init Scenario.DEFAULT_OPT_PARAMS Scenario.no_zero_groups
    (Scenario.lora_args "sgd" 2) (Scenario.T0 8)
  = Ok (Runs.lora_sch, Runs.lora_s0).
Proof. vm_compute. reflexivity. Qed.

Lemma lora_step_1 :
  step Scenario.score Scenario.no_zero_groups Scenario.plain_mask
    Scenario.no_sqrt Runs.lora_sch
    (Runs.lora_s0, set_grad (Scenario.grads 8) (Scenario.T0 8))
  = Ok (Runs.lora_1.1, Runs.lora_1.2).
Proof. vm_compute. reflexivity. Qed.

Lemma lora_run_1 :
  run Scenario.score Scenario.no_zero_groups Scenario.plain_mask
    Scenario.no_sqrt Runs.lora_sch [Scenario.grads 8]
    (Runs.lora_s0, Scenario.T0 8)
  = Ok (Runs.lora_1.1, Runs.lora_1.2).
Proof. vm_compute. reflexivity. Qed.

Lemma lora_step_2 :
  step Scenario.score Scenario.no_zero_groups Scenario.plain_mask
    Scenario.no_sqrt Runs.lora_sch
    (Runs.lora_1.1, set_grad (Scenario.grads 8) Runs.lora_1.2)
  = Ok (Runs.lora_2.1, Runs.lora_2.2).
Proof. vm_compute. reflexivity. Qed.

Lemma adapter_zeroed :
  zero_pruned
    (merge_defaults "sgd" (1 # 10) 0 0 0 (Some 0%Q) (Scenario.adapter 8))
    [6; 7] (Scenario.T0 8)
  = Ok Runs.adapter_zeroed.
Proof. vm_compute. reflexivity. Qed.

(** *** The properties *)

Lemma important_idxes_ascending_rest_witness :
  valid_args Mixed.args ∧
  init Scenario.DEFAULT_OPT_PARAMS Scenario.no_zero_groups
    Mixed.args Mixed.T0 = Ok (Runs.mixed_sch, Runs.mixed_s0) ∧
  run Scenario.score Scenario.no_zero_groups Scenario.plain_mask
    Scenario.no_sqrt Runs.mixed_sch (replicate 4 Mixed.grads)
    (Runs.mixed_s0, Mixed.T0) = Ok (Runs.mixed_4.1, Runs.mixed_4.2) ∧
  ∀ g, g ∈ param_groups Runs.mixed_sch →
       ∃ imp pr ac,
         important_idxes Runs.mixed_4.1 !! group_id g = Some imp ∧
         pruned_idxes Runs.mixed_4.1 !! group_id g = Some pr ∧
         active_redundant_idxes Runs.mixed_4.1 !! group_id g = Some ac ∧
         imp = filter (λ i, i ∉ pr ++ ac) (Py.range (num_groups g)) ∧
         StronglySorted Z.lt imp.
Proof.
  split; [exact mixed_valid|]. split; [exact mixed_init|].
  split; [exact mixed_run_4|]. intros g Hg.
  exact (important_idxes_ascending_rest Scenario.DEFAULT_OPT_PARAMS
           Scenario.score Scenario.no_zero_groups Scenario.plain_mask
           Scenario.no_sqrt _ _ _ _ _ _ _ g mixed_valid mixed_init
           mixed_run_4 Hg).
Defined.

Lemma ineligible_group_never_pruned_witness :
  let g := merge_defaults "sgd" (1 # 10) 0 0 0 (Some 0%Q) Mixed.auxiliary in
  g ∈ param_groups Runs.mixed_sch ∧ eligible g = false ∧
  important_idxes Runs.mixed_8.1 !! group_id g
  = Some (Py.range (num_groups g)) ∧
  pruned_idxes Runs.mixed_8.1 !! group_id g = Some [] ∧
  active_redundant_idxes Runs.mixed_8.1 !! group_id g = Some [].
Proof.
  intros g.
  assert (Hg : g ∈ param_groups Runs.mixed_sch).
  { rewrite mixed_groups. apply list_elem_of_further, list_elem_of_here. }
  split; [exact Hg|]. split; [reflexivity|].
  exact (ineligible_group_never_pruned Scenario.DEFAULT_OPT_PARAMS
           Scenario.score Scenario.no_zero_groups Scenario.plain_mask
           Scenario.no_sqrt _ _ _ _ _ _ _ g mixed_valid mixed_init
           mixed_run_8 Hg eq_refl).
Defined.

Lemma unmatched_group_never_pruned_witness :
  let g := merge_defaults "sgd" (1 # 10) 0 0 0 (Some 0%Q) Mixed.unmatched in
  g ∈ param_groups Runs.mixed_sch ∧ eligible g = true ∧
  in_cluster "lora" g = false ∧
  important_idxes Runs.mixed_8.1 !! group_id g
  = Some (Py.range (num_groups g)) ∧
  pruned_idxes Runs.mixed_8.1 !! group_id g = Some [] ∧
  active_redundant_idxes Runs.mixed_8.1 !! group_id g = Some [].
Proof.
  intros g.
  assert (Hg : g ∈ param_groups Runs.mixed_sch).
  { rewrite mixed_groups.
    apply list_elem_of_further, list_elem_of_further, list_elem_of_here. }
  split; [exact Hg|]. split; [reflexivity|]. split; [reflexivity|].
  refine (unmatched_group_never_pruned Scenario.DEFAULT_OPT_PARAMS
            Scenario.score Scenario.no_zero_groups Scenario.plain_mask
            Scenario.no_sqrt _ _ _ _ _ _ _ g mixed_valid mixed_init
            mixed_run_8 Hg _).
  intros c Hc. simpl in Hc. apply list_elem_of_singleton in Hc.
  rewrite Hc. reflexivity.
Defined.

Lemma commit_twice_witness :
  commit_redundant_idxes Runs.mixed_sch Runs.mixed_4.1
  = Ok Runs.mixed_4_committed ∧
  commit_redundant_idxes Runs.mixed_sch Runs.mixed_4_committed
  = Ok Runs.mixed_4_committed.
Proof.
  split; [exact mixed_commit_4|].
  exact (commit_twice Scenario.DEFAULT_OPT_PARAMS Scenario.score
           Scenario.no_zero_groups Scenario.plain_mask Scenario.no_sqrt
           _ _ _ _ _ _ _ _ mixed_valid mixed_init mixed_run_4
           mixed_commit_4).
Defined.

Lemma step_counters_witness :
  num_steps Runs.mixed_1.1 = num_steps Runs.mixed_s0 + 1 ∧
  curr_pruning_period Runs.mixed_s0 ≤ curr_pruning_period Runs.mixed_1.1
    ≤ curr_pruning_period Runs.mixed_s0 + 1.
Proof.
  destruct (step_counters Scenario.score Scenario.no_zero_groups
              Scenario.plain_mask Scenario.no_sqrt _ _ _ _ _ mixed_step_1)
    as (H1 & H2 & _).
  split; [exact H1 | exact H2].
Defined.

Lemma run_counters_witness :
  num_steps Runs.mixed_8.1 = 8 ∧
  0 ≤ curr_pruning_period Runs.mixed_8.1 ≤ pruning_periods Runs.mixed_sch.
Proof.
  exact (run_counters Scenario.DEFAULT_OPT_PARAMS Scenario.score
           Scenario.no_zero_groups Scenario.plain_mask Scenario.no_sqrt
           _ _ _ _ _ _ _ mixed_init mixed_run_8).
Defined.

Lemma step_before_start_witness :
  num_steps Runs.mixed_s0 + 1 < start_pruning_step Runs.mixed_sch ∧
  Runs.mixed_1.1
  = set_curr_num_zero_groups
      (Scenario.no_zero_groups (param_groups Runs.mixed_sch) Runs.mixed_1.2)
      (set_num_steps (num_steps Runs.mixed_s0 + 1) Runs.mixed_s0).
Proof.
  assert (Hlt : num_steps Runs.mixed_s0 + 1
                < start_pruning_step Runs.mixed_sch) by reflexivity.
  split; [exact Hlt|].
  exact (step_before_start Scenario.score Scenario.no_zero_groups
           Scenario.plain_mask Scenario.no_sqrt _ _ _ _ _ Hlt
           mixed_step_1).
Defined.

Lemma selection_round_timing_witness :
  curr_pruning_period Runs.lora_1.1 = curr_pruning_period Runs.lora_s0 + 1 ↔
  start_pruning_step Runs.lora_sch ≤ num_steps Runs.lora_s0 + 1 ∧
  curr_num_zero_groups Runs.lora_s0
    < target_num_redundant_groups Runs.lora_s0 ∧
  curr_pruning_period Runs.lora_s0 < pruning_periods Runs.lora_sch ∧
  (num_steps Runs.lora_s0 + 1 - start_pruning_step Runs.lora_sch - 1)
    mod pruning_period_duration Runs.lora_sch = 0.
Proof.
  exact (proj1 (selection_round_timing Scenario.score
                  Scenario.no_zero_groups Scenario.plain_mask
                  Scenario.no_sqrt _ _ _ _ _ lora_step_1)).
Defined.

Lemma period_end_commits_witness :
  start_pruning_step Runs.lora_sch ≤ num_steps Runs.lora_1.1 + 1 ∧
  (num_steps Runs.lora_1.1 + 1 - start_pruning_step Runs.lora_sch)
    mod pruning_period_duration Runs.lora_sch
  = pruning_period_duration Runs.lora_sch - 1 ∧
  committed Runs.lora_sch Runs.lora_2.1.
Proof.
  assert (Hva : valid_args (Scenario.lora_args "sgd" 2)).
  { apply scenario_valid. lia. }
  assert (H1 : start_pruning_step Runs.lora_sch
               ≤ num_steps Runs.lora_1.1 + 1).
  { apply Z.leb_le. reflexivity. }
  assert (H2 : (num_steps Runs.lora_1.1 + 1
                - start_pruning_step Runs.lora_sch)
                 mod pruning_period_duration Runs.lora_sch
               = pruning_period_duration Runs.lora_sch - 1) by reflexivity.
  split; [exact H1|]. split; [exact H2|].
  exact (period_end_commits Scenario.DEFAULT_OPT_PARAMS Scenario.score
           Scenario.no_zero_groups Scenario.plain_mask Scenario.no_sqrt
           _ _ _ _ _ _ _ _ _ _ Hva lora_init lora_run_1 lora_step_2 H1 H2).
Defined.

Lemma step_zero_duration_witness :
  let a := Scenario.args 8 "sgd" (PerCluster [("lora"%string, 1 # 2)])
             1 2 1 in
  ∃ sch s0,
    init Scenario.DEFAULT_OPT_PARAMS Scenario.no_zero_groups
    a (Scenario.T0 8) = Ok (sch, s0) ∧
    pruning_period_duration sch = 0 ∧
    step Scenario.score Scenario.no_zero_groups Scenario.plain_mask
    Scenario.no_sqrt sch (s0, set_grad (Scenario.grads 8) (Scenario.T0 8))
    = Raise ZeroDivisionError.
Proof.
  intros a.
  destruct (init Scenario.DEFAULT_OPT_PARAMS Scenario.no_zero_groups
    a (Scenario.T0 8)) as [[sch s0]|e] eqn:Hinit;
    [|exfalso; vm_compute in Hinit; discriminate].
  pose proof (init_Ok _ _ _ _ _ _ Hinit) as (_ & Hd & _).
  exists sch, s0. split; [reflexivity|]. split; [exact Hd|].
  refine (step_zero_duration Scenario.DEFAULT_OPT_PARAMS Scenario.score
            Scenario.no_zero_groups Scenario.plain_mask Scenario.no_sqrt
            _ _ _ _ _ Hinit _).
  simpl. lia.
Defined.

Lemma quotas_sum_to_target_witness :
  make_quotas 5 2 !! 0 = Some 2 ∧ make_quotas 5 2 !! 1 = Some 3 ∧
  foldr (λ p acc, default 0 (make_quotas 5 2 !! p) + acc) 0 (Py.range 2)
  = 5.
Proof.
  destruct (quotas_sum_to_target 5 2) as (H1 & H2 & _ & H4 & _); [lia|].
  split; [apply H1; lia|]. split; [exact H2 | exact H4].
Defined.

Lemma cluster_target_below_total_witness :
  0 ≤ make_target_of_cluster 8 (1 # 2)
        [merge_defaults "sgd" (1 # 10) 0 0 0 (Some 0%Q) (Scenario.adapter 8)]
    < 8.
Proof.
  destruct (cluster_target_below_total 8 (1 # 2)
              [merge_defaults "sgd" (1 # 10) 0 0 0 (Some 0%Q)
                 (Scenario.adapter 8)]) as [[H1 _] H2].
  - lia.
  - unfold Qle. simpl. lia.
  - split; [exact H1 | apply H2; lia].
Defined.


Lemma init_index_sets_witness :
  (∀ g, g ∈ param_groups Runs.mixed_sch →
        important_idxes Runs.mixed_s0 !! group_id g
        = Some (Py.range (num_groups g)) ∧
        pruned_idxes Runs.mixed_s0 !! group_id g = Some [] ∧
        active_redundant_idxes Runs.mixed_s0 !! group_id g = Some []) ∧
  (∀ c gs, (c, gs) ∈ prunable_param_group_clusters Runs.mixed_sch →
           pruned_group_idx_by_cluster Runs.mixed_s0 !! c = Some []).
Proof.
  exact (init_index_sets Scenario.DEFAULT_OPT_PARAMS
           Scenario.no_zero_groups Mixed.args Mixed.T0 _ _
           (va_ids _ mixed_valid) (va_names _ mixed_valid) mixed_init).
Defined.

Lemma initial_target_within_total_witness :
  0 < total_num_groups Runs.mixed_sch ∧
  0 ≤ target_num_redundant_groups Runs.mixed_s0
    < total_num_groups Runs.mixed_sch.
Proof.
  assert (Hpos : 0 < total_num_groups Runs.mixed_sch) by reflexivity.
  split; [exact Hpos|].
  destruct (initial_target_within_total Scenario.DEFAULT_OPT_PARAMS
              Scenario.no_zero_groups Mixed.args Mixed.T0 _ _
              (va_names _ mixed_valid) (proj1 mixed_nonneg)
              (proj2 mixed_nonneg) mixed_init) as [[H1 _] H2].
  split; [exact H1 | exact (H2 Hpos)].
Defined.

Lemma select_top_indices_wf_witness :
  select_top_indices [3; 2; 1; 10]%Q [3] 1 = Ok [1] ∧
  StronglySorted Z.lt [1] ∧
  (∀ i, i ∈ [1] → 0 ≤ i < Py.len [3; 2; 1; 10]%Q ∧ i ∉ [3]) ∧
  Py.len [1] ≤ 1.
Proof.
  split; [reflexivity|].
  apply (select_top_indices_wf [3; 2; 1; 10]%Q [3] 1 [1]);
    [lia | reflexivity].
Defined.

Lemma selection_agrees_when_pruned_lowest_witness :
  Torch.topk_neg [3; 2; 1; 10]%Q 2 = Ok [2; 1] ∧
  select_top_indices [3; 2; 1; 10]%Q [2] 1 = Ok [1] ∧
  Py.len [1] = 1 ∧
  (∀ i, i ∈ [1] ↔ i ∈ [2; 1] ∧ i ∉ [2]) ∧
  ∃ by_score, select_by_score [3; 2; 1; 10]%Q [2] 1 = Ok by_score ∧
              [1] ≡ₚ by_score.
Proof.
  split; [reflexivity|]. split; [reflexivity|].
  apply (selection_agrees_when_pruned_lowest
           [3; 2; 1; 10]%Q [2] 1 [2; 1] [1]).
  - apply NoDup_singleton.
  - lia.
  - reflexivity.
  - intros i Hi. apply list_elem_of_singleton in Hi. rewrite Hi.
    apply list_elem_of_here.
  - reflexivity.
Defined.

Lemma grad_variant_entries_witness :
  let g := merge_defaults "sgd" (1 # 10) 0 0 0 (Some 0%Q)
             (Scenario.adapter 8) in
  let T := set_grad (Scenario.grads 8) (Scenario.T0 8) in
  param_groups Runs.lora_sch !! 0%nat = Some g ∧
  data (compute_grad_variant Scenario.no_sqrt Runs.lora_sch 1 T) = data T ∧
  ∃ gv, grad_variant (compute_grad_variant Scenario.no_sqrt Runs.lora_sch
                        1 T) !! 0%nat = Some gv ∧
        is_Some (gv !! "m.lora_B"%string) ∧
        gv !! "m.weight"%string = None.
Proof.
  intros g T.
  assert (Hg : param_groups Runs.lora_sch !! 0%nat = Some g)
    by reflexivity.
  split; [exact Hg|].
  destruct (grad_variant_entries Scenario.no_sqrt Runs.lora_sch 1 T
              0%nat g Hg) as (Hd & _ & gv & Hgv & Hdom).
  split; [exact Hd|]. exists gv. split; [exact Hgv|]. split.
  - apply Hdom. split; [apply list_elem_of_here|].
    exists (Scenario.ones 8). reflexivity.
  - destruct (gv !! "m.weight"%string) as [x|] eqn:Hx; [|reflexivity].
    exfalso. destruct (proj1 (Hdom "m.weight"%string)) as [_ [y Hy]].
    + rewrite Hx. by eexists.
    + vm_compute in Hy. discriminate.
Defined.

Lemma update_plain_effect_witness :
  let g := merge_defaults "sgd" (1 # 10) 0 0 0 (Some 0%Q)
             (Scenario.adapter 8) in
  NoDup (p_names g) ∧
  param_data (update_plain g (Scenario.grads 8) (Scenario.T0 8)) "m.lora_B"
  = add_ (decay_adamw g (Scenario.ones 8)) (Scenario.ones 8) (- (1 # 10))%Q ∧
  param_data (update_plain g (Scenario.grads 8) (Scenario.T0 8)) "m.weight"
  = Scenario.ones 8.
Proof.
  intros g.
  assert (Hnd : NoDup (p_names g)).
  { eapply bool_decide_unpack. vm_compute. exact I. }
  split; [exact Hnd|]. split.
  - rewrite (update_plain_effect g (Scenario.grads 8) (Scenario.T0 8)
               "m.lora_B" Hnd). reflexivity.
  - rewrite (update_plain_effect g (Scenario.grads 8) (Scenario.T0 8)
               "m.weight" Hnd). reflexivity.
Defined.

Lemma update_active_writes_adapters_only_witness :
  update_active Scenario.plain_mask Runs.mixed_sch 1 Mixed.pair
    Mixed.pair_gv Mixed.pair_mask
    (zip (p_names Mixed.pair) (p_transform Mixed.pair)) Mixed.pair_T
  = Ok Runs.pair_updated ∧
  is_Some (Mixed.pair_gv !! "p.lora_A"%string) ∧
  param_data Runs.pair_updated "p.lora_A"
  = param_data Mixed.pair_T "p.lora_A".
Proof.
  split; [exact mixed_pair_updated|].
  split; [exists (Scenario.ones 2); reflexivity|].
  refine (update_active_writes_adapters_only Scenario.plain_mask
            _ _ _ _ _ _ _ _ "p.lora_A"%string mixed_pair_updated _ _).
  - intros d Hd. simpl in Hd.
    repeat (apply elem_of_cons in Hd as [->|Hd]; [reflexivity|]).
    by apply elem_of_nil in Hd.
  - intros d Hd Hc. simpl in Hd.
    apply elem_of_cons in Hd as [->|Hd]; [discriminate Hc|].
    apply elem_of_cons in Hd as [->|Hd].
    { repeat split; vm_compute; discriminate. }
    apply elem_of_cons in Hd as [->|Hd]; [discriminate Hc|].
    by apply elem_of_nil in Hd.
Defined.

Lemma hard_zero_rows_witness :
  let g := merge_defaults "sgd" (1 # 10) 0 0 0 (Some 0%Q)
             (Scenario.adapter 8) in
  zero_pruned g [6; 7] (Scenario.T0 8) = Ok Runs.adapter_zeroed ∧
  zero_at [6; 7] (param_data Runs.adapter_zeroed "m.lora_B") ∧
  zero_at [6; 7] (param_data Runs.adapter_zeroed "m.weight").
Proof.
  intros g. split; [exact adapter_zeroed|].
  destruct (hard_zero_rows g [6; 7] (Scenario.T0 8) Runs.adapter_zeroed
              "m.lora_B" BASIC adapter_zeroed) as (H1 & H2 & _).
  - apply list_elem_of_here.
  - reflexivity.
  - discriminate.
  - discriminate.
  - discriminate.
  - split; [exact H1 | exact H2].
Defined.

Lemma mask_marks_active_witness :
  let g := merge_defaults "sgd" (1 # 10) 0 0 0 (Some 0%Q)
             (Scenario.adapter 8) in
  active_redundant_idxes Runs.mixed_4.1 !! group_id g = Some [5; 6] ∧
  active_redundant_bool Runs.mixed_4.1 !! group_id g
  = Some (mask_of (num_groups g) [5; 6]).
Proof.
  intros g.
  assert (Ha : active_redundant_idxes Runs.mixed_4.1 !! group_id g
               = Some [5; 6]) by (vm_compute; reflexivity).
  split; [exact Ha|].
  refine (mask_marks_active Scenario.DEFAULT_OPT_PARAMS Scenario.score
            Scenario.no_zero_groups Scenario.plain_mask Scenario.no_sqrt
            _ _ _ _ _ _ _ g [5; 6] mixed_valid mixed_init mixed_run_4
            _ Ha _).
  - rewrite mixed_groups. apply list_elem_of_here.
  - discriminate.
Defined.

Lemma global_start_idx_contiguous_witness :
  let g := merge_defaults "sgd" (1 # 10) 0 0 0 (Some 0%Q)
             (Scenario.adapter 8) in
  let s := compute_importance_scores Scenario.score Runs.mixed_sch
             Mixed.T0 Runs.mixed_s0 in
  ("lora"%string, take 2 Mixed.groups)
    ∈ prunable_param_group_clusters Runs.mixed_sch ∧
  filter (λ g, eligible g) (take 2 Mixed.groups) !! 0%nat = Some g ∧
  cluster_importance_scores s !! "lora"%string
  = Some [Scenario.score Mixed.T0 g] ∧
  global_start_idx s !! group_id g = Some 0.
Proof.
  intros g s.
  assert (Hc : ("lora"%string, take 2 Mixed.groups)
                 ∈ prunable_param_group_clusters Runs.mixed_sch).
  { rewrite mixed_clusters. apply list_elem_of_here. }
  assert (Hi : filter (λ g, eligible g) (take 2 Mixed.groups) !! 0%nat
               = Some g) by reflexivity.
  split; [exact Hc|]. split; [exact Hi|].
  exact (global_start_idx_contiguous Scenario.DEFAULT_OPT_PARAMS
           Scenario.score Scenario.no_zero_groups Mixed.args Mixed.T0
           Runs.mixed_sch Runs.mixed_s0 Mixed.T0 Runs.mixed_s0
           "lora"%string (take 2 Mixed.groups) 0%nat g
           mixed_valid mixed_init Hc Hi).
Defined.

Lemma pruned_recorded_in_cluster_witness :
  let g := merge_defaults "sgd" (1 # 10) 0 0 0 (Some 0%Q)
             (Scenario.adapter 8) in
  pruned_idxes Runs.mixed_8.1 !! group_id g = Some [5; 6; 2; 3] ∧
  active_redundant_idxes Runs.mixed_8.1 !! group_id g = Some [] ∧
  ∃ c gs k l,
    (c, gs) ∈ prunable_param_group_clusters Runs.mixed_sch ∧
    filter (λ g, eligible g) gs !! k = Some g ∧
    pruned_group_idx_by_cluster Runs.mixed_8.1 !! c = Some l ∧
    5 + sum_num_groups (take k (filter (λ g, eligible g) gs)) ∈ l.
Proof.
  intros g.
  assert (Hp : pruned_idxes Runs.mixed_8.1 !! group_id g
               = Some [5; 6; 2; 3]) by (vm_compute; reflexivity).
  assert (Ha : active_redundant_idxes Runs.mixed_8.1 !! group_id g
               = Some []) by (vm_compute; reflexivity).
  split; [exact Hp|]. split; [exact Ha|].
  refine (pruned_recorded_in_cluster Scenario.DEFAULT_OPT_PARAMS
            Scenario.score Scenario.no_zero_groups Scenario.plain_mask
            Scenario.no_sqrt _ _ _ _ _ _ _ g [5; 6; 2; 3] [] 5
            mixed_valid mixed_init mixed_run_8 _ Hp Ha _).
  - rewrite mixed_groups. apply list_elem_of_here.
  - apply list_elem_of_here.
Defined.

Lemma unit_norms_fit g :
  g ∈ param_groups Runs.mixed_sch → eligible g = true →
  ∃ v, unit_norms Mixed.T0 g = Ok v ∧ Py.len v = num_groups g.
Proof.
  intros Hg _. rewrite mixed_groups in Hg.
  exists (replicate (Z.to_nat (num_groups g)) 1%Q). split; [reflexivity|].
  repeat (apply elem_of_cons in Hg as [->|Hg]; [reflexivity|]).
  by apply elem_of_nil in Hg.
Defined.

Lemma norm_group_counts_witness :
  ∃ r, compute_norm_groups unit_norms Runs.mixed_sch Runs.mixed_8.1
         Mixed.T0 = Ok r ∧
       num_important_groups r + num_redundant_groups r
       = sum_num_groups
           (filter (λ g, eligible g) (param_groups Runs.mixed_sch)).
Proof.
  exact (norm_group_counts Scenario.DEFAULT_OPT_PARAMS Scenario.score
           Scenario.no_zero_groups Scenario.plain_mask Scenario.no_sqrt
           unit_norms _ _ _ _ _ _ _ Mixed.T0 mixed_valid mixed_init
           mixed_run_8 unit_norms_fit).
Defined.

Lemma zero_groups_bounded_witness :
  ∃ sparsity norm_x zeros,
    compute_group_sparsity_param_norm unit_norms Runs.mixed_sch Mixed.T0
    = Ok (sparsity, norm_x, zeros) ∧
    0 ≤ zeros
      ≤ sum_num_groups
          (filter (λ g, eligible g) (param_groups Runs.mixed_sch)).
Proof.
  exact (zero_groups_bounded unit_norms Runs.mixed_sch Mixed.T0
           unit_norms_fit).
Defined.

Lemma commit_never_raises_witness :
  ∃ s1, commit_redundant_idxes Runs.mixed_sch Runs.mixed_4.1 = Ok s1.
Proof.
  exact (commit_never_raises Scenario.DEFAULT_OPT_PARAMS Scenario.score
           Scenario.no_zero_groups Scenario.plain_mask Scenario.no_sqrt
           _ _ _ _ _ _ _ mixed_valid mixed_init mixed_run_4).
Defined.

Lemma warmup_steps_succeed_witness :
  pruning_period_duration Runs.mixed_sch ≠ 0 ∧
  Z.of_nat (length (replicate 2 Mixed.grads))
    < start_pruning_step Runs.mixed_sch ∧
  ∃ s T,
    run Scenario.score Scenario.no_zero_groups Scenario.plain_mask
    Scenario.no_sqrt Runs.mixed_sch (replicate 2 Mixed.grads)
      (Runs.mixed_s0, Mixed.T0) = Ok (s, T) ∧
    pruned_idxes s = pruned_idxes Runs.mixed_s0 ∧
    curr_pruning_period s = 0.
Proof.
  assert (Hd : pruning_period_duration Runs.mixed_sch ≠ 0) by discriminate.
  assert (Hl : Z.of_nat (length (replicate 2 Mixed.grads))
               < start_pruning_step Runs.mixed_sch) by reflexivity.
  split; [exact Hd|]. split; [exact Hl|].
  destruct (warmup_steps_succeed Scenario.DEFAULT_OPT_PARAMS Scenario.score
              Scenario.no_zero_groups Scenario.plain_mask Scenario.no_sqrt
              Mixed.args Mixed.T0 Runs.mixed_sch Runs.mixed_s0
              (replicate 2 Mixed.grads) mixed_init Hd Hl)
    as (s & T & Hrun & _ & Hp & _ & _ & _ & Hc).
  exists s, T. split; [exact Hrun|]. split; [exact Hp | exact Hc].
Defined.

Lemma cluster_pruned_within_target_witness :
  ("lora"%string, take 2 Mixed.groups)
    ∈ prunable_param_group_clusters Runs.mixed_sch ∧
  ∃ l t,
    pruned_group_idx_by_cluster Runs.mixed_8.1 !! "lora"%string = Some l ∧
    target_num_redundant_groups_by_clusters Runs.mixed_sch !! "lora"%string
    = Some t ∧
    NoDup l ∧ Py.len l ≤ t ∧
    ∀ g pr ac, g ∈ take 2 Mixed.groups →
               pruned_idxes Runs.mixed_8.1 !! group_id g = Some pr →
               active_redundant_idxes Runs.mixed_8.1 !! group_id g
               = Some ac →
               Py.len (pr ++ ac) ≤ t.
Proof.
  assert (Hc : ("lora"%string, take 2 Mixed.groups)
                 ∈ prunable_param_group_clusters Runs.mixed_sch).
  { rewrite mixed_clusters. apply list_elem_of_here. }
  split; [exact Hc|].
  exact (cluster_pruned_within_target Scenario.DEFAULT_OPT_PARAMS
           Scenario.score Scenario.no_zero_groups Scenario.plain_mask
           Scenario.no_sqrt _ _ _ _ _ _ _ _ _ mixed_valid
           (proj1 mixed_nonneg) (proj2 mixed_nonneg) mixed_init
           mixed_run_8 Hc).
Defined.
